(** * peiyao_project: gallery reconciliation, layout editor and duplicate cleanup

    A shallow embedding of the state updates of [src/App.tsx] (both revisions
    of the gallery) and [src/setting.tsx] (drag handler and cleanup handler),
    with the properties the specification states about them; and of the slots
    and frames of the gallery, the router, the layout editor in its revisions
    and the cleanup run as a whole, with further properties of the code.

    React state is modelled by explicit state passing: a [useState] cell is a
    record field, a functional updater [setX(prev => ...)] is a function on the
    previous value, and an event handler is a function from state to state. *)

From Stdlib Require Import ZArith QArith Qround Ascii String.
From stdpp Require Import base list gmap strings pretty sorting.

Local Open Scope string_scope.

(** ** JavaScript values *)

Module JS.

(** The run-time values a column of a row can hold.  Numbers are kept to the
    integers and NaN, which is all the truthiness test distinguishes. *)
Inductive jsval : Type :=
  | JUndefined
  | JNull
  | JBool (b : bool)
  | JNum (n : Z)
  | JNaN
  | JStr (s : string).

#[global] Instance jsval_eq_dec : EqDecision jsval.
Proof. solve_decision. Defined.

(** [!!v]: the values that count as true in a condition. *)
Definition truthy (v : jsval) : bool :=
  match v with
  | JUndefined | JNull | JNaN => false
  | JBool b => b
  | JNum n => negb (n =? 0)%Z
  | JStr s => negb (bool_decide (s = ""))
  end.

(** A value that is not there: [null] or [undefined]. *)
Definition absent (v : jsval) : bool :=
  match v with
  | JUndefined | JNull => true
  | _ => false
  end.

(** [v ?? d] on a value. *)
Definition nullish (v d : jsval) : jsval :=
  match v with
  | JUndefined | JNull => d
  | _ => v
  end.

(** A string-typed property used as a condition: only [''] is false. *)
Definition truthy_str (s : string) : bool := negb (bool_decide (s = "")).

(** What a [catch] clause or an [error] field receives: [message] is the
    value's [message] property when it has one, [text] is the value turned
    into a string by a template literal. *)
Record thrown : Type := Thrown { message : option string; text : string }.

(** [e?.message ?? d] and [e.message ?? e] inside a template literal. *)
Definition message_or (e : thrown) (d : string) : string := default d (message e).
Definition message_or_self (e : thrown) : string := default (text e) (message e).

(** The outcome of an awaited query: the promise resolves to [{data, error}]
    or is rejected. *)
Inductive response (A : Type) : Type :=
  | Resolved (data : option A) (error : option thrown)
  | Rejected (e : thrown).
Arguments Resolved {A} data error.
Arguments Rejected {A} e.

(** What the [catch] clause after [if (error) throw error] receives, if
    anything. *)
Definition failure {A} (res : response A) : option thrown :=
  match res with
  | Resolved _ error => error
  | Rejected e => Some e
  end.

(** The line break written [\n] in the messages. *)
Definition nl : string := String "010"%char "".

End JS.

Import JS.

(** ** Numbers *)

Module Double.

Local Open Scope Z_scope.

(** [n / d] to the nearest whole number, a tie going to the even one, for
    [0 ≤ n] and [0 < d]. *)
Definition round_div (n d : Z) : Z :=
  let m := n / d in
  let r := n mod d in
  if (d <? 2 * r) || ((2 * r =? d) && Z.odd m) then m + 1 else m.

(** The whole number [n ≥ 0] kept to 53 significant bits. *)
Definition keep53 (n : Z) : Z :=
  let k := Z.log2 n - 52 in
  if k <=? 0 then n else round_div n (2 ^ k) * 2 ^ k.

(** The integer part of the binary logarithm of [n / d], for [0 < n]. *)
Definition floor_log2 (n : Z) (d : positive) : Z :=
  let l := Z.log2 n - Z.log2 (Z.pos d) in
  let reached :=
    if 0 <=? l then Z.pos d * 2 ^ l <=? n else Z.pos d <=? n * 2 ^ (- l) in
  if reached then l else l - 1.

(** The double nearest to a positive rational, as a rational: 53 bits in the
    normal range, multiples of [2^-1074] below it. *)
Definition nearest_pos (n : Z) (d : positive) : Q :=
  let e := Z.max (floor_log2 n d - 52) (- 1074) in
  if 0 <=? e then inject_Z (round_div n (Z.pos d * 2 ^ e) * 2 ^ e)
  else Qred (Qmake (round_div (n * 2 ^ (- e)) (Z.pos d)) (Z.to_pos (2 ^ (- e)))).

(** IEEE 754 rounding to nearest, ties to even, of a rational whose nearest
    double is finite.  A whole number up to [2^53] is a double as it
    stands. *)
Definition nearest (q : Q) : Q :=
  if (Qden q =? 1)%positive && (Z.abs (Qnum q) <=? 2 ^ 53) then q
  else
    match Qnum q with
    | 0 => 0%Q
    | Z.pos n => nearest_pos (Z.pos n) (Qden q)
    | Z.neg n => Qopp (nearest_pos (Z.pos n) (Qden q))
    end.

End Double.

(** ** The gallery rows and the three realtime updaters (App.tsx) *)

Module Rows.

(** [type UnlockedRow = { id: string; image_url: string | null;
    created_at?: string | null }].  The handlers test [image_url] at run time,
    so it is kept as a run-time value; [created_at] is an optional key. *)
Record UnlockedRow : Type := Row {
  id : string;
  image_url : jsval;
  created_at : option jsval;
}.

#[global] Instance UnlockedRow_eq_dec : EqDecision UnlockedRow.
Proof. solve_decision. Defined.

Definition ids (rows : list UnlockedRow) : list string := id <$> rows.

(** [{ ...r, ...updated }]: every key of [updated] overwrites the one of [r];
    [created_at] is overwritten only when [updated] carries the key. *)
Definition spread (r updated : UnlockedRow) : UnlockedRow :=
  {| id := id updated;
     image_url := image_url updated;
     created_at := match created_at updated with
                   | Some v => Some v
                   | None => created_at r
                   end |}.

(** [(data ?? []).filter((r) => !!r.image_url).map((r) => ({ id, image_url,
    created_at: r.created_at ?? null }))] *)
Definition cleaned (data : option (list UnlockedRow)) : list UnlockedRow :=
  (λ r, {| id := id r;
           image_url := image_url r;
           created_at := Some (nullish (default JUndefined (created_at r)) JNull) |})
    <$> filter (λ r, truthy (image_url r) = true) (default [] data).

(** [prev.filter((r) => r.id !== newRow.id)] *)
Definition withoutDup (prev : list UnlockedRow) (newRow : UnlockedRow) : list UnlockedRow :=
  filter (λ r, id r ≠ id newRow) prev.

(** UPDATE: [prev.map((r) => r.id === updated.id ? { ...r, ...updated } : r)] *)
Definition onUpdate (updated : UnlockedRow) (prev : list UnlockedRow) : list UnlockedRow :=
  (λ r, if bool_decide (id r = id updated) then spread r updated else r) <$> prev.

(** DELETE: [prev.filter((r) => r.id !== deleted.id)] *)
Definition onDelete (deleted : UnlockedRow) (prev : list UnlockedRow) : list UnlockedRow :=
  filter (λ r, id r ≠ id deleted) prev.

(** [!newRow?.image_url]: the payload may be missing altogether. *)
Definition insert_guard (newRow : option UnlockedRow) : bool :=
  negb (truthy (default JUndefined (image_url <$> newRow))).

(** A row that carries an image: its [image_url] counts as true. *)
Definition has_image (r : UnlockedRow) : Prop := truthy (image_url r) = true.

End Rows.

Import Rows.

(** ** First revision of App.tsx: the unbounded gallery *)

Module Gallery.

Record state : Type := State {
  rows : list UnlockedRow;
  loading : bool;
  error : option string;
}.

(** [useState([])], [useState(true)], [useState(null)] *)
Definition initial : state := {| rows := []; loading := true; error := None |}.

Definition load_failed : string := "데이터를 불러오는 중 오류가 발생했습니다.".

(** [fetchImages], from the point where the query settles. *)
Definition fetchImages (res : response (list UnlockedRow)) (st : state) : state :=
  match res with
  | Resolved data None =>
      {| rows := cleaned data; loading := false; error := error st |}
  | Resolved _ (Some e) | Rejected e =>
      {| rows := rows st; loading := false;
         error := Some (message_or e load_failed) |}
  end.

(** INSERT: ignored when the guard fires, else the row goes to the front. *)
Definition onInsert (newRow : option UnlockedRow) (prev : list UnlockedRow) : list UnlockedRow :=
  match newRow with
  | Some r => if insert_guard newRow then prev else r :: withoutDup prev r
  | None => prev
  end.

(** The error paragraph is rendered by [{error && (...)}]. *)
Definition banner (st : state) : option string :=
  match error st with
  | Some m => if truthy_str m then Some m else None
  | None => None
  end.

Inductive event : Type :=
  | Load (res : response (list UnlockedRow))
  | Insert (newRow : option UnlockedRow)
  | Update (updated : UnlockedRow)
  | Delete (deleted : UnlockedRow).

Definition with_rows (f : list UnlockedRow → list UnlockedRow) (st : state) : state :=
  {| rows := f (rows st); loading := loading st; error := error st |}.

Definition step (st : state) (ev : event) : state :=
  match ev with
  | Load res => fetchImages res st
  | Insert newRow => with_rows (onInsert newRow) st
  | Update updated => with_rows (onUpdate updated) st
  | Delete deleted => with_rows (onDelete deleted) st
  end.

Definition run (evs : list event) (st : state) : state := foldl step st evs.

(** A bulk read answers with rows of pairwise distinct ids. *)
Definition well_keyed (ev : event) : Prop :=
  match ev with
  | Load (Resolved (Some data) None) => NoDup (ids data)
  | _ => True
  end.

(** Events whose UPDATE payloads have an [image_url] that is there, and
    events whose UPDATE payloads carry an image. *)
Definition update_has_url (ev : event) : Prop :=
  match ev with
  | Update updated => absent (image_url updated) = false
  | _ => True
  end.

Definition update_has_image (ev : event) : Prop :=
  match ev with
  | Update updated => has_image updated
  | _ => True
  end.

End Gallery.

(** ** Second revision of App.tsx: the gallery bounded to 16 slots *)

Module Gallery16.

(** What a timer set by [setTimeout] does when it fires. *)
Inductive timer_action : Type :=
  | SetStatusMsg (m : string).

(** The cells the handlers below touch ([hovered] and [frames] only feed the
    rendering), with the effects of [alert], [console.error] and [setTimeout]
    recorded in the order they happen. *)
Record state : Type := State {
  rows : list UnlockedRow;
  deleting : gmap string bool;
  statusMsg : string;
  alerts : list string;
  console : list string;
  timers : list (Z * timer_action);
}.

Definition initial : state :=
  {| rows := []; deleting := ∅; statusMsg := ""; alerts := [];
     console := []; timers := [] |}.

Definition set_rows (f : list UnlockedRow → list UnlockedRow) (st : state) : state :=
  {| rows := f (rows st); deleting := deleting st; statusMsg := statusMsg st;
     alerts := alerts st; console := console st; timers := timers st |}.

Definition set_deleting (f : gmap string bool → gmap string bool) (st : state) : state :=
  {| rows := rows st; deleting := f (deleting st); statusMsg := statusMsg st;
     alerts := alerts st; console := console st; timers := timers st |}.

Definition set_statusMsg (f : string → string) (st : state) : state :=
  {| rows := rows st; deleting := deleting st; statusMsg := f (statusMsg st);
     alerts := alerts st; console := console st; timers := timers st |}.

Definition alert (m : string) (st : state) : state :=
  {| rows := rows st; deleting := deleting st; statusMsg := statusMsg st;
     alerts := alerts st ++ [m]; console := console st; timers := timers st |}.

Definition console_error (m : string) (st : state) : state :=
  {| rows := rows st; deleting := deleting st; statusMsg := statusMsg st;
     alerts := alerts st; console := console st ++ [m]; timers := timers st |}.

Definition setTimeout (a : timer_action) (ms : Z) (st : state) : state :=
  {| rows := rows st; deleting := deleting st; statusMsg := statusMsg st;
     alerts := alerts st; console := console st; timers := timers st ++ [(ms, a)] |}.

Definition fire (a : timer_action) (st : state) : state :=
  match a with
  | SetStatusMsg m => set_statusMsg (λ _, m) st
  end.

Definition load_failed : string := "데이터를 불러오는 중 오류가 발생했습니다.".

(** [fetchImages], from the point where the query settles; the [catch] clause
    only writes to the console. *)
Definition fetchImages (res : response (list UnlockedRow)) (st : state) : state :=
  match res with
  | Resolved data None => set_rows (λ _, take 16 (cleaned data)) st
  | Resolved _ (Some e) | Rejected e => console_error (message_or e load_failed) st
  end.

(** INSERT: [([{ ...newRow }, ...withoutDup]).slice(0, 16)] *)
Definition onInsert (newRow : option UnlockedRow) (prev : list UnlockedRow) : list UnlockedRow :=
  match newRow with
  | Some r => if insert_guard newRow then prev else take 16 (r :: withoutDup prev r)
  | None => prev
  end.

(** The INSERT handler run on a burst of events, oldest first. *)
Definition inserts (news : list UnlockedRow) (prev : list UnlockedRow) : list UnlockedRow :=
  foldl (λ acc r, onInsert (Some r) acc) prev news.

(** [handleDelete] up to its [await]; [None] when [!row?.id] returns at once. *)
Definition handleDelete_begin (row : UnlockedRow) (st : state) : option state :=
  if truthy_str (id row) then
    Some (set_statusMsg (λ _, "삭제 시작: id=" ++ id row)
            (set_deleting (λ prev, <[id row := true]> prev) st))
  else None.

(** The [finally] block. *)
Definition handleDelete_finally (row : UnlockedRow) (st : state) : state :=
  setTimeout (SetStatusMsg "") 3000
    (set_deleting (λ prev, delete (id row) prev) st).

(** [handleDelete] from the point where the remote delete settles. *)
Definition handleDelete_settle (row : UnlockedRow) (res : response unit) (st : state) : state :=
  handleDelete_finally row
    match res with
    | Resolved _ (Some delErr) =>
        alert ("DB 삭제 실패:" ++ nl ++ message_or_self delErr)
          (set_statusMsg (λ m, m ++ nl ++ "[에러] DB 삭제 실패: " ++ message_or_self delErr) st)
    | Resolved _ None =>
        set_statusMsg (λ m, m ++ nl ++ "완료 ✅ (Storage 파일은 유지됨)")
          (set_rows (λ prev, filter (λ r, id r ≠ id row) prev)
             (set_statusMsg (λ m, m ++ nl ++ "DB 삭제 성공") st))
    | Rejected e =>
        alert ("삭제 중 예외가 발생했습니다." ++ nl ++ "콘솔을 확인해 주세요.")
          (set_statusMsg (λ m, m ++ nl ++ "[예외] " ++ message_or_self e)
             (console_error (text e) st))
    end.

(** The whole handler when nothing else happens while the request is out. *)
Definition handleDelete (row : UnlockedRow) (res : response unit) (st : state) : state :=
  match handleDelete_begin row st with
  | Some st' => handleDelete_settle row res st'
  | None => st
  end.

(** The status box is rendered by [{statusMsg && (...)}]. *)
Definition banner (st : state) : option string :=
  if truthy_str (statusMsg st) then Some (statusMsg st) else None.

(** Everything that can happen to the gallery; the two halves of
    [handleDelete] are separate events, so that others may come in between. *)
Inductive event : Type :=
  | Load (res : response (list UnlockedRow))
  | Insert (newRow : option UnlockedRow)
  | Update (updated : UnlockedRow)
  | Delete (deleted : UnlockedRow)
  | Click (row : UnlockedRow)
  | Settled (row : UnlockedRow) (res : response unit)
  | Timeout (a : timer_action).

Definition step (st : state) (ev : event) : state :=
  match ev with
  | Load res => fetchImages res st
  | Insert newRow => set_rows (onInsert newRow) st
  | Update updated => set_rows (onUpdate updated) st
  | Delete deleted => set_rows (onDelete deleted) st
  | Click row => default st (handleDelete_begin row st)
  | Settled row res => handleDelete_settle row res st
  | Timeout a => fire a st
  end.

Definition run (evs : list event) (st : state) : state := foldl step st evs.

(** A bulk read answers with rows of pairwise distinct ids. *)
Definition well_keyed (ev : event) : Prop :=
  match ev with
  | Load (Resolved (Some data) None) => NoDup (ids data)
  | _ => True
  end.

(** Events whose UPDATE payloads have an [image_url] that is there, and
    events whose UPDATE payloads carry an image. *)
Definition update_has_url (ev : event) : Prop :=
  match ev with
  | Update updated => absent (image_url updated) = false
  | _ => True
  end.

Definition update_has_image (ev : event) : Prop :=
  match ev with
  | Update updated => has_image updated
  | _ => True
  end.

End Gallery16.

(** ** setting.tsx: the drag handler of the layout editor *)

Module Setting.

Local Open Scope Q_scope.

(** Screen coordinates are JavaScript numbers: finite doubles, each held as
    the rational it is.  A sum or difference of two of them is rounded by the
    engine to the nearest double. *)
Record view : Type := View { x : Q; y : Q; w : Q; h : Q }.

(** The [dragging] cell: the session opened by [onMouseDown]. *)
Record session : Type := Session {
  id : string;
  offsetX : Q;
  offsetY : Q;
  canvasLeft : Q;
  canvasTop : Q;
  scrollLeft : Q;
  scrollTop : Q;
}.

Record MouseEvent : Type := Mouse { clientX : Q; clientY : Q }.

(** [Math.round]: to the nearest integer, halves upwards. *)
Definition Math_round (q : Q) : Z := Qfloor (q + (1 # 2)).

(** [views], [dragging], and the timer of the debounced save: the effect on
    [[views]] clears the pending 400 ms timer and arms a new one each time
    [views] becomes a new object; [armed] counts how often that happened. *)
Record state : Type := State {
  views : gmap string view;
  dragging : option session;
  armed : nat;
}.

(** A functional updater either hands back [prev] itself, which leaves the
    state as it is ([None]), or builds a new object. *)
Definition setViews (f : gmap string view → option (gmap string view)) (st : state) : state :=
  match f (views st) with
  | Some next => {| views := next; dragging := dragging st; armed := S (armed st) |}
  | None => st
  end.

(** [prev[id] ?? { x: 0, y: 0, w: 260, h: 180 }] *)
Definition current (prev : gmap string view) (i : string) : view :=
  default {| x := 0; y := 0; w := 260; h := 180 |} (prev !! i).

Section Arithmetic.

(** The rounding of an exact result to the nearest double, done by the
    engine after each operation. *)
Context (fl : Q → Q).

(** [e.clientX - canvasLeft + scrollLeft - offsetX], three operations from
    left to right. *)
Definition nextX (d : session) (e : MouseEvent) : Q :=
  fl (fl (fl (clientX e - canvasLeft d) + scrollLeft d) - offsetX d).

Definition nextY (d : session) (e : MouseEvent) : Q :=
  fl (fl (fl (clientY e - canvasTop d) + scrollTop d) - offsetY d).

(** The test that makes the updater return [prev]. *)
Definition same_rounded (cur : view) (d : session) (e : MouseEvent) : bool :=
  (Math_round (x cur) =? Math_round (nextX d e))%Z
  && (Math_round (y cur) =? Math_round (nextY d e))%Z.

(** The updater passed to [setViews] by [onMove]. *)
Definition moved (d : session) (e : MouseEvent) (prev : gmap string view)
  : option (gmap string view) :=
  let cur := current prev (id d) in
  if same_rounded cur d e then None
  else Some (<[id d := {| x := nextX d e; y := nextY d e; w := w cur; h := h cur |}]> prev).

(** [onMove]: nothing without a session. *)
Definition onMove (e : MouseEvent) (st : state) : state :=
  match dragging st with
  | None => st
  | Some d => setViews (moved d e) st
  end.

End Arithmetic.

(** [onUp] *)
Definition onUp (st : state) : state :=
  {| views := views st; dragging := None; armed := armed st |}.

End Setting.

(** ** setting.tsx: the cleanup handler *)

Module Cleanup.

(** [type LockedRow = { id: string; nfc_id: string | null;
    created_at: string | null }] *)
Record LockedRow : Type := Locked {
  id : string;
  nfc_id : option string;
  created_at : option string;
}.

#[global] Instance LockedRow_eq_dec : EqDecision LockedRow.
Proof. solve_decision. Defined.

(** [String(row.nfc_id ?? '')] *)
Definition key (row : LockedRow) : string := default "" (nfc_id row).

(** The names an empty object answers to: the properties of
    [Object.prototype] (ECMAScript, with its Annex B).  Each holds a function
    or, for [__proto__], the prototype itself: a value that counts as true and
    has no [push]. *)
Definition Object_prototype : list string :=
  ["constructor"; "__defineGetter__"; "__defineSetter__"; "hasOwnProperty";
   "__lookupGetter__"; "__lookupSetter__"; "isPrototypeOf"; "propertyIsEnumerable";
   "toString"; "valueOf"; "__proto__"; "toLocaleString"].

Definition inherited (k : string) : bool := bool_decide (k ∈ Object_prototype).

(** [byNfc] is an object used as a map from key to group.  Its own entries
    are kept as a list, in the order the keys were first written.
    [if (!byNfc[key]) byNfc[key] = []; byNfc[key].push(row)] for a key that is
    not inherited: *)
Fixpoint push (k : string) (row : LockedRow) (o : list (string * list LockedRow))
  : list (string * list LockedRow) :=
  match o with
  | [] => [(k, [row])]
  | (k', g) :: o' =>
      if bool_decide (k' = k) then (k', (g ++ [row])%list) :: o' else (k', g) :: push k row o'
  end.

(** One row of the [forEach].  For an inherited key [byNfc[key]] is there
    already, so nothing is assigned, and [byNfc[key].push(row)] throws a
    TypeError ([None]). *)
Definition file (o : list (string * list LockedRow)) (row : LockedRow)
  : option (list (string * list LockedRow)) :=
  if inherited (key row) then None else Some (push (key row) row o).

(** [(lockedRows as LockedRow[] | null)?.forEach(...)]: the object when no
    row made it throw. *)
Definition byNfc (lockedRows : option (list LockedRow))
  : option (list (string * list LockedRow)) :=
  foldl (λ o row, o ≫= λ o, file o row) (Some []) (default [] lockedRows).

(** [Array.prototype.sort] with a comparator: a stable sort that puts [a]
    after [b] exactly when [cmp a b > 0]. *)
Fixpoint sort_insert {A} (cmp : A → A → Z) (a : A) (l : list A) : list A :=
  match l with
  | [] => [a]
  | b :: l' => if (0 <? cmp a b)%Z then b :: sort_insert cmp a l' else a :: b :: l'
  end.

Fixpoint Array_sort {A} (cmp : A → A → Z) (l : list A) : list A :=
  match l with
  | [] => []
  | a :: l' => sort_insert cmp a (Array_sort cmp l')
  end.

(** Batches of at most [n] identifiers, as the [for] loop over
    [idsToDelete.slice(i, i + chunkSize)] cuts them. *)
Fixpoint chunks_of (fuel n : nat) (l : list string) : list (list string) :=
  match fuel with
  | O => []
  | S fuel' =>
      match l with
      | [] => []
      | _ => take n l :: chunks_of fuel' n (drop n l)
      end
  end.

Section Handler.

(** [Date.parse] on the timestamps of the table, in milliseconds. *)
Context (Date_parse : string → Z).

(** [Object.values]: the groups of the object, in the order the engine
    enumerates its keys. *)
Context (Object_values : list (string * list LockedRow) → list (list LockedRow)).

(** [a.created_at ? Date.parse(a.created_at) : 0] *)
Definition time (a : LockedRow) : Z :=
  match created_at a with
  | Some s => if truthy_str s then Date_parse s else 0%Z
  | None => 0%Z
  end.

(** The comparator [(a, b) => tb - ta]. *)
Definition desc (a b : LockedRow) : Z := (time b - time a)%Z.

(** What one group adds to [idsToDelete]: nothing when it has at most one
    row; else the ids, where there is one, of all but the last sorted row. *)
Definition marked (rows : list LockedRow) : list string :=
  if bool_decide (length rows ≤ 1)%nat then []
  else
    id <$> filter (λ r, truthy_str (id r) = true)
             (take (length rows - 1) (Array_sort desc rows)).

(** [Object.values(byNfc).forEach(...)]: the groups add their ids one after
    the other. *)
Definition marks_of (o : list (string * list LockedRow)) : list string :=
  mjoin (marked <$> Object_values o).

(** [idsToDelete] when the loop over the groups is reached. *)
Definition idsToDelete (lockedRows : option (list LockedRow)) : option (list string) :=
  marks_of <$> byNfc lockedRows.

(** The [.in('id', chunk)] deletions sent to [lockeddata] when none fails. *)
Definition requests (lockedRows : option (list LockedRow)) : option (list (list string)) :=
  (λ ids, chunks_of (length ids) 500 ids) <$> idsToDelete lockedRows.

End Handler.

(** The entries [byNfc] has after rows none of which has an inherited key,
    and the ids marked from them. *)
Definition filed (rows : list LockedRow) : list (string * list LockedRow) :=
  foldl (λ o row, push (key row) row o) [] rows.

Definition marks (Date_parse : string → Z)
    (Object_values : list (string * list LockedRow) → list (list LockedRow))
    (rows : list LockedRow) : list string :=
  marks_of Date_parse Object_values (filed rows).

(** The rows of one key, in table order, and the one the handler keeps: the
    last of the group in descending order of time. *)
Definition group (rows : list LockedRow) (k : string) : list LockedRow :=
  filter (λ r, key r = k) rows.

Definition oldest (Date_parse : string → Z) (g : list LockedRow) : option LockedRow :=
  last (Array_sort (desc Date_parse) g).

(** What [byNfc] holds after the rows seen so far: one entry per key, each
    with the rows of that key in table order. *)
Definition grouped (rows : list LockedRow) (o : list (string * list LockedRow)) : Prop :=
  NoDup o.*1
  ∧ (∀ k g, (k, g) ∈ o → g = group rows k ∧ g ≠ [])
  ∧ (∀ r, r ∈ rows → key r ∈ o.*1).

(** Enumeration in the order the keys were written, which is the engine's
    order for keys that are not array indices. *)
Definition insertion_order (o : list (string * list LockedRow)) : list (list LockedRow) :=
  o.*2.

(** [Date.parse] on the two timestamps used as sample data below. *)
Definition sample_parse (s : string) : Z :=
  if bool_decide (s = "2024-01-01T00:00:00Z") then 1704067200000%Z
  else if bool_decide (s = "2024-01-02T00:00:00Z") then 1704153600000%Z
  else if bool_decide (s = "2024-01-03T00:00:00Z") then 1704240000000%Z
  else 0%Z.

End Cleanup.

(** ** Sample data *)

Module Sample.

Definition row (i url : string) : UnlockedRow :=
  {| Rows.id := i; image_url := JStr url;
     Rows.created_at := Some (JStr "2024-01-01T00:00:00Z") |}.

Definition cat : UnlockedRow := row "a" "https://img.example/cat.png".
Definition dog : UnlockedRow := row "b" "https://img.example/dog.png".
Definition owl : UnlockedRow := row "c" "https://img.example/owl.png".

(** A row whose [image_url] column is [null], and the same with ['']. *)
Definition cat_null : UnlockedRow :=
  {| Rows.id := "a"; image_url := JNull; Rows.created_at := None |}.
Definition dog_empty : UnlockedRow :=
  {| Rows.id := "b"; image_url := JStr ""; Rows.created_at := None |}.

Definition fetch_failed : thrown :=
  {| message := Some "Failed to fetch"; text := "TypeError: Failed to fetch" |}.

(** The error of calling [push] on a value that has none. *)
Definition push_missing : thrown :=
  {| message := Some "byNfc[key].push is not a function";
     text := "TypeError: byNfc[key].push is not a function" |}.

Definition feed : list Gallery.event :=
  [Gallery.Insert (Some owl);
   Gallery.Load (Resolved (Some [cat; dog]) None);
   Gallery.Update cat_null;
   Gallery.Insert (Some dog);
   Gallery.Delete cat].

(** Seventeen rows with ids of their own, oldest first. *)
Definition burst : list UnlockedRow :=
  (λ i, row i "https://img.example/new.png")
    <$> ["n01"; "n02"; "n03"; "n04"; "n05"; "n06"; "n07"; "n08"; "n09";
         "n10"; "n11"; "n12"; "n13"; "n14"; "n15"; "n16"; "n17"].

(** A drag of [frame-1], which stands at (10, 10), grabbed at (120, 70) on a
    canvas whose corner is at (100, 50). *)
Definition grab : Setting.session :=
  {| Setting.id := "frame-1"; Setting.offsetX := 10; Setting.offsetY := 10;
     Setting.canvasLeft := 100; Setting.canvasTop := 50;
     Setting.scrollLeft := 0; Setting.scrollTop := 0 |}.

Definition editor : Setting.state :=
  {| Setting.views :=
       {[ "frame-1" := {| Setting.x := 10; Setting.y := 10;
                          Setting.w := 260; Setting.h := 180 |} ]};
     Setting.dragging := Some grab;
     Setting.armed := 0 |}.

Definition move : Setting.MouseEvent :=
  {| Setting.clientX := 200; Setting.clientY := 150 |}.

(** A move of a third of a pixel from the place of the press. *)
Definition nudge : Setting.MouseEvent :=
  {| Setting.clientX := Double.nearest (1203 # 10);
     Setting.clientY := Double.nearest (702 # 10) |}.

(** A session with the offset 9.8, a frame at 91 and a move to 100.3: the
    doubles nearest to these decimals. *)
Definition grab_edge : Setting.session :=
  {| Setting.id := "frame-1";
     Setting.offsetX := Double.nearest (98 # 10); Setting.offsetY := 0;
     Setting.canvasLeft := 0; Setting.canvasTop := 0;
     Setting.scrollLeft := 0; Setting.scrollTop := 0 |}.

Definition editor_edge : Setting.state :=
  {| Setting.views :=
       {[ "frame-1" := {| Setting.x := 91; Setting.y := 0;
                          Setting.w := 260; Setting.h := 180 |} ]};
     Setting.dragging := Some grab_edge;
     Setting.armed := 0 |}.

Definition move_edge : Setting.MouseEvent :=
  {| Setting.clientX := Double.nearest (1003 # 10); Setting.clientY := 0 |}.

(** The locked rows of the specification's example, and two tables with a
    row whose id is empty. *)
Definition locked1 : Cleanup.LockedRow :=
  Cleanup.Locked "1" (Some "A") (Some "2024-01-01T00:00:00Z").
Definition locked2 : Cleanup.LockedRow :=
  Cleanup.Locked "2" (Some "A") (Some "2024-01-02T00:00:00Z").
Definition locked3 : Cleanup.LockedRow :=
  Cleanup.Locked "3" (Some "B") (Some "2024-01-03T00:00:00Z").
Definition unkeyed : Cleanup.LockedRow :=
  Cleanup.Locked "" (Some "A") (Some "2024-01-02T00:00:00Z").
Definition untagged_new : Cleanup.LockedRow :=
  Cleanup.Locked "" None (Some "2024-01-02T00:00:00Z").
Definition untagged_old : Cleanup.LockedRow :=
  Cleanup.Locked "7" None (Some "2024-01-01T00:00:00Z").
Definition untagged_3 : Cleanup.LockedRow :=
  Cleanup.Locked "8" None (Some "2024-01-03T00:00:00Z").

(** Two rows whose tag is a name every object inherits. *)
Definition inherited1 : Cleanup.LockedRow :=
  Cleanup.Locked "1" (Some "constructor") (Some "2024-01-01T00:00:00Z").
Definition inherited2 : Cleanup.LockedRow :=
  Cleanup.Locked "2" (Some "constructor") (Some "2024-01-02T00:00:00Z").

Definition feed16 : list Gallery16.event :=
  [Gallery16.Load (Resolved (Some [cat; dog]) None);
   Gallery16.Insert (Some owl);
   Gallery16.Click dog;
   Gallery16.Update cat_null;
   Gallery16.Settled dog (Resolved None None);
   Gallery16.Timeout (Gallery16.SetStatusMsg "")].

End Sample.

(** ** App.tsx, second revision: what is rendered from the collection *)

Module Slots.

(** [type FrameLayout = { id: string; x: number; y: number; w: number;
    h: number }] *)
Record FrameLayout : Type := Frame {
  id : string;
  x : Q;
  y : Q;
  w : Q;
  h : Q;
}.

(** [Math.max(first, ...rest)] *)
Definition Math_max (first : Q) (rest : list Q) : Q :=
  foldl (λ m q, if Qle_bool m q then q else m) first rest.

(** [getBox]: the stored frame of the slot when there is one, else a cell of
    a grid of four columns. *)
Definition getBox (frames : list FrameLayout) (idx : nat) : Setting.view :=
  match frames !! idx with
  | Some f =>
      {| Setting.x := x f; Setting.y := y f; Setting.w := w f; Setting.h := h f |}
  | None =>
      let baseW := 320%Z in
      let baseH := 220%Z in
      let margin := 16%Z in
      let cols := 4%nat in
      let col := (idx mod cols)%nat in
      let r := (idx / cols)%nat in
      {| Setting.x := inject_Z (Z.of_nat col * (baseW + margin));
         Setting.y := inject_Z (Z.of_nat r * (baseH + margin));
         Setting.w := inject_Z baseW;
         Setting.h := inject_Z baseH |}
  end.

Section Arithmetic.

(** The rounding of an exact result to the nearest double, done by the
    engine after each operation. *)
Context (fl : Q → Q).

(** [Math.max(1200, ...(boxes.length ? boxes.map(b => Number(b.x) +
    Number(b.w) + 32) : [0]))] and the same downwards from 800; each sum is
    two additions. *)
Definition canvasW (boxes : list Setting.view) : Q :=
  Math_max 1200
    (match boxes with
     | [] => [0%Q]
     | _ => (λ b, fl (fl (Setting.x b + Setting.w b) + 32))%Q <$> boxes
     end).

Definition canvasH (boxes : list Setting.view) : Q :=
  Math_max 800
    (match boxes with
     | [] => [0%Q]
     | _ => (λ b, fl (fl (Setting.y b + Setting.h b) + 32))%Q <$> boxes
     end).

End Arithmetic.

Section Projection.

(** [new Date(v).getTime()] on the timestamps of the table, in milliseconds. *)
Context (getTime : jsval → Z).

(** [a.created_at ? new Date(a.created_at).getTime() : 0] *)
Definition stamp (a : UnlockedRow) : Z :=
  match Rows.created_at a with
  | Some v => if truthy v then getTime v else 0%Z
  | None => 0%Z
  end.

(** [[...rows].sort((a, b) => tb - ta)] *)
Definition desc (rows : list UnlockedRow) : list UnlockedRow :=
  Cleanup.Array_sort (λ a b, (stamp b - stamp a)%Z) rows.

(** [for (let slot = 1; slot <= 16; slot++) { const item = desc[slot - 1];
    if (item) slotToRow[slot] = item; }] *)
Definition slotToRow (rows : list UnlockedRow) : gmap nat UnlockedRow :=
  foldl (λ m slot,
           match desc rows !! (slot - 1)%nat with
           | Some item => <[slot := item]> m
           | None => m
           end)
    ∅ (seq 1 16).

(** [Array.from({ length: 16 }, (_, i) => i).filter((i) => !!slotToRow[i + 1])] *)
Definition visibleIdx (rows : list UnlockedRow) : list nat :=
  filter (λ i, is_Some (slotToRow rows !! (i + 1)%nat)) (seq 0 16).

(** The boxes of the frames that are rendered. *)
Definition boxes (frames : list FrameLayout) (rows : list UnlockedRow) : list Setting.view :=
  getBox frames <$> visibleIdx rows.

End Projection.

(** Two boxes that share no point: one ends before the other begins, across
    or down. *)
Definition apart (a b : Setting.view) : Prop :=
  (Setting.x a + Setting.w a <= Setting.x b)%Q
  ∨ (Setting.x b + Setting.w b <= Setting.x a)%Q
  ∨ (Setting.y a + Setting.h a <= Setting.y b)%Q
  ∨ (Setting.y b + Setting.h b <= Setting.y a)%Q.

(** The delete button of a frame: [disabled={!!deleting[row.id]}]. *)
Definition disabled (st : Gallery16.state) (row : UnlockedRow) : bool :=
  default false (Gallery16.deleting st !! Rows.id row).

(** Events that are not a half of the local delete of [i]. *)
Definition not_delete_of (i : string) (ev : Gallery16.event) : Prop :=
  match ev with
  | Gallery16.Click row | Gallery16.Settled row _ => Rows.id row ≠ i
  | _ => True
  end.

(** [getTime] on the timestamps used as sample data, and two rows a day
    apart. *)
Definition sample_getTime (v : jsval) : Z :=
  match v with
  | JStr s => Cleanup.sample_parse s
  | _ => 0%Z
  end.

Definition monday : UnlockedRow :=
  {| Rows.id := "m"; image_url := JStr "https://img.example/m.png";
     Rows.created_at := Some (JStr "2024-01-01T00:00:00Z") |}.

Definition tuesday : UnlockedRow :=
  {| Rows.id := "t"; image_url := JStr "https://img.example/t.png";
     Rows.created_at := Some (JStr "2024-01-02T00:00:00Z") |}.

End Slots.

(** ** setting.tsx, second and third revision: the whole layout editor *)

Module Editor.

(** The numbers of a [getBoundingClientRect()] that the handlers read. *)
Record DOMRect : Type := Rect { left : Q; top : Q; right : Q; bottom : Q }.

(** [canvasRef.current] when it is set: its rectangle and scroll offsets. *)
Record canvas : Type := Canvas { rect : DOMRect; scrollLeft : Q; scrollTop : Q }.

(** A [mousedown] on a frame: the button, the pointer and the rectangle of
    the frame. *)
Record press : Type := Press {
  button : Z;
  pointer : Setting.MouseEvent;
  cardRect : DOMRect;
}.

(** [type SettingLayoutRow = { id: string; x: number; y: number; w: number;
    h: number; ... }] as read from the table, and as written to it with
    rounded numbers. *)
Record SettingLayoutRow : Type := Layout { id : string; x : Q; y : Q; w : Q; h : Q }.

Record rounded : Type := Rounded { rid : string; rx : Z; ry : Z; rw : Z; rh : Z }.

#[global] Instance rounded_eq_dec : EqDecision rounded.
Proof. solve_decision. Defined.

(** The cells of the page, the snapshot of [views] held by the pending
    400 ms timer of the save effect (the effect clears and re-arms the timer
    each time [views] becomes a new object, and is first run on mount), the
    payloads handed to [upsert], and what went to the console. *)
Record state : Type := State {
  views : gmap string Setting.view;
  dragging : option Setting.session;
  topId : option string;
  statusMsg : string;
  isLoading : bool;
  timer : option (gmap string Setting.view);
  sent : list (list rounded);
  console : list string;
}.

Definition initial : state :=
  {| views := ∅; dragging := None; topId := None; statusMsg := "";
     isLoading := true; timer := Some ∅; sent := []; console := [] |}.

(** [setViews] with an updater: handing back [prev] itself changes nothing;
    a new object is stored and the save timer armed anew with it. *)
Definition setViews (f : gmap string Setting.view → option (gmap string Setting.view))
    (st : state) : state :=
  match f (views st) with
  | Some next =>
      {| views := next; dragging := dragging st; topId := topId st;
         statusMsg := statusMsg st; isLoading := isLoading st;
         timer := Some next; sent := sent st; console := console st |}
  | None => st
  end.

Definition setDragging (d : option Setting.session) (st : state) : state :=
  {| views := views st; dragging := d; topId := topId st;
     statusMsg := statusMsg st; isLoading := isLoading st;
     timer := timer st; sent := sent st; console := console st |}.

Definition setTopId (i : option string) (st : state) : state :=
  {| views := views st; dragging := dragging st; topId := i;
     statusMsg := statusMsg st; isLoading := isLoading st;
     timer := timer st; sent := sent st; console := console st |}.

Definition setStatusMsg (m : string) (st : state) : state :=
  {| views := views st; dragging := dragging st; topId := topId st;
     statusMsg := m; isLoading := isLoading st;
     timer := timer st; sent := sent st; console := console st |}.

Definition setIsLoading (b : bool) (st : state) : state :=
  {| views := views st; dragging := dragging st; topId := topId st;
     statusMsg := statusMsg st; isLoading := b;
     timer := timer st; sent := sent st; console := console st |}.

Definition console_error (m : string) (st : state) : state :=
  {| views := views st; dragging := dragging st; topId := topId st;
     statusMsg := statusMsg st; isLoading := isLoading st;
     timer := timer st; sent := sent st; console := console st ++ [m] |}.

(** The loop of the load effect: [if (it && it.id) map[it.id] = { x:
    Number(it.x), ... }] over the rows, when [data] is an array. *)
Definition loaded (data : option (list (option SettingLayoutRow)))
  : gmap string Setting.view :=
  foldl (λ map it,
           match it with
           | Some it =>
               if truthy_str (id it)
               then <[id it := {| Setting.x := x it; Setting.y := y it;
                                  Setting.w := w it; Setting.h := h it |}]> map
               else map
           | None => map
           end)
    ∅ (default [] data).

(** The load effect, from the point where the query settles. *)
Definition load (res : response (list (option SettingLayoutRow))) (st : state) : state :=
  setIsLoading false
    match res with
    | Resolved data None => setViews (λ _, Some (loaded data)) st
    | Resolved _ (Some e) | Rejected e =>
        setStatusMsg ("[로드 실패] " ++ message_or_self e) (console_error (text e) st)
    end.

Section Arithmetic.

(** The rounding of an exact result to the nearest double, done by the
    engine after each operation. *)
Context (fl : Q → Q).

(** [onMouseDown] of the frame [i]. *)
Definition onMouseDown (i : string) (el : option canvas) (e : press) (st : state) : state :=
  let st := setTopId (Some i) st in
  if negb (button e =? 0)%Z then st
  else
    match el with
    | None => st
    | Some el =>
        let parentRect := rect el in
        let gripThreshold := 18%Q in
        let nearRight :=
          Qle_bool (fl (right (cardRect e) - Setting.clientX (pointer e))) gripThreshold in
        let nearBottom :=
          Qle_bool (fl (bottom (cardRect e) - Setting.clientY (pointer e))) gripThreshold in
        let isResizeGrip := nearRight && nearBottom in
        if isResizeGrip then st
        else
          setDragging
            (Some {| Setting.id := i;
                     Setting.offsetX := fl (Setting.clientX (pointer e) - left (cardRect e));
                     Setting.offsetY := fl (Setting.clientY (pointer e) - top (cardRect e));
                     Setting.canvasLeft := left parentRect;
                     Setting.canvasTop := top parentRect;
                     Setting.scrollLeft := scrollLeft el;
                     Setting.scrollTop := scrollTop el |})
            st
    end.

(** [onMove] and [onUp], with the updater of the drag. *)
Definition onMove (e : Setting.MouseEvent) (st : state) : state :=
  match dragging st with
  | None => st
  | Some d => setViews (Setting.moved fl d e) st
  end.

Definition onUp (st : state) : state := setDragging None st.

(** The updater of the [ResizeObserver] of frame [i], for a content box of
    [width] by [height]. *)
Definition resized (i : string) (width height : Q) (prev : gmap string Setting.view)
  : option (gmap string Setting.view) :=
  let cur :=
    default {| Setting.x := 0; Setting.y := 0; Setting.w := width; Setting.h := height |}
      (prev !! i) in
  let w := Setting.Math_round width in
  let h := Setting.Math_round height in
  if (Setting.Math_round (Setting.w cur) =? w)%Z && (Setting.Math_round (Setting.h cur) =? h)%Z
  then None
  else Some (<[i := {| Setting.x := Setting.x cur; Setting.y := Setting.y cur;
                       Setting.w := inject_Z w; Setting.h := inject_Z h |}]> prev).

Definition onResize (i : string) (width height : Q) (st : state) : state :=
  setViews (resized i width height) st.

(** [{ id, x: Math.round(v.x), y: Math.round(v.y), w: Math.round(v.w),
    h: Math.round(v.h) }] *)
Definition round_entry (entry : string * Setting.view) : rounded :=
  {| rid := entry.1;
     rx := Setting.Math_round (Setting.x entry.2);
     ry := Setting.Math_round (Setting.y entry.2);
     rw := Setting.Math_round (Setting.w entry.2);
     rh := Setting.Math_round (Setting.h entry.2) |}.

(** The answer to an [upsert]: an error is shown, nothing is rolled back. *)
Definition saved (res : response unit) (st : state) : state :=
  match res with
  | Resolved _ None => st
  | Resolved _ (Some error) =>
      setStatusMsg ("[저장 실패] " ++ message_or_self error) (console_error (text error) st)
  | Rejected e =>
      setStatusMsg ("[저장 예외] " ++ message_or_self e) (console_error (text e) st)
  end.

Section Save.

(** [Object.entries]: the entries of the object, in the order the engine
    enumerates its keys. *)
Context (Object_entries : gmap string Setting.view → list (string * Setting.view)).

(** What the timer of the save effect hands to [upsert] for the snapshot it
    holds: nothing for an empty mapping. *)
Definition payload (snapshot : gmap string Setting.view) : option (list rounded) :=
  let entries := Object_entries snapshot in
  if bool_decide (length entries = 0%nat) then None
  else Some (round_entry <$> entries).

(** The timer fires. *)
Definition flush (st : state) : state :=
  match timer st with
  | None => st
  | Some snapshot =>
      {| views := views st; dragging := dragging st; topId := topId st;
         statusMsg := statusMsg st; isLoading := isLoading st;
         timer := None;
         sent := match payload snapshot with
                 | Some p => sent st ++ [p]
                 | None => sent st
                 end;
         console := console st |}
  end.

Inductive event : Type :=
  | Loaded (res : response (list (option SettingLayoutRow)))
  | MouseDown (i : string) (el : option canvas) (e : press)
  | MouseMove (e : Setting.MouseEvent)
  | MouseUp
  | Resize (i : string) (width height : Q)
  | Tick
  | Saved (res : response unit).

Definition step (st : state) (ev : event) : state :=
  match ev with
  | Loaded res => load res st
  | MouseDown i el e => onMouseDown i el e st
  | MouseMove e => onMove e st
  | MouseUp => onUp st
  | Resize i width height => onResize i width height st
  | Tick => flush st
  | Saved res => saved res st
  end.

Definition run (evs : list event) (st : state) : state := foldl step st evs.

End Save.

End Arithmetic.

(** [zIndex: topId === id ? 1000 : 1] *)
Definition zIndex (st : state) (i : string) : Z :=
  if bool_decide (topId st = Some i) then 1000%Z else 1%Z.

(** An enumeration that lists every entry once, for the sample runs. *)
Definition entries_of (m : gmap string Setting.view) : list (string * Setting.view) :=
  map_to_list m.

(** The events of the pointer, the observers and the answers to a save, as
    opposed to the load and the timer. *)
Definition gesture (ev : event) : Prop :=
  match ev with
  | Loaded _ | Tick => False
  | _ => True
  end.

(** The box a row of the table stands for, and the row written for it. *)
Definition view_of (it : SettingLayoutRow) : Setting.view :=
  {| Setting.x := x it; Setting.y := y it; Setting.w := w it; Setting.h := h it |}.


(** The rows of [data] that the load loop takes. *)
Definition taken (data : option (list (option SettingLayoutRow))) : list SettingLayoutRow :=
  filter (λ it, truthy_str (id it) = true) (omap (λ it, it) (default [] data)).

(** Sample data: a canvas at (100, 50), a frame drawn at (10, 10) in it and
    pressed at (120, 70), and a table of two rows. *)
Definition sample_canvas : canvas :=
  {| rect := {| left := 100; top := 50; right := 1300; bottom := 850 |};
     scrollLeft := 0; scrollTop := 0 |}.

Definition sample_view : Setting.view :=
  {| Setting.x := 10; Setting.y := 10; Setting.w := 260; Setting.h := 180 |}.

Definition sample_press : press :=
  {| button := 0;
     pointer := {| Setting.clientX := 120; Setting.clientY := 70 |};
     cardRect := {| left := 110; top := 60; right := 370; bottom := 240 |} |}.

Definition sample_state : state :=
  {| views := {[ "frame-1" := sample_view ]}; dragging := None; topId := None;
     statusMsg := ""; isLoading := false; timer := None; sent := []; console := [] |}.

Definition sample_rows : list SettingLayoutRow :=
  [ {| id := "frame-1"; x := 10; y := 10; w := 260; h := 180 |};
    {| id := "frame-2"; x := 300 # 1; y := 21 # 2; w := 260; h := 180 |} ].

End Editor.

(** ** The cleanup handler as a whole (setting.tsx) *)

Module CleanupRun.

Import Cleanup.

(** A row of [currentdata] as [select('id')] returns it. *)
Record CurrentRow : Type := Current { id : jsval }.

(** The calls on the client, in the order they are awaited. *)
Inductive request : Type :=
  | select_currentdata
  | delete_currentdata (ids : list jsval)
  | select_lockeddata
  | delete_lockeddata (chunk : list string).

(** What the database answers: to the two selections, to the deletion from
    [currentdata], and to the deletion from [lockeddata] sent as the [n]-th
    batch. *)
Record answers : Type := Answers {
  currentIds : response (list CurrentRow);
  curDel : list jsval → response unit;
  lockedRows : response (list LockedRow);
  del : nat → list string → response unit;
}.

(** What a run leaves behind: the calls made, the messages given to
    [setStatusMsg] one after the other, and what went to the console. *)
Record outcome : Type := Outcome {
  sent : list request;
  statusMsg : list string;
  console : list string;
}.

(** The [data] of an answer that did not fail. *)
Definition data {A} (res : response A) : option A :=
  match res with
  | Resolved d _ => d
  | Rejected _ => None
  end.

(** [catch (e) { console.error(e); setStatusMsg(`[정리 실패] ...`) }] *)
Definition catch (log : list request) (e : thrown) : outcome :=
  {| sent := log;
     statusMsg := ["정리 중..."; "[정리 실패] " ++ message_or_self e];
     console := [text e] |}.

(** [`정리 완료: currentdata ${curIdList.length}건 삭제, lockeddata
    ${idsToDelete.length}건 삭제`] *)
Definition report (cur locked : nat) : string :=
  "정리 완료: currentdata " ++ pretty cur ++ "건 삭제, lockeddata " ++ pretty locked
  ++ "건 삭제".

(** The [for] loop over the batches, from batch [i] on: the deletions sent
    and the error thrown, if any. *)
Fixpoint delete_chunks (del : nat → list string → response unit) (i : nat)
    (chunks : list (list string)) : list request * option thrown :=
  match chunks with
  | [] => ([], None)
  | chunk :: rest =>
      match failure (del i chunk) with
      | Some delErr => ([delete_lockeddata chunk], Some delErr)
      | None =>
          let '(log, err) := delete_chunks del (S i) rest in
          (delete_lockeddata chunk :: log, err)
      end
  end.

Section Handler.

Context (Date_parse : string → Z).
Context (Object_values : list (string * list LockedRow) → list (list LockedRow)).

(** The TypeError the engine raises when [byNfc[key].push(row)] is called
    for an inherited key; its message is the engine's. *)
Context (not_a_function : thrown).

(** [(currentIds ?? []).map((r: any) => r.id).filter(Boolean)] *)
Definition curIdList (db : answers) : list jsval :=
  filter (λ v, truthy v = true) (id <$> default [] (data (currentIds db))).

Definition handleCleanup (db : answers) : outcome :=
  match failure (currentIds db) with
  | Some curSelErr => catch [select_currentdata] curSelErr
  | None =>
      let curIdList := curIdList db in
      let '(log1, thrown1) :=
        if bool_decide (0 < length curIdList)%nat
        then ([select_currentdata; delete_currentdata curIdList],
              failure (curDel db curIdList))
        else ([select_currentdata], None) in
      match thrown1 with
      | Some curDelErr => catch log1 curDelErr
      | None =>
          let log2 := (log1 ++ [select_lockeddata])%list in
          match failure (lockedRows db) with
          | Some lockedSelErr => catch log2 lockedSelErr
          | None =>
              match idsToDelete Date_parse Object_values (data (lockedRows db)) with
              | None => catch log2 not_a_function
              | Some idsToDelete =>
                  let '(log3, thrown3) :=
                    if bool_decide (0 < length idsToDelete)%nat
                    then delete_chunks (del db) 0
                           (chunks_of (length idsToDelete) 500 idsToDelete)
                    else ([], None) in
                  match thrown3 with
                  | Some delErr => catch (log2 ++ log3)%list delErr
                  | None =>
                      {| sent := (log2 ++ log3)%list;
                         statusMsg :=
                           ["정리 중...";
                            report (length curIdList) (length idsToDelete)];
                         console := [] |}
                  end
              end
          end
      end
  end.

(** The calls a run makes when none fails: the deletions from [lockeddata]
    are those of the marked ids, none when the grouping throws. *)
Definition plan (db : answers) : list request :=
  ([select_currentdata]
   ++ (if bool_decide (0 < length (curIdList db))%nat
       then [delete_currentdata (curIdList db)] else [])
   ++ [select_lockeddata]
   ++ (delete_lockeddata
       <$> default [] (requests Date_parse Object_values (data (lockedRows db)))))%list.

End Handler.

(** The error, if any, that each call of a log is answered with, the
    deletions from [lockeddata] being numbered from [n] on. *)
Fixpoint answers_of (db : answers) (n : nat) (log : list request) : list (option thrown) :=
  match log with
  | [] => []
  | select_currentdata :: log' => failure (currentIds db) :: answers_of db n log'
  | delete_currentdata ids :: log' => failure (curDel db ids) :: answers_of db n log'
  | select_lockeddata :: log' => failure (lockedRows db) :: answers_of db n log'
  | delete_lockeddata chunk :: log' => failure (del db n chunk) :: answers_of db (S n) log'
  end.

(** The requests of a kind among those sent. *)
Definition locked_deletions (log : list request) : list (list string) :=
  omap (λ q, match q with delete_lockeddata chunk => Some chunk | _ => None end) log.

Definition current_deletions (log : list request) : list (list jsval) :=
  omap (λ q, match q with delete_currentdata ids => Some ids | _ => None end) log.

(** The message a run ends with. *)
Definition final (o : outcome) : option string := last (statusMsg o).

(** A database that answers every call without an error, given the two
    tables; one whose deletions from [lockeddata] fail from batch [n] on. *)
Definition healthy (cur : list CurrentRow) (locked : list LockedRow) : answers :=
  {| currentIds := Resolved (Some cur) None;
     curDel := λ _, Resolved None None;
     lockedRows := Resolved (Some locked) None;
     del := λ _ _, Resolved None None |}.

Definition failing_from (n : nat) (e : thrown) (cur : list CurrentRow)
    (locked : list LockedRow) : answers :=
  {| currentIds := Resolved (Some cur) None;
     curDel := λ _, Resolved None None;
     lockedRows := Resolved (Some locked) None;
     del := λ i _, if bool_decide (n ≤ i)%nat then Resolved None (Some e)
                   else Resolved None None |}.

Definition sample_current : list CurrentRow :=
  [Current (JNum 4); Current JNull; Current (JStr "c-9")].

End CleanupRun.


(** ** The router (main.tsx) *)

Module Router.

(** [window.location]: the two parts the router reads.  Both are
    percent-encoded by the browser, so a character is one code unit. *)
Record location : Type := Location { hash : string; pathname : string }.

(** [s.startsWith(p)] *)
Definition startsWith (s p : string) : bool := String.prefix p s.

(** [s.slice(start)]: from [start] on, counted from the end when negative. *)
Fixpoint drop (n : nat) (s : string) : string :=
  match n, s with
  | O, _ => s
  | S n', String _ s' => drop n' s'
  | S _, EmptyString => EmptyString
  end.

Definition slice (s : string) (start : Z) : string :=
  let len := Z.of_nat (String.length s) in
  let from := if (start <? 0)%Z then Z.max (len + start) 0 else Z.min start len in
  drop (Z.to_nat from) s.

(** [rawHash.replace(/^#/, '')] *)
Definition replace_leading_hash (rawHash : string) : string :=
  match rawHash with
  | String "#" h => h
  | _ => rawHash
  end.

(** [getRoute()], for the [BASE_URL] of the build, if it has one. *)
Definition getRoute (BASE_URL : option string) (loc : location) : string :=
  let rawHash := hash loc in
  let h := replace_leading_hash rawHash in
  if truthy_str rawHash && startsWith h "/" then h
  else if truthy_str rawHash && (0 <? String.length h)%nat then "/" ++ h
  else
    let base := default "/" BASE_URL in
    let path := pathname loc in
    let path :=
      if negb (bool_decide (base = "/")) && startsWith path base
      then slice path (Z.of_nat (String.length base) - 1)
      else path in
    if truthy_str path then path else "/".

(** What [RootRouter] renders for the route it holds. *)
Inductive page : Type := SettingPage | App.

Definition RootRouter (route : string) : page :=
  if bool_decide (route = "/setting") then SettingPage else App.

(** The first revision reads the path alone. *)
Definition RootRouter1 (loc : location) : page :=
  if bool_decide (pathname loc = "/setting") then SettingPage else App.

(** The router after [popstate] or [hashchange] at a location. *)
Definition shown (BASE_URL : option string) (loc : location) : page :=
  RootRouter (getRoute BASE_URL loc).

End Router.


(** ** The editor of twenty fixed frames (setting.tsx, first revision) *)

Module Editor20.

Import Editor.

(** [Array.from({ length: 20 }, (_, i) => `frame-${i + 1}`)] *)
Definition FRAME_IDS : list string :=
  (λ i : nat, "frame-" ++ pretty (i + 1)%nat) <$> seq 0 20.

(** [defaultLayout(index)]: a cell of a grid of four columns. *)
Definition defaultLayout (index : Z) : Setting.view :=
  let baseW := 260%Z in
  let baseH := 180%Z in
  let margin := 16%Z in
  let cols := 4%Z in
  let col := Z.rem index cols in
  let row := (index / cols)%Z in
  {| Setting.x := inject_Z (col * (baseW + margin));
     Setting.y := inject_Z (row * (baseH + margin));
     Setting.w := inject_Z baseW;
     Setting.h := inject_Z baseH |}.

(** [FRAME_IDS.forEach((id, idx) => { next[id] = map[id] ?? defaultLayout(idx) })],
    from index [idx] on. *)
Fixpoint fill (idx : nat) (ids : list string) (map next : gmap string Setting.view)
  : gmap string Setting.view :=
  match ids with
  | [] => next
  | id :: ids' =>
      fill (S idx) ids' map
        (<[id := default (defaultLayout (Z.of_nat idx)) (map !! id)]> next)
  end.

(** The mapping the load effect stores: the rows are read only when the
    query answers without an error; a query that is rejected stores
    nothing. *)
Definition loaded (res : response (list (option SettingLayoutRow)))
  : option (gmap string Setting.view) :=
  match res with
  | Resolved data None => Some (fill 0 FRAME_IDS (Editor.loaded data) ∅)
  | Resolved _ (Some _) => Some (fill 0 FRAME_IDS ∅ ∅)
  | Rejected _ => None
  end.

Definition load (res : response (list (option SettingLayoutRow)))
    (views : gmap string Setting.view) : gmap string Setting.view :=
  default views (loaded res).

(** [const v = views[id] ?? defaultLayout(idx)]: the box a frame is drawn
    with. *)
Definition drawn (views : gmap string Setting.view) (idx : nat) (id : string)
  : Setting.view :=
  default (defaultLayout (Z.of_nat idx)) (views !! id).

(** [id.split('-')] *)
Fixpoint split_go (cur s : string) : list string :=
  match s with
  | EmptyString => [String.rev cur]
  | String c s' =>
      if bool_decide (c = "-"%char) then String.rev cur :: split_go "" s'
      else split_go (String c cur) s'
  end.

Definition split (s : string) : list string := split_go "" s.

(** [Number(s)] for a string of decimal digits, which is all it is applied
    to here; [None] stands for every other argument. *)
Fixpoint digits (acc : Z) (s : string) : option Z :=
  match s with
  | EmptyString => Some acc
  | String c s' =>
      match Ascii.is_nat c with
      | Some d => digits (10 * acc + Z.of_nat d) s'
      | None => None
      end
  end.

Definition Number (s : option string) : option Z :=
  match s with
  | Some (String c s') => digits 0 (String c s')
  | _ => None
  end.

(** One record of the payload:
    [const v = views[id] ?? defaultLayout(Number(id.split('-')[1]) - 1)]. *)
Definition payload_entry (views : gmap string Setting.view) (id : string)
  : option rounded :=
  match views !! id with
  | Some v => Some (round_entry (id, v))
  | None =>
      match Number (split id !! 1%nat) with
      | Some n => Some (round_entry (id, defaultLayout (n - 1)))
      | None => None
      end
  end.

(** [FRAME_IDS.map(...)], the rows handed to [upsert]. *)
Definition payload (views : gmap string Setting.view) : option (list rounded) :=
  mapM (payload_entry views) FRAME_IDS.

(** A table with a row for a frame, one for no frame, and one without id. *)
Definition sample_table : list (option SettingLayoutRow) :=
  [ Some {| id := "frame-3"; x := 40; y := 30; w := 300; h := 200 |};
    Some {| id := "frame-21"; x := 0; y := 0; w := 10; h := 10 |};
    None;
    Some {| id := ""; x := 1; y := 1; w := 1; h := 1 |} ].

End Editor20.


(** ** The frames of the gallery (App.tsx, [loadFrames]) *)

Module Frames.

Import Slots.

(** A Number that [parseInt] returns: NaN, a whole number that is a double,
    or an infinity.  The sign of a zero is not kept; nothing here reads
    it. *)
Inductive number : Type :=
  | NaN
  | Finite (z : Z)
  | Infinity (negative : bool).

(** The first power of two no double reaches. *)
Definition huge : Z := 2 ^ 1024.

(** The Number for a whole number: the nearest double, a tie going to the
    even one, and an infinity when that is [2^1024]. *)
Definition Number_of_Z (z : Z) : number :=
  let r := Double.keep53 (Z.abs z) in
  if (huge <=? r)%Z then Infinity (z <? 0)%Z else Finite (Z.sgn z * r)%Z.

(** [parseInt(s, 10)]: white space is skipped, a sign is read, then the
    digits up to the first character that is none; the result is the Number
    for the value of those digits, NaN when there is none.  White space is
    that of the ASCII range.  Every digit is read, as the engines do; for
    more than 20 significant digits the standard also allows an engine to
    read the later ones as 0. *)
Fixpoint trim_start (s : string) : string :=
  match s with
  | String c s' => if Ascii.is_space c then trim_start s' else s
  | EmptyString => EmptyString
  end.

Fixpoint leading_digits (acc : option Z) (s : string) : option Z :=
  match s with
  | String c s' =>
      match Ascii.is_nat c with
      | Some d => leading_digits (Some (10 * default 0 acc + Z.of_nat d)%Z) s'
      | None => acc
      end
  | EmptyString => acc
  end.

Definition parseInt (s : string) : number :=
  let read (digits : option Z) := from_option Number_of_Z NaN digits in
  match trim_start s with
  | String "-" s' => read (Z.opp <$> leading_digits None s')
  | String "+" s' => read (leading_digits None s')
  | s' => read (leading_digits None s')
  end.

(** [parseInt(id.split('-')[1] || '0', 10)] *)
Definition number_of (id : string) : number :=
  let part := default "" (Editor20.split id !! 1%nat) in
  parseInt (if truthy_str part then part else "0").

(** [na - nb] on such Numbers: the difference of two doubles is rounded, and
    an infinity less itself is NaN. *)
Definition minus (na nb : number) : number :=
  match na, nb with
  | NaN, _ | _, NaN => NaN
  | Finite x, Finite y => Number_of_Z (x - y)
  | Finite _, Infinity s => Infinity (negb s)
  | Infinity s, Finite _ => Infinity s
  | Infinity s, Infinity s' => if bool_decide (s = s') then NaN else Infinity s
  end.

(** Where a Number stands among the whole numbers: an infinity past every
    double, and NaN at 0, which is how a sort reads a comparator's NaN. *)
Definition value (n : number) : Z :=
  match n with
  | NaN => 0
  | Finite z => z
  | Infinity negative => if negative then - huge else huge
  end.

(** The Numbers within the range of the doubles. *)
Definition within (n : number) : Prop :=
  match n with Finite r => (Z.abs r < huge)%Z | _ => True end.

(** The comparator [(a, b) => na - nb]. *)
Definition by_number (a b : FrameLayout) : Z :=
  value (minus (number_of (id a)) (number_of (id b))).

(** What [loadFrames] hands to [setFrames]. *)
Definition loadFrames (res : response (list FrameLayout)) : list FrameLayout :=
  match res with
  | Resolved data None => take 16 (Cleanup.Array_sort by_number (default [] data))
  | Resolved _ (Some _) | Rejected _ => []
  end.

(** The table the editor of twenty frames writes, with its rows in the order
    the database happens to return them. *)
Definition sample_frames : list FrameLayout :=
  (λ i : nat, {| id := "frame-" ++ pretty i; x := inject_Z (Z.of_nat i); y := 0;
                 w := 100; h := 100 |})
  <$> [10; 2; 20; 1; 11; 3; 19; 4; 12; 5; 18; 6; 13; 7; 17; 8; 14; 9; 16; 15]%nat.

(** Frames whose ids carry numbers too long for a double to tell apart. *)
Definition long_frames : list FrameLayout :=
  (λ i : string, {| id := i; x := 0; y := 0; w := 100; h := 100 |})
  <$> ["frame-12345678901234567891"; "frame-12345678901234567890"; "frame-2"].

End Frames.


(** * Properties *)

(** ** Identifiers under the three updaters *)

Section RowFacts.

Implicit Types (r newRow updated deleted : UnlockedRow) (prev : list UnlockedRow).

Lemma ids_cleaned data :
  ids (cleaned data) = ids (filter (λ r, truthy (image_url r) = true) (default [] data)).
Proof.
  unfold ids, cleaned. rewrite <- list_fmap_compose. now apply list_fmap_ext.
Qed.

Lemma ids_filter_sublist (P : UnlockedRow → Prop) `{!∀ r, Decision (P r)} prev :
  ids (filter P prev) `sublist_of` ids prev.
Proof. unfold ids. apply fmap_sublist, sublist_filter. Qed.

Lemma NoDup_ids_filter (P : UnlockedRow → Prop) `{!∀ r, Decision (P r)} prev :
  NoDup (ids prev) → NoDup (ids (filter P prev)).
Proof. intros Hnd. eapply sublist_NoDup; [exact Hnd | apply ids_filter_sublist]. Qed.

Lemma NoDup_ids_take n prev : NoDup (ids prev) → NoDup (ids (take n prev)).
Proof.
  intros Hnd. eapply sublist_NoDup; [exact Hnd |].
  unfold ids. apply fmap_sublist, sublist_take.
Qed.

Lemma NoDup_ids_cleaned data :
  NoDup (ids (default [] data)) → NoDup (ids (cleaned data)).
Proof. rewrite ids_cleaned. apply NoDup_ids_filter. Qed.

Lemma id_not_in_withoutDup prev newRow : id newRow ∉ ids (withoutDup prev newRow).
Proof.
  unfold ids, withoutDup. intros (r & Hid & Hr)%list_elem_of_fmap.
  apply list_elem_of_filter in Hr as [Hne _]. congruence.
Qed.

Lemma NoDup_ids_prepend prev newRow :
  NoDup (ids prev) → NoDup (ids (newRow :: withoutDup prev newRow)).
Proof.
  intros Hnd. unfold ids. rewrite fmap_cons. apply NoDup_cons. split.
  - apply id_not_in_withoutDup.
  - now apply NoDup_ids_filter.
Qed.

Lemma id_spread r updated : id r = id updated → id (spread r updated) = id r.
Proof. intros Heq. now rewrite Heq. Qed.

Lemma ids_onUpdate updated prev : ids (onUpdate updated prev) = ids prev.
Proof.
  unfold ids, onUpdate. rewrite <- list_fmap_compose. apply list_fmap_ext.
  intros _ r _. simpl. case_bool_decide; [now apply id_spread | done].
Qed.

Lemma onUpdate_lookup updated prev (i : nat) :
  onUpdate updated prev !! i
  = (λ r, if bool_decide (id r = id updated) then spread r updated else r) <$> prev !! i.
Proof. unfold onUpdate. apply list_lookup_fmap. Qed.

Lemma onUpdate_unknown updated prev :
  id updated ∉ ids prev → onUpdate updated prev = prev.
Proof.
  intros Hnot. unfold onUpdate.
  rewrite <- (list_fmap_id prev) at 2. apply list_fmap_ext.
  intros i r Hr. case_bool_decide as Heq; [| done].
  exfalso. apply Hnot. rewrite <- Heq.
  apply list_elem_of_fmap_2. eapply list_elem_of_lookup_2, Hr.
Qed.

End RowFacts.

(** ** The collection never holds two records with one id *)

Section Distinct.

Lemma onInsert_NoDup newRow prev :
  NoDup (ids prev) → NoDup (ids (Gallery.onInsert newRow prev)).
Proof.
  intros Hnd. unfold Gallery.onInsert. destruct newRow as [r|]; [| done].
  destruct (insert_guard (Some r)); [done |]. now apply NoDup_ids_prepend.
Qed.

Lemma onInsert16_NoDup newRow prev :
  NoDup (ids prev) → NoDup (ids (Gallery16.onInsert newRow prev)).
Proof.
  intros Hnd. unfold Gallery16.onInsert. destruct newRow as [r|]; [| done].
  destruct (insert_guard (Some r)); [done |].
  now apply NoDup_ids_take, NoDup_ids_prepend.
Qed.

Lemma onUpdate_NoDup updated prev :
  NoDup (ids prev) → NoDup (ids (onUpdate updated prev)).
Proof. now rewrite ids_onUpdate. Qed.

Lemma onDelete_NoDup deleted prev :
  NoDup (ids prev) → NoDup (ids (onDelete deleted prev)).
Proof. apply NoDup_ids_filter. Qed.

Lemma step_NoDup st ev :
  Gallery.well_keyed ev →
  NoDup (ids (Gallery.rows st)) → NoDup (ids (Gallery.rows (Gallery.step st ev))).
Proof.
  intros Hev Hnd. destruct ev as [res | newRow | updated | deleted]; simpl.
  - destruct res as [data [e|] | e]; simpl; try done.
    apply NoDup_ids_cleaned. destruct data as [data|]; simpl; [done | constructor].
  - now apply onInsert_NoDup.
  - now apply onUpdate_NoDup.
  - now apply onDelete_NoDup.
Qed.

Lemma handleDelete_settle_rows row res st :
  Gallery16.rows (Gallery16.handleDelete_settle row res st)
  = match res with
    | Resolved _ None => filter (λ r, id r ≠ id row) (Gallery16.rows st)
    | _ => Gallery16.rows st
    end.
Proof. now destruct res as [data [e|] | e]. Qed.

Lemma handleDelete_begin_rows row st st' :
  Gallery16.handleDelete_begin row st = Some st' → Gallery16.rows st' = Gallery16.rows st.
Proof.
  unfold Gallery16.handleDelete_begin. destruct (truthy_str (id row)); [| done].
  now intros [= <-].
Qed.

Lemma step16_NoDup st ev :
  Gallery16.well_keyed ev →
  NoDup (ids (Gallery16.rows st)) → NoDup (ids (Gallery16.rows (Gallery16.step st ev))).
Proof.
  intros Hev Hnd.
  destruct ev as [res | newRow | updated | deleted | row | row res | a];
    cbn [Gallery16.step].
  - destruct res as [data [e|] | e]; simpl; try done.
    apply NoDup_ids_take, NoDup_ids_cleaned.
    destruct data as [data|]; simpl; [done | constructor].
  - now apply onInsert16_NoDup.
  - now apply onUpdate_NoDup.
  - now apply onDelete_NoDup.
  - destruct (Gallery16.handleDelete_begin row st) as [st'|] eqn:Hb; simpl; [| done].
    now rewrite (handleDelete_begin_rows _ _ _ Hb).
  - rewrite handleDelete_settle_rows.
    destruct res as [data [e|] | e]; try done. now apply NoDup_ids_filter.
  - now destruct a.
Qed.

Lemma run_NoDup evs st :
  Forall Gallery.well_keyed evs →
  NoDup (ids (Gallery.rows st)) → NoDup (ids (Gallery.rows (Gallery.run evs st))).
Proof.
  intros Hevs. revert st. unfold Gallery.run.
  induction Hevs as [| ev evs Hev _ IH]; intros st Hnd; simpl; [done |].
  now apply IH, step_NoDup.
Qed.

Lemma run16_NoDup evs st :
  Forall Gallery16.well_keyed evs →
  NoDup (ids (Gallery16.rows st)) → NoDup (ids (Gallery16.rows (Gallery16.run evs st))).
Proof.
  intros Hevs. revert st. unfold Gallery16.run.
  induction Hevs as [| ev evs Hev _ IH]; intros st Hnd; simpl; [done |].
  now apply IH, step16_NoDup.
Qed.

(** C1. Whatever insert, update and delete events reach the gallery, in
    whatever order around bulk loads that return pairwise distinct ids, no two
    records of the collection share an id.  This holds for the unbounded
    gallery and for the one bounded to 16 slots, where the two halves of a
    local delete and the status timer may come in between as well. *)
Theorem collection_ids_distinct :
  (∀ evs, Forall Gallery.well_keyed evs →
     NoDup (ids (Gallery.rows (Gallery.run evs Gallery.initial))))
  ∧ (∀ evs, Forall Gallery16.well_keyed evs →
       NoDup (ids (Gallery16.rows (Gallery16.run evs Gallery16.initial)))).
Proof.
  split; intros evs Hevs.
  - apply run_NoDup; [done | constructor].
  - apply run16_NoDup; [done | constructor].
Qed.

Lemma collection_ids_distinct_witness :
  (Forall Gallery.well_keyed Sample.feed
   ∧ NoDup (ids (Gallery.rows (Gallery.run Sample.feed Gallery.initial))))
  ∧ (Forall Gallery16.well_keyed Sample.feed16
     ∧ NoDup (ids (Gallery16.rows (Gallery16.run Sample.feed16 Gallery16.initial)))).
Proof.
  assert (H : Forall Gallery.well_keyed Sample.feed).
  { repeat (apply Forall_cons; split); try apply Forall_nil; simpl; try exact I.
    refine (bool_decide_unpack _ _). vm_compute. exact I. }
  assert (H16 : Forall Gallery16.well_keyed Sample.feed16).
  { repeat (apply Forall_cons; split); try apply Forall_nil; simpl; try exact I.
    refine (bool_decide_unpack _ _). vm_compute. exact I. }
  split; (split; [assumption |]).
  - exact (proj1 collection_ids_distinct Sample.feed H).
  - exact (proj2 collection_ids_distinct Sample.feed16 H16).
Defined.

End Distinct.

(** ** Upsert and truncation in the bounded gallery *)

Section Bounded.

Implicit Types (r : UnlockedRow) (prev news : list UnlockedRow).

Lemma filter_all {A} (P : A → Prop) `{!∀ x, Decision (P x)} (l : list A) :
  Forall P l → filter P l = l.
Proof.
  induction 1 as [| x l Hx _ IH]; [done |].
  rewrite filter_cons_True by done. now rewrite IH.
Qed.

Lemma insert_guard_has_image r : has_image r → insert_guard (Some r) = false.
Proof. unfold has_image, insert_guard. simpl. now intros ->. Qed.

Lemma onInsert16_has_image r prev :
  has_image r → Gallery16.onInsert (Some r) prev = take 16 (r :: withoutDup prev r).
Proof.
  intros Hr. unfold Gallery16.onInsert. now rewrite insert_guard_has_image.
Qed.

Lemma onInsert16_length newRow prev :
  (length prev ≤ 16)%nat → (length (Gallery16.onInsert newRow prev) ≤ 16)%nat.
Proof.
  intros Hlen. unfold Gallery16.onInsert. destruct newRow as [r|]; [| done].
  destruct (insert_guard (Some r)); [done |]. rewrite length_take. lia.
Qed.

Lemma inserts_snoc news r prev :
  Gallery16.inserts (news ++ [r]) prev
  = Gallery16.onInsert (Some r) (Gallery16.inserts news prev).
Proof. unfold Gallery16.inserts. now rewrite foldl_snoc. Qed.

(** Rows other than [r] by id pass the filter of [withoutDup]. *)
Lemma withoutDup_fresh l r :
  id r ∉ ids l → withoutDup l r = l.
Proof.
  intros Hnot. unfold withoutDup. apply filter_all, Forall_forall.
  intros r' Hr' Heq. apply Hnot. rewrite <- Heq. now apply list_elem_of_fmap_2.
Qed.

(** The newest rows of a burst sit at the front, newest first. *)
Lemma inserts_front news prev :
  news ≠ [] → NoDup (ids news) → Forall has_image news →
  ∃ rest, Gallery16.inserts news prev = take 16 (reverse news ++ rest).
Proof.
  induction news as [| r news IH] using rev_ind; intros Hne Hnd Himg; [done |].
  apply Forall_app in Himg as [Himg Hr]. rewrite Forall_singleton in Hr.
  rewrite inserts_snoc, reverse_snoc. rewrite onInsert16_has_image by exact Hr.
  destruct (decide (news = [])) as [-> | Hnews].
  { exists (withoutDup prev r). reflexivity. }
  unfold ids in Hnd. rewrite fmap_app in Hnd.
  apply NoDup_app in Hnd as (Hnd & Hfresh & _).
  destruct (IH Hnews Hnd Himg) as [rest ->].
  assert (Hr' : id r ∉ ids (reverse news)).
  { unfold ids. rewrite fmap_reverse, elem_of_reverse. intros Hin.
    apply (Hfresh _ Hin). simpl. apply list_elem_of_here. }
  destruct (decide (16 ≤ length news)%nat) as [Hlen | Hlen].
  - exists []. rewrite app_nil_r.
    rewrite take_app_le by (rewrite length_reverse; lia).
    rewrite withoutDup_fresh.
    + simpl. now rewrite take_take.
    + intros Hin. apply Hr'. unfold ids in *.
      rewrite fmap_take in Hin. eapply subseteq_take, Hin.
  - exists (withoutDup (take (16 - length news) rest) r).
    rewrite take_app_ge by (rewrite length_reverse; lia).
    rewrite length_reverse. unfold withoutDup at 1. rewrite filter_app.
    fold (withoutDup (reverse news) r). rewrite withoutDup_fresh by done.
    reflexivity.
Qed.

Lemma inserts_full news prev :
  NoDup (ids news) → Forall has_image news → (16 ≤ length news)%nat →
  Gallery16.inserts news prev = reverse (drop (length news - 16) news).
Proof.
  intros Hnd Himg Hlen.
  destruct (inserts_front news prev) as [rest ->]; [| done | done |].
  { intros ->. simpl in Hlen. lia. }
  rewrite take_app_le by (rewrite length_reverse; lia).
  apply take_reverse.
Qed.

(** C2. In the gallery bounded to 16 slots, a live insert of a row that
    carries an image removes every record with the same id, puts the new row
    in front and cuts the list to its first 16 entries.  Hence after more than
    16 inserts of distinct ids the collection has size 16 and holds exactly
    the 16 rows inserted last, newest first. *)
Theorem insert_upserts_and_truncates :
  (∀ r prev, has_image r →
     Gallery16.onInsert (Some r) prev
     = take 16 (r :: filter (λ r', id r' ≠ id r) prev)
     ∧ head (Gallery16.onInsert (Some r) prev) = Some r
     ∧ (∀ r', r' ∈ tail (Gallery16.onInsert (Some r) prev) → id r' ≠ id r ∧ r' ∈ prev))
  ∧ (∀ news prev,
       NoDup (ids news) → Forall has_image news → (16 < length news)%nat →
       length (Gallery16.inserts news prev) = 16%nat
       ∧ Gallery16.inserts news prev = reverse (drop (length news - 16) news)
       ∧ ids (Gallery16.inserts news prev) = reverse (drop (length news - 16) (ids news))).
Proof.
  split.
  - intros r prev Hr. rewrite onInsert16_has_image by done.
    split; [done |]. split; [done |]. simpl. intros r' Hr'.
    apply subseteq_take in Hr'. now apply list_elem_of_filter in Hr'.
  - intros news prev Hnd Himg Hlen.
    rewrite inserts_full by (done || lia).
    rewrite length_reverse, length_drop. split; [lia |]. split; [done |].
    unfold ids. now rewrite fmap_reverse, fmap_drop.
Qed.

Lemma insert_upserts_and_truncates_witness :
  (has_image Sample.owl
   ∧ Gallery16.onInsert (Some Sample.owl) [Sample.cat; Sample.owl; Sample.dog]
     = take 16 (Sample.owl
                :: filter (λ r', id r' ≠ id Sample.owl) [Sample.cat; Sample.owl; Sample.dog]))
  ∧ (NoDup (ids Sample.burst) ∧ Forall has_image Sample.burst
     ∧ (16 < length Sample.burst)%nat
     ∧ length (Gallery16.inserts Sample.burst [Sample.cat]) = 16%nat).
Proof.
  assert (Himg : has_image Sample.owl) by reflexivity.
  assert (Hnd : NoDup (ids Sample.burst)).
  { refine (bool_decide_unpack _ _). vm_compute. exact I. }
  assert (Hall : Forall has_image Sample.burst).
  { repeat (apply Forall_cons; split); try apply Forall_nil; reflexivity. }
  assert (Hlen : (16 < length Sample.burst)%nat) by (simpl; lia).
  split.
  - split; [exact Himg |].
    exact (proj1 (proj1 insert_upserts_and_truncates Sample.owl
                    [Sample.cat; Sample.owl; Sample.dog] Himg)).
  - split; [exact Hnd |]. split; [exact Hall |]. split; [exact Hlen |].
    exact (proj1 (proj2 insert_upserts_and_truncates Sample.burst [Sample.cat]
                    Hnd Hall Hlen)).
Defined.

End Bounded.

(** ** Live updates *)

Section Updates.

Implicit Types (r updated : UnlockedRow) (prev : list UnlockedRow).

(** C6. A live update whose id matches no record leaves the collection as it
    is; in any case the list keeps its length and its ids, position by
    position, so the updated row is never inserted.  A record with the id of
    the event is replaced, where it stands, by the record with the event's
    fields written over its own; every other record stays.  Both revisions of
    the gallery run this handler. *)
Theorem update_merges_in_place updated prev :
  (id updated ∉ ids prev → onUpdate updated prev = prev)
  ∧ length (onUpdate updated prev) = length prev
  ∧ ids (onUpdate updated prev) = ids prev
  ∧ (∀ (i : nat) r, prev !! i = Some r →
       onUpdate updated prev !! i
       = Some (if bool_decide (id r = id updated) then spread r updated else r))
  ∧ (∀ r, image_url (spread r updated) = image_url updated
          ∧ created_at (spread r updated)
            = match created_at updated with
              | Some v => Some v
              | None => created_at r
              end)
  ∧ (∀ st, Gallery.rows (Gallery.step st (Gallery.Update updated))
           = onUpdate updated (Gallery.rows st))
  ∧ (∀ st, Gallery16.rows (Gallery16.step st (Gallery16.Update updated))
           = onUpdate updated (Gallery16.rows st)).
Proof.
  split; [apply onUpdate_unknown |].
  split; [unfold onUpdate; apply length_fmap |].
  split; [apply ids_onUpdate |].
  split; [| done].
  intros i r Hr. now rewrite onUpdate_lookup, Hr.
Qed.

Lemma update_merges_in_place_witness :
  (id Sample.cat_null ∉ ids [Sample.dog; Sample.owl])
  ∧ onUpdate Sample.cat_null [Sample.dog; Sample.owl] = [Sample.dog; Sample.owl]
  ∧ ([Sample.dog; Sample.cat] !! 1%nat = Some Sample.cat
     ∧ onUpdate Sample.cat_null [Sample.dog; Sample.cat] !! 1%nat
       = Some (spread Sample.cat Sample.cat_null)).
Proof.
  assert (Hnot : id Sample.cat_null ∉ ids [Sample.dog; Sample.owl]).
  { refine (bool_decide_unpack _ _). vm_compute. exact I. }
  split; [exact Hnot |]. split.
  - exact (proj1 (update_merges_in_place Sample.cat_null [Sample.dog; Sample.owl]) Hnot).
  - split; [reflexivity |].
    exact (proj1 (proj2 (proj2 (proj2
             (update_merges_in_place Sample.cat_null [Sample.dog; Sample.cat]))))
             1%nat Sample.cat eq_refl).
Defined.

End Updates.

(** ** Rows without an image *)

Section Images.

Implicit Types (r updated : UnlockedRow) (prev : list UnlockedRow) (v : jsval).

Lemma absent_falsy v : absent v = true → truthy v = false.
Proof. now destruct v. Qed.

Lemma truthy_there v : truthy v = true → absent v = false.
Proof. now destruct v. Qed.

Lemma falsy_values v :
  truthy v = false ↔ v ∈ [JUndefined; JNull; JBool false; JNum 0; JNaN; JStr ""].
Proof.
  split.
  - destruct v as [| | [] | n | | s]; simpl; intros Hv; try done;
      try (repeat constructor; fail).
    + apply negb_false_iff, Z.eqb_eq in Hv as ->. repeat constructor.
    + apply negb_false_iff, bool_decide_eq_true in Hv as ->. repeat constructor.
  - intros Hin. repeat (apply elem_of_cons in Hin as [-> | Hin]; [done |]).
    now apply elem_of_nil in Hin.
Qed.

Lemma onInsert_falsy newRow prev :
  truthy (default JUndefined (image_url <$> newRow)) = false →
  Gallery.onInsert newRow prev = prev ∧ Gallery16.onInsert newRow prev = prev.
Proof.
  intros Hv. unfold Gallery.onInsert, Gallery16.onInsert, insert_guard.
  rewrite Hv. now destruct newRow.
Qed.

Lemma cleaned_spec data r :
  r ∈ cleaned data ↔
  ∃ r0, r0 ∈ default [] data ∧ has_image r0
        ∧ r = {| id := id r0; image_url := image_url r0;
                 created_at := Some (nullish (default JUndefined (created_at r0)) JNull) |}.
Proof.
  unfold cleaned. rewrite list_elem_of_fmap. split.
  - intros (r0 & -> & [Himg Hin]%list_elem_of_filter). now exists r0.
  - intros (r0 & Hin & Himg & ->). exists r0. split; [done |].
    now apply list_elem_of_filter.
Qed.

Lemma cleaned_has_image data : Forall has_image (cleaned data).
Proof.
  apply Forall_forall. intros r (r0 & _ & Himg & ->)%cleaned_spec. exact Himg.
Qed.

(** Any property of [image_url] that holds of the values counting as true is
    kept by every event, as long as the UPDATE payloads have it. *)
Section Invariant.

Context (q : jsval → Prop) (Hq : ∀ v, truthy v = true → q v).

Let good (r : UnlockedRow) : Prop := q (image_url r).

Lemma cleaned_good data : Forall good (cleaned data).
Proof. eapply Forall_impl; [apply cleaned_has_image |]. intros r. apply Hq. Qed.

Lemma filter_good (P : UnlockedRow → Prop) `{!∀ r, Decision (P r)} prev :
  Forall good prev → Forall good (filter P prev).
Proof.
  rewrite !Forall_forall. intros Hall r [_ Hr]%list_elem_of_filter. now apply Hall.
Qed.

Lemma onInsert_good newRow prev :
  Forall good prev →
  Forall good (Gallery.onInsert newRow prev) ∧ Forall good (Gallery16.onInsert newRow prev).
Proof.
  intros Hprev. unfold Gallery.onInsert, Gallery16.onInsert, insert_guard.
  destruct newRow as [r|]; [| done]. cbn -[take withoutDup].
  destruct (truthy (image_url r)) eqn:Hr; cbn -[take withoutDup]; [| done].
  assert (Forall good (r :: withoutDup prev r)).
  { constructor; [now apply Hq | now apply filter_good]. }
  split; [done | now apply Forall_take].
Qed.

Lemma onUpdate_good updated prev :
  good updated → Forall good prev → Forall good (onUpdate updated prev).
Proof.
  intros Hu Hprev. unfold onUpdate. apply Forall_fmap.
  eapply Forall_impl; [exact Hprev |]. intros r Hr. simpl.
  now case_bool_decide.
Qed.

Lemma run_good evs st :
  Forall (λ ev, match ev with Gallery.Update u => good u | _ => True end) evs →
  Forall good (Gallery.rows st) → Forall good (Gallery.rows (Gallery.run evs st)).
Proof.
  intros Hevs. revert st. unfold Gallery.run.
  induction Hevs as [| ev evs Hev _ IH]; intros st Hst; simpl; [done |].
  apply IH. destruct ev as [res | newRow | updated | deleted]; simpl.
  - destruct res as [data [e|] | e]; simpl; try done. apply cleaned_good.
  - now apply onInsert_good.
  - now apply onUpdate_good.
  - now apply filter_good.
Qed.

Lemma run16_good evs st :
  Forall (λ ev, match ev with Gallery16.Update u => good u | _ => True end) evs →
  Forall good (Gallery16.rows st) → Forall good (Gallery16.rows (Gallery16.run evs st)).
Proof.
  intros Hevs. revert st. unfold Gallery16.run.
  induction Hevs as [| ev evs Hev _ IH]; intros st Hst; simpl; [done |].
  apply IH.
  destruct ev as [res | newRow | updated | deleted | row | row res | a];
    cbn [Gallery16.step].
  - destruct res as [data [e|] | e]; simpl; try done.
    apply Forall_take, cleaned_good.
  - now apply onInsert_good.
  - now apply onUpdate_good.
  - now apply filter_good.
  - destruct (Gallery16.handleDelete_begin row st) as [st'|] eqn:Hb; simpl; [| done].
    now rewrite (handleDelete_begin_rows _ _ _ Hb).
  - rewrite handleDelete_settle_rows.
    destruct res as [data [e|] | e]; try done. now apply filter_good.
  - now destruct a.
Qed.

End Invariant.

End Images.

Section ImageFacts.

Implicit Types (r : UnlockedRow) (prev : list UnlockedRow).

(** C8, as the code has it.  A live insert whose record has no [image_url]
    ([null], [undefined], or no payload at all) is ignored: the collection
    after the event is the collection before it, in both revisions.  The
    initial load keeps no such row either.  So in every run whose live updates
    carry an [image_url] that is there, no record of the collection lacks
    one. *)
Theorem insert_without_url_is_ignored :
  (∀ newRow prev,
     absent (default JUndefined (image_url <$> newRow)) = true →
     Gallery.onInsert newRow prev = prev ∧ Gallery16.onInsert newRow prev = prev)
  ∧ (∀ data, Forall (λ r, absent (image_url r) = false) (cleaned data))
  ∧ (∀ evs, Forall Gallery.update_has_url evs →
       Forall (λ r, absent (image_url r) = false)
         (Gallery.rows (Gallery.run evs Gallery.initial)))
  ∧ (∀ evs, Forall Gallery16.update_has_url evs →
       Forall (λ r, absent (image_url r) = false)
         (Gallery16.rows (Gallery16.run evs Gallery16.initial))).
Proof.
  split; [| split; [| split]].
  - intros newRow prev Habs. now apply onInsert_falsy, absent_falsy.
  - intros data. apply (cleaned_good (λ v, absent v = false) truthy_there).
  - intros evs Hevs.
    apply (run_good (λ v, absent v = false) truthy_there); [exact Hevs | constructor].
  - intros evs Hevs.
    apply (run16_good (λ v, absent v = false) truthy_there); [exact Hevs | constructor].
Qed.

Lemma insert_without_url_is_ignored_witness :
  (absent (default JUndefined (image_url <$> Some Sample.cat_null)) = true
   ∧ Gallery.onInsert (Some Sample.cat_null) [Sample.dog] = [Sample.dog])
  ∧ (Forall Gallery.update_has_url
       [Gallery.Load (Resolved (Some [Sample.cat; Sample.cat_null]) None);
        Gallery.Insert (Some Sample.cat_null); Gallery.Update Sample.dog_empty]
     ∧ Forall (λ r, absent (image_url r) = false)
         (Gallery.rows
            (Gallery.run
               [Gallery.Load (Resolved (Some [Sample.cat; Sample.cat_null]) None);
                Gallery.Insert (Some Sample.cat_null); Gallery.Update Sample.dog_empty]
               Gallery.initial))).
Proof.
  split.
  - split; [reflexivity |].
    exact (proj1 (proj1 insert_without_url_is_ignored (Some Sample.cat_null)
                    [Sample.dog] eq_refl)).
  - assert (H : Forall Gallery.update_has_url
       [Gallery.Load (Resolved (Some [Sample.cat; Sample.cat_null]) None);
        Gallery.Insert (Some Sample.cat_null); Gallery.Update Sample.dog_empty]).
    { repeat (apply Forall_cons; split); try apply Forall_nil; simpl; done. }
    split; [exact H |].
    exact (proj1 (proj2 (proj2 insert_without_url_is_ignored)) _ H).
Defined.

(** A live update that carries [image_url: null] leaves a record without an
    image in the collection. *)
Lemma update_can_remove_the_url :
  Gallery.rows
    (Gallery.run
       [Gallery.Load (Resolved (Some [Sample.cat]) None); Gallery.Update Sample.cat_null]
       Gallery.initial)
  = [ {| id := "a"; image_url := JNull;
         created_at := Some (JStr "2024-01-01T00:00:00Z") |} ]
  ∧ ¬ Forall (λ r, absent (image_url r) = false)
        (Gallery.rows
           (Gallery.run
              [Gallery.Load (Resolved (Some [Sample.cat]) None);
               Gallery.Update Sample.cat_null]
              Gallery.initial)).
Proof.
  split; [reflexivity |].
  intros H. apply Forall_cons in H as [H _]. discriminate H.
Qed.

(** C9, as the code has it.  The test on [image_url] is a test for a value
    that counts as true: besides [null] and [undefined] it rejects [''] (and
    [false], [0], [NaN]).  A row with such an [image_url] is ignored by the
    insert handler of both revisions and dropped by the filter of the initial
    load, so it enters the collection by neither; in every run whose live
    updates carry an image, all records of the collection carry one. *)
Theorem image_url_test_is_truthiness :
  (∀ v, truthy v = false ↔ v ∈ [JUndefined; JNull; JBool false; JNum 0; JNaN; JStr ""])
  ∧ (∀ newRow prev,
       truthy (default JUndefined (image_url <$> newRow)) = false →
       Gallery.onInsert newRow prev = prev ∧ Gallery16.onInsert newRow prev = prev)
  ∧ (∀ data r,
       r ∈ cleaned data ↔
       ∃ r0, r0 ∈ default [] data ∧ truthy (image_url r0) = true
             ∧ r = {| id := id r0; image_url := image_url r0;
                      created_at :=
                        Some (nullish (default JUndefined (created_at r0)) JNull) |})
  ∧ (∀ evs, Forall Gallery.update_has_image evs →
       Forall has_image (Gallery.rows (Gallery.run evs Gallery.initial)))
  ∧ (∀ evs, Forall Gallery16.update_has_image evs →
       Forall has_image (Gallery16.rows (Gallery16.run evs Gallery16.initial))).
Proof.
  split; [apply falsy_values |].
  split; [apply onInsert_falsy |].
  split; [apply cleaned_spec |].
  split; intros evs Hevs.
  - apply (run_good (λ v, truthy v = true) (λ _ H, H)); [exact Hevs | constructor].
  - apply (run16_good (λ v, truthy v = true) (λ _ H, H)); [exact Hevs | constructor].
Qed.

Lemma image_url_test_is_truthiness_witness :
  (truthy (default JUndefined (image_url <$> Some Sample.dog_empty)) = false
   ∧ Gallery16.onInsert (Some Sample.dog_empty) [Sample.cat] = [Sample.cat])
  ∧ (Forall Gallery16.update_has_image
       [Gallery16.Load (Resolved (Some [Sample.dog_empty; Sample.cat]) None);
        Gallery16.Insert (Some Sample.dog_empty); Gallery16.Update Sample.owl]
     ∧ Forall has_image
         (Gallery16.rows
            (Gallery16.run
               [Gallery16.Load (Resolved (Some [Sample.dog_empty; Sample.cat]) None);
                Gallery16.Insert (Some Sample.dog_empty); Gallery16.Update Sample.owl]
               Gallery16.initial))).
Proof.
  split.
  - split; [reflexivity |].
    exact (proj2 (proj1 (proj2 image_url_test_is_truthiness)
                    (Some Sample.dog_empty) [Sample.cat] eq_refl)).
  - assert (H : Forall Gallery16.update_has_image
       [Gallery16.Load (Resolved (Some [Sample.dog_empty; Sample.cat]) None);
        Gallery16.Insert (Some Sample.dog_empty); Gallery16.Update Sample.owl]).
    { repeat (apply Forall_cons; split); try apply Forall_nil; simpl; done. }
    split; [exact H |].
    exact (proj2 (proj2 (proj2 (proj2 image_url_test_is_truthiness))) _ H).
Defined.

(** A live update that carries [image_url: ''] leaves a record with an empty
    [image_url] in the collection of the bounded gallery. *)
Lemma update_can_empty_the_url :
  Gallery16.rows
    (Gallery16.run
       [Gallery16.Load (Resolved (Some [Sample.cat; Sample.dog]) None);
        Gallery16.Update Sample.dog_empty]
       Gallery16.initial)
  = [ Sample.cat;
      {| id := "b"; image_url := JStr "";
         created_at := Some (JStr "2024-01-01T00:00:00Z") |} ]
  ∧ ¬ Forall has_image
        (Gallery16.rows
           (Gallery16.run
              [Gallery16.Load (Resolved (Some [Sample.cat; Sample.dog]) None);
               Gallery16.Update Sample.dog_empty]
              Gallery16.initial)).
Proof.
  split; [reflexivity |].
  intros H. apply Forall_cons in H as [_ H]. apply Forall_cons in H as [H _].
  discriminate H.
Qed.

End ImageFacts.

(** ** A failed initial load *)

Section FailedLoad.

Lemma fetchImages_failure res e st :
  failure res = Some e →
  Gallery.fetchImages res st
  = {| Gallery.rows := Gallery.rows st; Gallery.loading := false;
       Gallery.error := Some (message_or e Gallery.load_failed) |}.
Proof. destruct res as [data [e'|] | e']; simpl; now intros [= <-]. Qed.

Lemma fetchImages16_failure res e st :
  failure res = Some e →
  Gallery16.fetchImages res st
  = Gallery16.console_error (message_or e Gallery16.load_failed) st.
Proof. destruct res as [data [e'|] | e']; simpl; now intros [= <-]. Qed.

(** C5, as the code has it.  In the first revision a failed initial load sets
    the error string, to the message of the failure or to a fixed text when it
    has none, and leaves the collection as it was: empty, when the load is the
    first thing to happen; the string is rendered as a banner unless it is
    empty.  In the bounded revision a failed load only writes that text to the
    console: the collection, the status message and the alerts stay as they
    were. *)
Theorem failed_load_outcome res e :
  failure res = Some e →
  (∀ st,
     Gallery.error (Gallery.fetchImages res st) = Some (message_or e Gallery.load_failed)
     ∧ Gallery.rows (Gallery.fetchImages res st) = Gallery.rows st
     ∧ (message_or e Gallery.load_failed ≠ "" →
        Gallery.banner (Gallery.fetchImages res st)
        = Some (message_or e Gallery.load_failed)))
  ∧ Gallery.rows (Gallery.fetchImages res Gallery.initial) = []
  ∧ (message e = None →
     Gallery.banner (Gallery.fetchImages res Gallery.initial) = Some Gallery.load_failed)
  ∧ (∀ st,
       Gallery16.rows (Gallery16.fetchImages res st) = Gallery16.rows st
       ∧ Gallery16.statusMsg (Gallery16.fetchImages res st) = Gallery16.statusMsg st
       ∧ Gallery16.alerts (Gallery16.fetchImages res st) = Gallery16.alerts st
       ∧ Gallery16.banner (Gallery16.fetchImages res st) = Gallery16.banner st
       ∧ Gallery16.console (Gallery16.fetchImages res st)
         = (Gallery16.console st ++ [message_or e Gallery16.load_failed])%list).
Proof.
  intros Hres. split; [| split; [| split]].
  - intros st. rewrite (fetchImages_failure _ _ _ Hres). simpl.
    split; [done |]. split; [done |]. intros Hne.
    unfold Gallery.banner, truthy_str. simpl. now rewrite bool_decide_eq_false_2.
  - now rewrite (fetchImages_failure _ _ _ Hres).
  - intros Hmsg. rewrite (fetchImages_failure _ _ _ Hres).
    unfold Gallery.banner, message_or. simpl. now rewrite Hmsg.
  - intros st. now rewrite (fetchImages16_failure _ _ _ Hres).
Qed.

Lemma failed_load_outcome_witness :
  failure (Rejected (A := list UnlockedRow) Sample.fetch_failed) = Some Sample.fetch_failed
  ∧ Gallery.rows (Gallery.fetchImages (Rejected Sample.fetch_failed) Gallery.initial) = []
  ∧ Gallery.error (Gallery.fetchImages (Rejected Sample.fetch_failed) Gallery.initial)
    = Some "Failed to fetch".
Proof.
  split; [reflexivity |]. split.
  - exact (proj1 (proj2 (failed_load_outcome (Rejected Sample.fetch_failed)
                           Sample.fetch_failed eq_refl))).
  - exact (proj1 (proj1 (failed_load_outcome (Rejected Sample.fetch_failed)
                           Sample.fetch_failed eq_refl) Gallery.initial)).
Defined.

(** The bounded gallery shows nothing when its initial load fails. *)
Lemma failed_load_not_shown_by_bounded_gallery :
  Gallery16.banner (Gallery16.fetchImages (Rejected Sample.fetch_failed) Gallery16.initial)
  = None
  ∧ Gallery16.statusMsg (Gallery16.fetchImages (Rejected Sample.fetch_failed) Gallery16.initial)
    = ""
  ∧ Gallery16.alerts (Gallery16.fetchImages (Rejected Sample.fetch_failed) Gallery16.initial)
    = []
  ∧ Gallery16.console (Gallery16.fetchImages (Rejected Sample.fetch_failed) Gallery16.initial)
    = ["Failed to fetch"].
Proof. repeat split. Qed.

End FailedLoad.

(** ** The local delete of the bounded gallery *)

Section LocalDelete.

Implicit Types (row : UnlockedRow) (res : response unit).

Lemma handleDelete_settle_deleting row res st :
  Gallery16.deleting (Gallery16.handleDelete_settle row res st)
  = delete (id row) (Gallery16.deleting st).
Proof. now destruct res as [data [e|] | e]. Qed.

Lemma handleDelete_settle_timers row res st :
  Gallery16.timers (Gallery16.handleDelete_settle row res st)
  = (Gallery16.timers st ++ [(3000%Z, Gallery16.SetStatusMsg "")])%list.
Proof. now destruct res as [data [e|] | e]. Qed.

Lemma handleDelete_unfold row res st :
  truthy_str (id row) = true →
  Gallery16.handleDelete row res st
  = Gallery16.handleDelete_settle row res
      (Gallery16.set_statusMsg (λ _, "삭제 시작: id=" ++ id row)
         (Gallery16.set_deleting (λ prev, <[id row := true]> prev) st)).
Proof.
  intros Hid. unfold Gallery16.handleDelete, Gallery16.handleDelete_begin.
  now rewrite Hid.
Qed.

Lemma handleDelete_without_id row res st :
  truthy_str (id row) = false →
  Gallery16.handleDelete_begin row st = None ∧ Gallery16.handleDelete row res st = st.
Proof.
  intros Hid. unfold Gallery16.handleDelete, Gallery16.handleDelete_begin.
  now rewrite Hid.
Qed.

(** C7. For a row with an id, the local delete of the bounded gallery removes
    the record from the collection when the remote delete succeeds; when the
    remote delete answers with an error or the request fails, the collection
    is left as it was and the error is shown in the status message and in an
    alert.  Whatever the outcome, the in-flight mark of the id is gone
    afterwards and a timer of 3000 ms is set that clears the status message.
    The same holds of the second half of the handler in whatever state the
    answer arrives. *)
Theorem local_delete_outcomes row res st :
  truthy_str (id row) = true →
  Gallery16.handleDelete_begin row st ≠ None
  ∧ (failure res = None →
   Gallery16.rows (Gallery16.handleDelete row res st)
   = filter (λ r, id r ≠ id row) (Gallery16.rows st))
  ∧ (∀ e, failure res = Some e →
       Gallery16.rows (Gallery16.handleDelete row res st) = Gallery16.rows st)
  ∧ (∀ data delErr, res = Resolved data (Some delErr) →
       Gallery16.alerts (Gallery16.handleDelete row res st)
       = (Gallery16.alerts st
          ++ [("DB 삭제 실패:" ++ nl ++ message_or_self delErr)%string])%list
       ∧ Gallery16.statusMsg (Gallery16.handleDelete row res st)
         = ("삭제 시작: id=" ++ id row)
             ++ nl ++ "[에러] DB 삭제 실패: " ++ message_or_self delErr)
  ∧ (∀ e, res = Rejected e →
       Gallery16.alerts (Gallery16.handleDelete row res st)
       = (Gallery16.alerts st
            ++ [("삭제 중 예외가 발생했습니다." ++ nl ++ "콘솔을 확인해 주세요.")%string])%list
       ∧ Gallery16.statusMsg (Gallery16.handleDelete row res st)
         = ("삭제 시작: id=" ++ id row) ++ nl ++ "[예외] " ++ message_or_self e)
  ∧ Gallery16.deleting (Gallery16.handleDelete row res st) !! id row = None
  ∧ Gallery16.timers (Gallery16.handleDelete row res st)
    = (Gallery16.timers st ++ [(3000%Z, Gallery16.SetStatusMsg "")])%list
  ∧ Gallery16.statusMsg
      (Gallery16.fire (Gallery16.SetStatusMsg "") (Gallery16.handleDelete row res st))
    = ""
  ∧ (∀ st1,
       Gallery16.rows (Gallery16.handleDelete_settle row res st1)
       = match failure res with
         | Some _ => Gallery16.rows st1
         | None => filter (λ r, id r ≠ id row) (Gallery16.rows st1)
         end
       ∧ Gallery16.deleting (Gallery16.handleDelete_settle row res st1) !! id row = None
       ∧ Gallery16.timers (Gallery16.handleDelete_settle row res st1)
         = (Gallery16.timers st1 ++ [(3000%Z, Gallery16.SetStatusMsg "")])%list).
Proof.
  intros Hid. rewrite (handleDelete_unfold _ _ _ Hid).
  rewrite handleDelete_settle_rows, handleDelete_settle_deleting,
    handleDelete_settle_timers.
  split; [unfold Gallery16.handleDelete_begin; now rewrite Hid |].
  repeat split.
  - now destruct res as [data [e|] | e].
  - intros e. now destruct res as [data [e'|] | e'].
  - subst res. reflexivity.
  - subst res. reflexivity.
  - subst res. reflexivity.
  - subst res. reflexivity.
  - apply lookup_delete_eq.
  - rewrite handleDelete_settle_rows. now destruct res as [data [e|] | e].
  - rewrite handleDelete_settle_deleting. apply lookup_delete_eq.
  - apply handleDelete_settle_timers.
Qed.

Lemma local_delete_outcomes_witness :
  truthy_str (id Sample.dog) = true
  ∧ (failure (Resolved (A := unit) None None) = None
     ∧ Gallery16.rows
         (Gallery16.handleDelete Sample.dog (Resolved None None)
            (Gallery16.set_rows (λ _, [Sample.cat; Sample.dog]) Gallery16.initial))
       = filter (λ r, id r ≠ id Sample.dog) [Sample.cat; Sample.dog])
  ∧ (failure (Rejected (A := unit) Sample.fetch_failed) = Some Sample.fetch_failed
     ∧ Gallery16.rows
         (Gallery16.handleDelete Sample.dog (Rejected Sample.fetch_failed)
            (Gallery16.set_rows (λ _, [Sample.cat; Sample.dog]) Gallery16.initial))
       = [Sample.cat; Sample.dog]).
Proof.
  split; [reflexivity |]. split; (split; [reflexivity |]).
  - exact (proj1 (proj2 (local_delete_outcomes Sample.dog (Resolved None None)
                    (Gallery16.set_rows (λ _, [Sample.cat; Sample.dog]) Gallery16.initial)
                    eq_refl)) eq_refl).
  - exact (proj1 (proj2 (proj2 (local_delete_outcomes Sample.dog (Rejected Sample.fetch_failed)
                    (Gallery16.set_rows (λ _, [Sample.cat; Sample.dog]) Gallery16.initial)
                    eq_refl))) Sample.fetch_failed eq_refl).
Defined.

End LocalDelete.

(** ** Dragging a frame *)

Section Drag.

(** The rounding of the engine's arithmetic. *)
Context (fl : Q → Q).

Implicit Types (d : Setting.session) (e : Setting.MouseEvent) (st : Setting.state).

Lemma same_rounded_spec cur d e :
  Setting.same_rounded fl cur d e = true ↔
  Setting.Math_round (Setting.x cur)
  = Setting.Math_round
      (fl (fl (fl (Setting.clientX e - Setting.canvasLeft d) + Setting.scrollLeft d)
           - Setting.offsetX d))%Q
  ∧ Setting.Math_round (Setting.y cur)
    = Setting.Math_round
        (fl (fl (fl (Setting.clientY e - Setting.canvasTop d) + Setting.scrollTop d)
             - Setting.offsetY d))%Q.
Proof.
  unfold Setting.same_rounded. rewrite andb_true_iff, !Z.eqb_eq. reflexivity.
Qed.

Lemma onMove_idle e st : Setting.dragging st = None → Setting.onMove fl e st = st.
Proof. unfold Setting.onMove. now intros ->. Qed.

(** C4. While a drag session is open, a pointer move to
    [(clientX, clientY)] asks for the place
    [(clientX - canvasLeft + scrollLeft - offsetX,
      clientY - canvasTop + scrollTop - offsetY)],
    each computed from left to right in the engine's arithmetic.  When both
    coordinates of that place round to the same integers as those of the
    current place of the frame (the one stored, or (0, 0) for a frame that is
    not stored), the state is handed back as it is, so the save timer is not
    touched.  Otherwise the frame of the session is put at that place, with
    its size kept and the other frames left alone, and the save timer is
    armed anew.  With canvas origin (100, 50), no scroll and pointer offset
    (10, 10), a move to (200, 150) puts a frame stored at (10, 10) at (90, 90),
    whole numbers up to 2^53 being doubles. *)
Theorem drag_sets_frame_position d e st :
  Setting.dragging st = Some d →
  (Setting.Math_round
     (Setting.x (default {| Setting.x := 0; Setting.y := 0;
                            Setting.w := 260; Setting.h := 180 |}
                   (Setting.views st !! Setting.id d)))
   = Setting.Math_round
       (fl (fl (fl (Setting.clientX e - Setting.canvasLeft d) + Setting.scrollLeft d)
            - Setting.offsetX d))%Q
   ∧ Setting.Math_round
       (Setting.y (default {| Setting.x := 0; Setting.y := 0;
                              Setting.w := 260; Setting.h := 180 |}
                     (Setting.views st !! Setting.id d)))
     = Setting.Math_round
         (fl (fl (fl (Setting.clientY e - Setting.canvasTop d) + Setting.scrollTop d)
              - Setting.offsetY d))%Q →
   Setting.onMove fl e st = st)
  ∧ (¬ (Setting.Math_round
          (Setting.x (default {| Setting.x := 0; Setting.y := 0;
                                 Setting.w := 260; Setting.h := 180 |}
                        (Setting.views st !! Setting.id d)))
        = Setting.Math_round
            (fl (fl (fl (Setting.clientX e - Setting.canvasLeft d)
                     + Setting.scrollLeft d)
                 - Setting.offsetX d))%Q
        ∧ Setting.Math_round
            (Setting.y (default {| Setting.x := 0; Setting.y := 0;
                                   Setting.w := 260; Setting.h := 180 |}
                          (Setting.views st !! Setting.id d)))
          = Setting.Math_round
              (fl (fl (fl (Setting.clientY e - Setting.canvasTop d)
                       + Setting.scrollTop d)
                   - Setting.offsetY d))%Q) →
     Setting.views (Setting.onMove fl e st) !! Setting.id d
     = Some {| Setting.x := (fl (fl (fl (Setting.clientX e - Setting.canvasLeft d)
                                     + Setting.scrollLeft d)
                                 - Setting.offsetX d))%Q;
               Setting.y := (fl (fl (fl (Setting.clientY e - Setting.canvasTop d)
                                     + Setting.scrollTop d)
                                 - Setting.offsetY d))%Q;
               Setting.w := Setting.w (default {| Setting.x := 0; Setting.y := 0;
                                                  Setting.w := 260; Setting.h := 180 |}
                                         (Setting.views st !! Setting.id d));
               Setting.h := Setting.h (default {| Setting.x := 0; Setting.y := 0;
                                                  Setting.w := 260; Setting.h := 180 |}
                                         (Setting.views st !! Setting.id d)) |}
     ∧ (∀ j, j ≠ Setting.id d →
          Setting.views (Setting.onMove fl e st) !! j = Setting.views st !! j)
     ∧ Setting.armed (Setting.onMove fl e st) = S (Setting.armed st)
     ∧ Setting.dragging (Setting.onMove fl e st) = Some d)
  ∧ ((∀ z : Z, (Z.abs z ≤ 2 ^ 53)%Z → fl (inject_Z z) = inject_Z z) →
     Setting.canvasLeft d = 100%Q → Setting.canvasTop d = 50%Q →
     Setting.scrollLeft d = 0%Q → Setting.scrollTop d = 0%Q →
     Setting.offsetX d = 10%Q → Setting.offsetY d = 10%Q →
     Setting.clientX e = 200%Q → Setting.clientY e = 150%Q →
     ∀ v, Setting.views st !! Setting.id d = Some v →
          Setting.x v = 10%Q → Setting.y v = 10%Q →
          Setting.views (Setting.onMove fl e st) !! Setting.id d
          = Some {| Setting.x := 90%Q; Setting.y := 90%Q;
                    Setting.w := Setting.w v; Setting.h := Setting.h v |}).
Proof.
  intros Hd. unfold Setting.onMove, Setting.setViews, Setting.moved. rewrite Hd.
  fold (Setting.current (Setting.views st) (Setting.id d)).
  fold (Setting.nextX fl d e) (Setting.nextY fl d e).
  split; [| split].
  - intros Hsame. apply same_rounded_spec in Hsame. now rewrite Hsame.
  - intros Hmoved.
    destruct (Setting.same_rounded fl _ d e) eqn:Hsame;
      [now apply same_rounded_spec in Hsame |].
    simpl. split; [apply lookup_insert_eq |].
    split; [| done]. intros j Hj. now apply lookup_insert_ne.
  - intros Hexact HcL HcT HsL HsT HoX HoY HcX HcY v Hv Hx Hy.
    assert (Hcur : Setting.current (Setting.views st) (Setting.id d) = v).
    { unfold Setting.current. now rewrite Hv. }
    rewrite Hcur.
    assert (Hnx : Setting.nextX fl d e = 90%Q).
    { unfold Setting.nextX. rewrite HcL, HsL, HoX, HcX.
      change (200 - 100)%Q with (inject_Z 100). rewrite Hexact by (simpl; lia).
      change (inject_Z 100 + 0)%Q with (inject_Z 100). rewrite Hexact by (simpl; lia).
      change (inject_Z 100 - 10)%Q with (inject_Z 90). now rewrite Hexact by (simpl; lia). }
    assert (Hny : Setting.nextY fl d e = 90%Q).
    { unfold Setting.nextY. rewrite HcT, HsT, HoY, HcY.
      change (150 - 50)%Q with (inject_Z 100). rewrite Hexact by (simpl; lia).
      change (inject_Z 100 + 0)%Q with (inject_Z 100). rewrite Hexact by (simpl; lia).
      change (inject_Z 100 - 10)%Q with (inject_Z 90). now rewrite Hexact by (simpl; lia). }
    unfold Setting.same_rounded. rewrite Hnx, Hny, Hx, Hy. simpl.
    apply lookup_insert_eq.
Qed.

End Drag.

Lemma whole_numbers_are_doubles (z : Z) :
  (Z.abs z ≤ 2 ^ 53)%Z → Double.nearest (inject_Z z) = inject_Z z.
Proof.
  intros Hz. unfold Double.nearest. cbn [Qden Qnum inject_Z].
  rewrite Pos.eqb_refl. cbn [andb].
  now destruct (Z.leb_spec (Z.abs z) (2 ^ 53)); [| lia].
Qed.

(** The example of the specification, which arms the save timer; a move of a
    third of a pixel, which is skipped; and a move to 100.3 with an offset of
    9.8, whose difference is the double 90.5 and rounds to 91, so that a frame
    at 91 stays. *)
Lemma drag_sets_frame_position_witness :
  Setting.dragging Sample.editor = Some Sample.grab
  ∧ Setting.views (Setting.onMove Double.nearest Sample.move Sample.editor) !! "frame-1"
    = Some {| Setting.x := 90%Q; Setting.y := 90%Q;
              Setting.w := 260%Q; Setting.h := 180%Q |}
  ∧ Setting.armed (Setting.onMove Double.nearest Sample.move Sample.editor)
    = S (Setting.armed Sample.editor)
  ∧ Setting.onMove Double.nearest Sample.nudge Sample.editor = Sample.editor
  ∧ Setting.onMove Double.nearest Sample.move_edge Sample.editor_edge
    = Sample.editor_edge.
Proof.
  split; [reflexivity |]. split; [| split; [| split]].
  - exact (proj2 (proj2
             (drag_sets_frame_position Double.nearest Sample.grab Sample.move
                Sample.editor eq_refl))
             whole_numbers_are_doubles
             eq_refl eq_refl eq_refl eq_refl eq_refl eq_refl eq_refl eq_refl
             {| Setting.x := 10%Q; Setting.y := 10%Q;
                Setting.w := 260%Q; Setting.h := 180%Q |}
             eq_refl eq_refl eq_refl).
  - apply (proj1 (proj2
             (drag_sets_frame_position Double.nearest Sample.grab Sample.move
                Sample.editor eq_refl))).
    intros [Hx _]. vm_compute in Hx. discriminate Hx.
  - apply (proj1 (drag_sets_frame_position Double.nearest Sample.grab Sample.nudge
                    Sample.editor eq_refl)).
    vm_compute. split; reflexivity.
  - apply (proj1 (drag_sets_frame_position Double.nearest Sample.grab_edge
                    Sample.move_edge Sample.editor_edge eq_refl)).
    vm_compute. split; reflexivity.
Defined.


(** ** Duplicate cleanup *)

Section Grouping.

Import Cleanup.

Local Open Scope list_scope.

Implicit Types (r row : LockedRow) (rows g : list LockedRow)
  (o : list (string * list LockedRow)) (k : string).

Lemma group_snoc rows r k :
  group (rows ++ [r]) k = group rows k ++ (if decide (key r = k) then [r] else []).
Proof. unfold group. now rewrite filter_app. Qed.

Lemma group_elem rows k r : r ∈ group rows k ↔ key r = k ∧ r ∈ rows.
Proof. unfold group. now rewrite list_elem_of_filter. Qed.

Lemma push_keys k row o :
  (push k row o).*1 = if decide (k ∈ o.*1) then o.*1 else o.*1 ++ [k].
Proof.
  induction o as [| [k' g] o IH].
  - cbn. destruct (decide (k ∈ [])) as [Hin | _]; [| done].
    now apply elem_of_nil in Hin.
  - cbn [push]. case_bool_decide as Hk.
    + subst k'. cbn. destruct (decide (k ∈ k :: o.*1)) as [_ | Hin]; [done |].
      exfalso. apply Hin, list_elem_of_here.
    + cbn. rewrite IH.
      destruct (decide (k ∈ o.*1)) as [Hin | Hin];
        destruct (decide (k ∈ k' :: o.*1)) as [Hin' | Hin']; try done.
      * exfalso. now apply Hin', list_elem_of_further.
      * apply elem_of_cons in Hin' as [? | ?]; [congruence | done].
Qed.

Lemma push_elem k0 row o k g :
  NoDup o.*1 →
  (k, g) ∈ push k0 row o →
  (k ≠ k0 ∧ (k, g) ∈ o)
  ∨ (k = k0 ∧ ((∃ g0, (k0, g0) ∈ o ∧ g = g0 ++ [row]) ∨ ((k0 ∉ o.*1) ∧ g = [row]))).
Proof.
  induction o as [| [k' g'] o IH]; simpl; intros Hnd.
  - intros Hin%list_elem_of_singleton. injection Hin as -> ->.
    right. split; [done |]. right. split; [apply not_elem_of_nil | done].
  - apply NoDup_cons in Hnd as [Hk' Hnd]. case_bool_decide as Hk.
    + subst k'. intros [Heq | Hin]%elem_of_cons.
      * injection Heq as -> ->. right. split; [done |]. left.
        exists g'. split; [apply list_elem_of_here | done].
      * left. split; [| now apply list_elem_of_further].
        intros ->. apply Hk'. apply list_elem_of_fmap. now exists (k0, g).
    + intros [Heq | Hin]%elem_of_cons.
      * injection Heq as -> ->. left. split; [done | apply list_elem_of_here].
      * destruct (IH Hnd Hin) as [[Hne Ho] | [-> [(g0 & Hg0 & ->) | [Hnot ->]]]].
        -- left. split; [done | now apply list_elem_of_further].
        -- right. split; [done |]. left. exists g0.
           split; [now apply list_elem_of_further | done].
        -- right. split; [done |]. right. split; [| done].
           intros [Heq | Hin']%elem_of_cons; [congruence | done].
Qed.

Lemma push_elem_key k0 row o :
  ∃ g, (k0, g) ∈ push k0 row o.
Proof.
  induction o as [| [k' g'] o [g IH]]; simpl.
  - exists [row]. apply list_elem_of_here.
  - case_bool_decide as Hk.
    + subst k'. exists (g' ++ [row]). apply list_elem_of_here.
    + exists g. now apply list_elem_of_further.
Qed.

Lemma grouped_push rows o r :
  grouped rows o → grouped (rows ++ [r]) (push (key r) r o).
Proof.
  intros (Hnd & Hgroups & Hkeys). split; [| split].
  - rewrite push_keys. case_decide as Hin; [done |].
    apply NoDup_app. split; [done |]. split; [| apply NoDup_singleton].
    intros k Hk ->%list_elem_of_singleton. done.
  - intros k g Hin. rewrite group_snoc.
    destruct (push_elem _ _ _ _ _ Hnd Hin)
      as [[Hne Ho] | [-> [(g0 & Hg0 & ->) | [Hnot ->]]]].
    + rewrite decide_False by done. rewrite app_nil_r. now apply Hgroups.
    + rewrite decide_True by done. destruct (Hgroups _ _ Hg0) as [-> _].
      split; [done |]. now destruct (group rows (key r)).
    + rewrite decide_True by done. split; [| done].
      assert (Hnil : group rows (key r) = []); [| now rewrite Hnil].
      destruct (group rows (key r)) as [| r' g'] eqn:Hg; [done |].
      exfalso. apply Hnot.
      assert (Hr' : r' ∈ group rows (key r)) by (rewrite Hg; apply list_elem_of_here).
      apply group_elem in Hr' as [<- Hr']. now apply Hkeys.
  - intros r' Hr'. rewrite push_keys.
    apply elem_of_app in Hr' as [Hr' | ->%list_elem_of_singleton].
    + case_decide; [| apply elem_of_app; left]; now apply Hkeys.
    + case_decide as Hin; [done |]. apply elem_of_app. right. apply list_elem_of_here.
Qed.

Lemma filed_snoc rows r :
  filed (rows ++ [r]) = push (key r) r (filed rows).
Proof. unfold filed. now rewrite foldl_snoc. Qed.

Lemma filed_grouped rows : grouped rows (filed rows).
Proof.
  induction rows as [| r rows IH] using rev_ind.
  - split; [constructor |]. split; [| intros r Hr; now apply elem_of_nil in Hr].
    intros k g Hin. now apply elem_of_nil in Hin.
  - rewrite filed_snoc. now apply grouped_push.
Qed.

(** The groups filed are the non-empty groups of the table. *)
Lemma filed_groups rows g :
  g ∈ (filed rows).*2 ↔ ∃ r, r ∈ rows ∧ g = group rows (key r).
Proof.
  destruct (filed_grouped rows) as (Hnd & Hgroups & Hkeys). split.
  - intros ([k g'] & -> & Hin)%list_elem_of_fmap. simpl.
    destruct (Hgroups _ _ Hin) as [-> Hne].
    destruct (group rows k) as [| r g] eqn:Hg; [done |].
    assert (Hr : r ∈ group rows k) by (rewrite Hg; apply list_elem_of_here).
    apply group_elem in Hr as [<- Hr]. exists r. now rewrite Hg.
  - intros (r & Hr & ->).
    apply Hkeys in Hr. apply list_elem_of_fmap in Hr as ([k g] & Hk & Hin).
    simpl in Hk. subst k. destruct (Hgroups _ _ Hin) as [-> _].
    apply list_elem_of_fmap. now exists (key r, group rows (key r)).
Qed.

(** The grouping of the handler: the entries filed when no key is inherited,
    a TypeError as soon as one is. *)
Lemma byNfc_snoc rows r :
  byNfc (Some (rows ++ [r])) = byNfc (Some rows) ≫= λ o, file o r.
Proof. unfold byNfc. simpl. now rewrite foldl_snoc. Qed.

Lemma byNfc_plain rows :
  Forall (λ r, key r ∉ Object_prototype) rows → byNfc (Some rows) = Some (filed rows).
Proof.
  induction rows as [| r rows IH] using rev_ind; intros Hplain; [done |].
  apply Forall_app in Hplain as [Hrows Hr]. rewrite Forall_singleton in Hr.
  rewrite byNfc_snoc, filed_snoc, IH by done. simpl. unfold file, inherited.
  now rewrite bool_decide_eq_false_2.
Qed.

Lemma byNfc_throws rows :
  Exists (λ r, key r ∈ Object_prototype) rows → byNfc (Some rows) = None.
Proof.
  induction rows as [| r rows IH] using rev_ind; intros Hsome;
    [now apply Exists_nil in Hsome |].
  rewrite byNfc_snoc. apply Exists_app in Hsome as [Hrows | Hr].
  - now rewrite IH.
  - rewrite Exists_cons, Exists_nil in Hr. destruct Hr as [Hr | []].
    destruct (byNfc (Some rows)) as [o|]; [| done]. simpl. unfold file, inherited.
    now rewrite bool_decide_eq_true_2.
Qed.

End Grouping.

Section Sorting.

Import Cleanup.

Local Open Scope list_scope.

Context (Date_parse : string → Z).

Local Abbreviation time := (Cleanup.time Date_parse).
Local Abbreviation desc := (Cleanup.desc Date_parse).

Implicit Types (a b r : LockedRow) (l g : list LockedRow).

Lemma sort_insert_perm {A} (cmp : A → A → Z) (x : A) (l : list A) :
  sort_insert cmp x l ≡ₚ x :: l.
Proof.
  induction l as [| y l IH]; simpl; [done |].
  destruct (0 <? cmp x y)%Z; [| done].
  rewrite IH. apply Permutation_swap.
Qed.

Lemma Array_sort_perm {A} (cmp : A → A → Z) (l : list A) : Array_sort cmp l ≡ₚ l.
Proof.
  induction l as [| x l IH]; simpl; [done |].
  now rewrite sort_insert_perm, IH.
Qed.

Lemma sort_insert_desc a l :
  StronglySorted (λ x y, (time y ≤ time x)%Z) l →
  StronglySorted (λ x y, (time y ≤ time x)%Z) (sort_insert desc a l).
Proof.
  induction 1 as [| b l Hl IH Hb]; simpl.
  - repeat constructor.
  - unfold Cleanup.desc at 1. destruct (Z.ltb_spec 0 (time b - time a)) as [Hlt | Hge].
    + constructor; [exact IH |].
      rewrite sort_insert_perm. constructor; [lia | exact Hb].
    + constructor; [now constructor |].
      constructor; [lia |].
      eapply Forall_impl; [exact Hb |]. simpl. intros x Hx. lia.
Qed.

Lemma Array_sort_desc l :
  StronglySorted (λ x y, (time y ≤ time x)%Z) (Array_sort desc l).
Proof.
  induction l as [| a l IH]; simpl; [constructor | now apply sort_insert_desc].
Qed.

(** Rows of equal time keep their table order. *)
Lemma sort_insert_stable (t : Z) a l :
  filter (λ r, time r = t) (sort_insert desc a l) = filter (λ r, time r = t) (a :: l).
Proof.
  induction l as [| b l IH]; simpl; [done |].
  unfold Cleanup.desc at 1. destruct (Z.ltb_spec 0 (time b - time a)) as [Hlt | Hge];
    [| done].
  rewrite (filter_cons _ b), IH, !filter_cons.
  repeat case_decide; try done; lia.
Qed.

Lemma Array_sort_stable (t : Z) l :
  filter (λ r, time r = t) (Array_sort desc l) = filter (λ r, time r = t) l.
Proof.
  induction l as [| a l IH]; simpl; [done |].
  now rewrite sort_insert_stable, !filter_cons, IH.
Qed.

Lemma last_filter {A} (P : A → Prop) `{!∀ x, Decision (P x)} (l : list A) (x : A) :
  last l = Some x → P x → last (filter P l) = Some x.
Proof.
  intros Hlast HP. destruct l as [| y l] using rev_ind; [done |].
  rewrite last_snoc in Hlast. injection Hlast as ->.
  rewrite filter_app, filter_cons_True by done. apply last_snoc.
Qed.

(** The row that is kept: it is in the group, no row of the group is older,
    and among the rows of its time it is the last of the table. *)
Lemma oldest_spec g o :
  oldest Date_parse g = Some o →
  o ∈ g ∧ (∀ r, r ∈ g → (time o ≤ time r)%Z)
  ∧ last (filter (λ r, time r = time o) g) = Some o.
Proof.
  unfold oldest. intros Hlast.
  pose proof (Array_sort_desc g) as Hsorted.
  pose proof (Array_sort_perm desc g) as Hperm.
  split; [| split].
  - rewrite <- Hperm. destruct (Array_sort desc g) using rev_ind; [done |].
    rewrite last_snoc in Hlast. injection Hlast as ->.
    apply elem_of_app. right. apply list_elem_of_here.
  - intros r Hr. rewrite <- Hperm in Hr.
    destruct (Array_sort desc g) as [| x l _] using rev_ind; [done |].
    rewrite last_snoc in Hlast. injection Hlast as ->.
    apply elem_of_app in Hr as [Hr | ->%list_elem_of_singleton]; [| lia].
    apply (StronglySorted_app_1_elem_of _ _ _ _ _ Hsorted Hr), list_elem_of_here.
  - rewrite <- (Array_sort_stable (time o) g). now apply last_filter.
Qed.

Lemma oldest_is_Some g : g ≠ [] → is_Some (oldest Date_parse g).
Proof.
  intros Hne. unfold oldest.
  destruct (Array_sort desc g) as [| x l _] eqn:Hs using rev_ind.
  - exfalso. apply Hne. apply Permutation_nil_r. rewrite <- Hs.
    symmetry. apply Array_sort_perm.
  - rewrite last_snoc. now eexists.
Qed.

(** All but the last entry of a list without repetition. *)
Lemma elem_of_init {A} (l : list A) (x : A) :
  NoDup l → x ∈ take (length l - 1) l ↔ x ∈ l ∧ last l ≠ Some x.
Proof.
  intros Hnd. destruct l as [| y l _] using rev_ind.
  - simpl. split; [intros H; now apply elem_of_nil in H | intros [H _]; exact H].
  - rewrite length_app. simpl.
    replace (length l + 1 - 1)%nat with (length l) by lia.
    rewrite take_app_length, last_snoc.
    apply NoDup_app in Hnd as (_ & Hfresh & _). split.
    + intros Hx. split; [apply elem_of_app; now left |].
      intros [= ->]. apply (Hfresh _ Hx), list_elem_of_here.
    + intros [[Hx | ->%list_elem_of_singleton]%elem_of_app Hne]; [done |].
      now destruct Hne.
Qed.

(** What one group contributes. *)
Lemma marked_spec g (i : string) :
  NoDup g →
  i ∈ marked Date_parse g ↔
  (1 < length g)%nat
  ∧ ∃ r, r ∈ g ∧ oldest Date_parse g ≠ Some r ∧ Cleanup.id r ≠ "" ∧ Cleanup.id r = i.
Proof.
  intros Hnd. unfold marked, oldest.
  pose proof (Array_sort_perm desc g) as Hperm.
  assert (Hnd' : NoDup (Array_sort desc g)) by now rewrite Hperm.
  assert (Hlen : length (Array_sort desc g) = length g) by now rewrite Hperm.
  case_bool_decide as Hle.
  - split; [intros H; now apply elem_of_nil in H | intros [H _]; lia].
  - rewrite list_elem_of_fmap. rewrite <- Hlen. split.
    + intros (r & -> & [Hid Hr]%list_elem_of_filter).
      split; [lia |]. exists r. apply elem_of_init in Hr as [Hr Hlast]; [| done].
      rewrite Hperm in Hr. repeat split; try done.
      intros Heq. now rewrite Heq in Hid.
    + intros (_ & r & Hr & Hlast & Hid & <-). exists r. split; [done |].
      apply list_elem_of_filter. split.
      * unfold truthy_str. now rewrite bool_decide_eq_false_2.
      * apply elem_of_init; [done |]. split; [now rewrite Hperm | done].
Qed.

End Sorting.

Section CleanupFacts.

Import Cleanup.

Local Open Scope list_scope.

Context (Date_parse : string → Z).
Context (Object_values : list (string * list LockedRow) → list (list LockedRow)).

(** The engine enumerates every entry of an object once. *)
Context (Object_values_perm : ∀ o, NoDup o.*1 → Object_values o ≡ₚ o.*2).

Local Abbreviation time := (Cleanup.time Date_parse).
Local Abbreviation oldest := (Cleanup.oldest Date_parse).
Local Abbreviation marked := (Cleanup.marked Date_parse).
Local Abbreviation marks := (Cleanup.marks Date_parse Object_values).
Local Abbreviation idsToDelete := (Cleanup.idsToDelete Date_parse Object_values).
Local Abbreviation requests := (Cleanup.requests Date_parse Object_values).

Implicit Types (r : LockedRow) (rows g : list LockedRow) (i k : string).

Lemma marks_perm rows :
  marks rows ≡ₚ mjoin (marked <$> (filed rows).*2).
Proof.
  unfold Cleanup.marks, Cleanup.marks_of.
  now rewrite (Object_values_perm _ (proj1 (filed_grouped rows))).
Qed.

Lemma marks_spec rows i :
  i ∈ marks rows ↔ ∃ r, r ∈ rows ∧ i ∈ marked (group rows (key r)).
Proof.
  rewrite marks_perm, list_elem_of_join. split.
  - intros (l & Hi & (g & -> & Hg)%list_elem_of_fmap).
    apply filed_groups in Hg as (r & Hr & ->). now exists r.
  - intros (r & Hr & Hi). exists (marked (group rows (key r))). split; [done |].
    apply list_elem_of_fmap_2, filed_groups. now exists r.
Qed.

Lemma NoDup_rows rows : NoDup (Cleanup.id <$> rows) → NoDup rows.
Proof. apply NoDup_fmap_1. Qed.

Lemma NoDup_group rows k : NoDup (Cleanup.id <$> rows) → NoDup (group rows k).
Proof. intros Hnd. unfold group. now apply NoDup_filter, NoDup_rows. Qed.

Lemma id_inj rows r r' :
  NoDup (Cleanup.id <$> rows) → r ∈ rows → r' ∈ rows →
  Cleanup.id r = Cleanup.id r' → r = r'.
Proof.
  intros Hnd (n & Hn)%list_elem_of_lookup (n' & Hn')%list_elem_of_lookup Heq.
  assert (n = n'); [| congruence].
  eapply NoDup_lookup; [exact Hnd | |]; rewrite list_lookup_fmap.
  - now rewrite Hn.
  - rewrite Hn'. simpl. now rewrite Heq.
Qed.

Lemma deleted_iff rows r :
  NoDup (Cleanup.id <$> rows) → r ∈ rows →
  Cleanup.id r ∈ marks rows ↔
  Cleanup.id r ≠ "" ∧ (1 < length (group rows (key r)))%nat
  ∧ oldest (group rows (key r)) ≠ Some r.
Proof.
  intros Hnd Hr. rewrite marks_spec. split.
  - intros (r0 & Hr0 & Hi).
    apply marked_spec in Hi as (Hlen & r' & Hr' & Hlast & Hid & Heq);
      [| now apply NoDup_group].
    pose proof Hr' as [Hk Hin]%group_elem.
    assert (r' = r) as -> by now apply (id_inj rows).
    now rewrite <- Hk in *.
  - intros (Hid & Hlen & Hlast). exists r. split; [done |].
    apply marked_spec; [now apply NoDup_group |]. split; [done |].
    exists r. repeat split; try done. now apply group_elem.
Qed.

Lemma deleted_is_row rows i :
  i ∈ marks rows → ∃ r, r ∈ rows ∧ Cleanup.id r = i.
Proof.
  intros (r0 & Hr0 & Hi)%marks_spec. unfold Cleanup.marked in Hi.
  case_bool_decide; [now apply elem_of_nil in Hi |].
  apply list_elem_of_fmap in Hi as (r & -> & [_ Hr]%list_elem_of_filter).
  apply subseteq_take in Hr. rewrite Array_sort_perm in Hr.
  apply group_elem in Hr as [_ Hr]. now exists r.
Qed.

Lemma chunks_of_join fuel n (l : list string) :
  (0 < n)%nat → (length l ≤ fuel)%nat → mjoin (chunks_of fuel n l) = l.
Proof.
  intros Hn. revert l. induction fuel as [| fuel IH]; intros l Hlen.
  - now destruct l.
  - destruct l as [| x l]; [done |]. cbn [chunks_of mjoin list_join].
    rewrite IH; [apply take_drop |]. rewrite length_drop. simpl in *. lia.
Qed.

Lemma chunks_of_size fuel n (l : list string) :
  Forall (λ c, length c ≤ n)%nat (chunks_of fuel n l).
Proof.
  revert l. induction fuel as [| fuel IH]; intros l; [constructor |].
  destruct l as [| x l]; [constructor |]. cbn [chunks_of].
  constructor; [| apply IH]. rewrite length_take. lia.
Qed.

Lemma idsToDelete_plain rows :
  Forall (λ r, key r ∉ Object_prototype) rows →
  idsToDelete (Some rows) = Some (marks rows)
  ∧ requests (Some rows) = Some (chunks_of (length (marks rows)) 500 (marks rows)).
Proof.
  intros Hplain. unfold Cleanup.requests, Cleanup.idsToDelete.
  now rewrite byNfc_plain.
Qed.

Lemma idsToDelete_throws rows :
  Exists (λ r, key r ∈ Object_prototype) rows →
  idsToDelete (Some rows) = None ∧ requests (Some rows) = None.
Proof.
  intros Hsome. unfold Cleanup.requests, Cleanup.idsToDelete.
  now rewrite byNfc_throws.
Qed.

(** C3, as the code has it.  Given the rows of the locked table, with ids
    of their own and no key that every object inherits, the cleanup marks for
    deletion exactly those rows with a non-empty id that belong to a group, by
    [nfc_id], of more than one row and are not the row that group keeps: the
    last in descending order of [created_at] (none counting as 0), which is a
    row of least time and, among those, the last of the table.  Every marked
    id is the id of a row, and the batches sent for deletion make up the
    marked ids, at most 500 at a time.  When some row has a key that every
    object inherits, such as [constructor], the grouping throws and nothing
    is marked.  For rows 1 and 2 of key A and row 3 of key B, with row 2 newer
    than row 1, exactly id 2 is marked. *)
Theorem cleanup_deletes_newer_duplicates :
  (∀ rows,
     NoDup (Cleanup.id <$> rows) →
     Forall (λ r, key r ∉ Object_prototype) rows →
     ∃ ids,
       idsToDelete (Some rows) = Some ids
       ∧ (∀ r, r ∈ rows →
            Cleanup.id r ∈ ids ↔
            Cleanup.id r ≠ "" ∧ (1 < length (group rows (key r)))%nat
            ∧ oldest (group rows (key r)) ≠ Some r)
       ∧ (∀ i, i ∈ ids → ∃ r, r ∈ rows ∧ Cleanup.id r = i)
       ∧ (∀ k o, oldest (group rows k) = Some o →
            o ∈ rows ∧ key o = k
            ∧ (∀ r, r ∈ rows → key r = k → (time o ≤ time r)%Z)
            ∧ last (filter (λ r, time r = time o) (group rows k)) = Some o)
       ∧ ∃ chunks,
           requests (Some rows) = Some chunks
           ∧ mjoin chunks = ids
           ∧ Forall (λ c, length c ≤ 500)%nat chunks)
  ∧ (∀ rows,
       Exists (λ r, key r ∈ Object_prototype) rows →
       idsToDelete (Some rows) = None ∧ requests (Some rows) = None)
  ∧ (∀ t1 t2,
       idsToDelete
         (Some [Locked "1" (Some "constructor") t1; Locked "2" (Some "constructor") t2])
       = None)
  ∧ (∀ t1 t2 t3,
       (time (Locked "1" (Some "A") t1) < time (Locked "2" (Some "A") t2))%Z →
       idsToDelete
         (Some [Locked "1" (Some "A") t1; Locked "2" (Some "A") t2;
                Locked "3" (Some "B") t3])
       = Some ["2"]).
Proof.
  split; [| split; [| split]].
  - intros rows Hnd Hplain. exists (marks rows).
    destruct (idsToDelete_plain rows Hplain) as [-> ->].
    split; [done |].
    split; [intros r Hr; now apply deleted_iff |].
    split; [apply deleted_is_row |]. split.
    + intros k o Ho. apply oldest_spec in Ho as (Hin & Hmin & Hlast).
      apply group_elem in Hin as [Hk Hin]. repeat split; try done.
      intros r Hr Hkr. apply Hmin. now apply group_elem.
    + eexists. split; [reflexivity |]. split; [apply chunks_of_join; lia |].
      apply chunks_of_size.
  - apply idsToDelete_throws.
  - intros t1 t2. apply idsToDelete_throws, Exists_cons. left.
    refine (bool_decide_unpack _ _). vm_compute. exact I.
  - intros t1 t2 t3 Hlt.
    assert (Hplain : Forall (λ r, key r ∉ Object_prototype)
                       [Locked "1" (Some "A") t1; Locked "2" (Some "A") t2;
                        Locked "3" (Some "B") t3]).
    { refine (bool_decide_unpack _ _). vm_compute. exact I. }
    rewrite (proj1 (idsToDelete_plain _ Hplain)).
    f_equal. apply Permutation_singleton_r. rewrite marks_perm.
    change (filed _) with
      [("A", [Locked "1" (Some "A") t1; Locked "2" (Some "A") t2]);
       ("B", [Locked "3" (Some "B") t3])].
    unfold Cleanup.marked. cbn [fmap list_fmap snd length Array_sort sort_insert].
    unfold Cleanup.desc.
    destruct (Z.ltb_spec 0 (time (Locked "2" (Some "A") t2)
                            - time (Locked "1" (Some "A") t1))) as [_ | Hge]; [| lia].
    reflexivity.
Qed.

(** C10, as the code has it.  A row whose [nfc_id] is [null] is filed under
    the key [''], so all such rows sit in one group, the one of the rows with
    an empty [nfc_id]; when there are two or more of them, each one that has a
    non-empty id and is not the row that group keeps is marked for deletion.
    This is so for a table none of whose keys is one that every object
    inherits; with such a key the grouping throws and nothing is marked. *)
Theorem cleanup_groups_rows_without_key rows :
  NoDup (Cleanup.id <$> rows) →
  (∀ r, nfc_id r = None → key r = "")
  ∧ group rows "" = filter (λ r, nfc_id r = None ∨ nfc_id r = Some "") rows
  ∧ (∀ r, r ∈ rows → nfc_id r = None → r ∈ group rows "")
  ∧ (Forall (λ r, key r ∉ Object_prototype) rows →
     ∃ o ids,
       byNfc (Some rows) = Some o
       ∧ (∀ r, r ∈ rows → nfc_id r = None → ("", group rows "") ∈ o)
       ∧ idsToDelete (Some rows) = Some ids
       ∧ ((2 ≤ length (filter (λ r, nfc_id r = None) rows))%nat →
          ∀ r, r ∈ rows → nfc_id r = None →
               Cleanup.id r ≠ "" → oldest (group rows "") ≠ Some r →
               Cleanup.id r ∈ ids))
  ∧ (Exists (λ r, key r ∈ Object_prototype) rows →
     byNfc (Some rows) = None ∧ idsToDelete (Some rows) = None).
Proof.
  intros Hnd.
  assert (Hkey : ∀ r, nfc_id r = None → key r = "").
  { intros r Hr. unfold key. now rewrite Hr. }
  split; [exact Hkey |]. split; [| split; [| split]].
  - unfold group. apply list_filter_iff. intros r. unfold key.
    destruct (nfc_id r) as [s|]; simpl.
    + split; [intros ->; now right | intros [Hs | Hs]; congruence].
    + split; [now left | done].
  - intros r Hr Hnone. apply group_elem. split; [now apply Hkey | done].
  - intros Hplain. exists (filed rows), (marks rows).
    split; [now apply byNfc_plain |]. split; [| split].
    + intros r Hr Hnone. destruct (filed_grouped rows) as (_ & Hgroups & Hkeys).
      specialize (Hkeys r Hr). rewrite (Hkey r Hnone) in Hkeys.
      apply list_elem_of_fmap in Hkeys as ([k g] & Hk & Hin). simpl in Hk. subst k.
      now destruct (Hgroups _ _ Hin) as [-> _].
    + now apply idsToDelete_plain.
    + intros Htwo r Hr Hnone Hid Hlast.
      apply deleted_iff; [done | done |]. rewrite (Hkey r Hnone).
      split; [done |]. split; [| done].
      rewrite <- (list_filter_filter_l (λ r, nfc_id r = None) (λ r, key r = "")) in Htwo
        by exact Hkey.
      fold (group rows "") in Htwo.
      pose proof (length_filter (λ r, nfc_id r = None) (group rows "")). lia.
  - intros Hsome. split; [now apply byNfc_throws | now apply idsToDelete_throws].
Qed.

End CleanupFacts.

(** The example of the specification, run with the engine's enumeration for
    keys that are not array indices, and a table with an inherited key. *)
Lemma cleanup_deletes_newer_duplicates_witness :
  (∀ o, NoDup o.*1 → Cleanup.insertion_order o ≡ₚ o.*2)
  ∧ (Cleanup.time Cleanup.sample_parse Sample.locked1
     < Cleanup.time Cleanup.sample_parse Sample.locked2)%Z
  ∧ Cleanup.idsToDelete Cleanup.sample_parse Cleanup.insertion_order
      (Some [Sample.locked1; Sample.locked2; Sample.locked3])
    = Some ["2"]
  ∧ NoDup (Cleanup.id <$> [Sample.locked1; Sample.locked2; Sample.locked3])
  ∧ Forall (λ r, Cleanup.key r ∉ Cleanup.Object_prototype)
      [Sample.locked1; Sample.locked2; Sample.locked3]
  ∧ (∃ ids,
       Cleanup.idsToDelete Cleanup.sample_parse Cleanup.insertion_order
         (Some [Sample.locked1; Sample.locked2; Sample.locked3]) = Some ids
       ∧ ∀ i, i ∈ ids →
              ∃ r, r ∈ [Sample.locked1; Sample.locked2; Sample.locked3]
                   ∧ Cleanup.id r = i)
  ∧ Cleanup.idsToDelete Cleanup.sample_parse Cleanup.insertion_order
      (Some [Sample.inherited1; Sample.inherited2])
    = None.
Proof.
  assert (H : ∀ o, NoDup o.*1 → Cleanup.insertion_order o ≡ₚ o.*2) by reflexivity.
  assert (Hlt : (Cleanup.time Cleanup.sample_parse Sample.locked1
                 < Cleanup.time Cleanup.sample_parse Sample.locked2)%Z)
    by (vm_compute; reflexivity).
  assert (Hnd : NoDup (Cleanup.id <$> [Sample.locked1; Sample.locked2; Sample.locked3])).
  { refine (bool_decide_unpack _ _). vm_compute. exact I. }
  assert (Hplain : Forall (λ r, Cleanup.key r ∉ Cleanup.Object_prototype)
                     [Sample.locked1; Sample.locked2; Sample.locked3]).
  { refine (bool_decide_unpack _ _). vm_compute. exact I. }
  split; [exact H |]. split; [exact Hlt |].
  split; [| split; [exact Hnd |]; split; [exact Hplain |]; split].
  - exact (proj2 (proj2 (proj2 (cleanup_deletes_newer_duplicates Cleanup.sample_parse
                                  Cleanup.insertion_order H)))
             (Some "2024-01-01T00:00:00Z") (Some "2024-01-02T00:00:00Z")
             (Some "2024-01-03T00:00:00Z") Hlt).
  - destruct (proj1 (cleanup_deletes_newer_duplicates Cleanup.sample_parse
                       Cleanup.insertion_order H)
                [Sample.locked1; Sample.locked2; Sample.locked3] Hnd Hplain)
      as (ids & Hids & _ & Hrows & _).
    now exists ids.
  - exact (proj1 (proj2 (proj2 (cleanup_deletes_newer_duplicates Cleanup.sample_parse
                                  Cleanup.insertion_order H)))
             (Some "2024-01-01T00:00:00Z") (Some "2024-01-02T00:00:00Z")).
Defined.

(** A newer duplicate whose id is empty is not marked. *)
Lemma cleanup_skips_row_without_id :
  Sample.unkeyed ∈ [Sample.unkeyed; Sample.locked1]
  ∧ Forall (λ r, Cleanup.key r ∉ Cleanup.Object_prototype)
      [Sample.unkeyed; Sample.locked1]
  ∧ (1 < length (Cleanup.group [Sample.unkeyed; Sample.locked1]
                   (Cleanup.key Sample.unkeyed)))%nat
  ∧ Cleanup.oldest Cleanup.sample_parse
      (Cleanup.group [Sample.unkeyed; Sample.locked1] (Cleanup.key Sample.unkeyed))
    = Some Sample.locked1
  ∧ Cleanup.idsToDelete Cleanup.sample_parse Cleanup.insertion_order
      (Some [Sample.unkeyed; Sample.locked1])
    = Some []
  ∧ Cleanup.requests Cleanup.sample_parse Cleanup.insertion_order
      (Some [Sample.unkeyed; Sample.locked1])
    = Some [].
Proof.
  split; [apply list_elem_of_here |].
  split; [refine (bool_decide_unpack _ _); vm_compute; exact I |].
  split; [vm_compute; lia |].
  split; [reflexivity |].
  split; reflexivity.
Qed.

Lemma cleanup_groups_rows_without_key_witness :
  (∀ o, NoDup o.*1 → Cleanup.insertion_order o ≡ₚ o.*2)
  ∧ NoDup (Cleanup.id <$> [Sample.untagged_3; Sample.locked1; Sample.untagged_old])
  ∧ Forall (λ r, Cleanup.key r ∉ Cleanup.Object_prototype)
      [Sample.untagged_3; Sample.locked1; Sample.untagged_old]
  ∧ (2 ≤ length (filter (λ r, Cleanup.nfc_id r = None)
                   [Sample.untagged_3; Sample.locked1; Sample.untagged_old]))%nat
  ∧ ∃ ids,
      Cleanup.idsToDelete Cleanup.sample_parse Cleanup.insertion_order
        (Some [Sample.untagged_3; Sample.locked1; Sample.untagged_old]) = Some ids
      ∧ Cleanup.id Sample.untagged_3 ∈ ids.
Proof.
  assert (H : ∀ o, NoDup o.*1 → Cleanup.insertion_order o ≡ₚ o.*2) by reflexivity.
  assert (Hnd : NoDup (Cleanup.id
                         <$> [Sample.untagged_3; Sample.locked1; Sample.untagged_old])).
  { refine (bool_decide_unpack _ _). vm_compute. exact I. }
  assert (Hplain : Forall (λ r, Cleanup.key r ∉ Cleanup.Object_prototype)
                     [Sample.untagged_3; Sample.locked1; Sample.untagged_old]).
  { refine (bool_decide_unpack _ _). vm_compute. exact I. }
  assert (Htwo : (2 ≤ length (filter (λ r, Cleanup.nfc_id r = None)
                    [Sample.untagged_3; Sample.locked1; Sample.untagged_old]))%nat).
  { vm_compute. lia. }
  split; [exact H |]. split; [exact Hnd |]. split; [exact Hplain |].
  split; [exact Htwo |].
  destruct (proj1 (proj2 (proj2 (proj2
              (cleanup_groups_rows_without_key Cleanup.sample_parse
                 Cleanup.insertion_order H _ Hnd)))) Hplain)
    as (o & ids & _ & _ & Hids & Hmarked).
  exists ids. split; [exact Hids |].
  apply (Hmarked Htwo Sample.untagged_3).
  - apply list_elem_of_here.
  - reflexivity.
  - discriminate.
  - vm_compute. discriminate.
Defined.

(** Of two rows without a key, the newer one is kept when its id is empty. *)
Lemma cleanup_keeps_untagged_row_without_id :
  (2 ≤ length (filter (λ r, Cleanup.nfc_id r = None)
                 [Sample.untagged_new; Sample.untagged_old]))%nat
  ∧ Forall (λ r, Cleanup.key r ∉ Cleanup.Object_prototype)
      [Sample.untagged_new; Sample.untagged_old]
  ∧ Cleanup.oldest Cleanup.sample_parse
      (Cleanup.group [Sample.untagged_new; Sample.untagged_old] "")
    = Some Sample.untagged_old
  ∧ Cleanup.idsToDelete Cleanup.sample_parse Cleanup.insertion_order
      (Some [Sample.untagged_new; Sample.untagged_old])
    = Some []
  ∧ Cleanup.requests Cleanup.sample_parse Cleanup.insertion_order
      (Some [Sample.untagged_new; Sample.untagged_old])
    = Some [].
Proof.
  split; [vm_compute; lia |].
  split; [refine (bool_decide_unpack _ _); vm_compute; exact I |].
  split; [reflexivity |].
  split; reflexivity.
Qed.

(** * Further properties *)

(** ** The gallery: replayed events, deletes, the bound of 16 *)

Section Replays.

Implicit Types (r updated deleted : UnlockedRow) (prev : list UnlockedRow).

Lemma withoutDup_prepend prev r : withoutDup (r :: withoutDup prev r) r = withoutDup prev r.
Proof.
  unfold withoutDup. rewrite filter_cons_False by (intros H; now apply H).
  rewrite list_filter_filter. apply list_filter_iff. intros r'. tauto.
Qed.

Lemma spread_twice r updated : spread (spread r updated) updated = spread r updated.
Proof. unfold spread. simpl. now destruct (created_at updated). Qed.

Lemma onDelete_twice deleted prev :
  onDelete deleted (onDelete deleted prev) = onDelete deleted prev.
Proof.
  unfold onDelete. rewrite list_filter_filter. apply list_filter_iff. intros r. tauto.
Qed.

Lemma withoutDup_take n prev r :
  withoutDup (take n (withoutDup prev r)) r = take n (withoutDup prev r).
Proof.
  apply filter_all, Forall_take, Forall_forall. unfold withoutDup.
  now intros r' [Hr' _]%list_elem_of_filter.
Qed.

(** An event delivered twice in a row has the effect of one delivery: in both
    revisions for INSERT, and for UPDATE and DELETE. *)
Theorem replayed_event_changes_nothing :
  (∀ newRow prev,
     Gallery.onInsert newRow (Gallery.onInsert newRow prev) = Gallery.onInsert newRow prev)
  ∧ (∀ newRow prev,
       Gallery16.onInsert newRow (Gallery16.onInsert newRow prev)
       = Gallery16.onInsert newRow prev)
  ∧ (∀ updated prev, onUpdate updated (onUpdate updated prev) = onUpdate updated prev)
  ∧ (∀ deleted prev, onDelete deleted (onDelete deleted prev) = onDelete deleted prev).
Proof.
  split; [| split; [| split]].
  - intros [r|] prev; [| done]. unfold Gallery.onInsert.
    destruct (insert_guard (Some r)); [done |]. now rewrite withoutDup_prepend.
  - intros [r|] prev; [| done]. unfold Gallery16.onInsert.
    destruct (insert_guard (Some r)); [done |].
    change (take 16 (r :: withoutDup prev r)) with (r :: take 15 (withoutDup prev r)).
    unfold withoutDup at 1. rewrite filter_cons_False by (intros H; now apply H).
    fold (withoutDup (take 15 (withoutDup prev r)) r). rewrite withoutDup_take.
    simpl. now rewrite take_take.
  - intros updated prev. unfold onUpdate. rewrite <- list_fmap_compose.
    apply list_fmap_ext. intros _ r _. simpl.
    destruct (bool_decide (id r = id updated)) eqn:Hr; rewrite ?Hr; [| done].
    rewrite bool_decide_eq_true_2 by done. apply spread_twice.
  - apply onDelete_twice.
Qed.

(** A live delete takes out every record with the id of the event and
    nothing else; when no record has that id the collection stays as it is. *)
Theorem delete_removes_exactly_the_id deleted prev :
  ids (onDelete deleted prev) = filter (λ i, i ≠ id deleted) (ids prev)
  ∧ (∀ r, r ∈ onDelete deleted prev ↔ r ∈ prev ∧ id r ≠ id deleted)
  ∧ (id deleted ∉ ids prev → onDelete deleted prev = prev).
Proof.
  split; [| split].
  - unfold ids, onDelete. induction prev as [| r prev IH]; [done |].
    rewrite fmap_cons. destruct (decide (id r ≠ id deleted)) as [Hr | Hr].
    + rewrite !filter_cons_True by done. now rewrite fmap_cons, IH.
    + rewrite !filter_cons_False by done. exact IH.
  - intros r. unfold onDelete. rewrite list_elem_of_filter. tauto.
  - intros Hnot. apply filter_all, Forall_forall. intros r Hr Heq.
    apply Hnot. rewrite <- Heq. now apply list_elem_of_fmap_2.
Qed.

Lemma delete_removes_exactly_the_id_witness :
  (id Sample.owl ∉ ids [Sample.cat; Sample.dog])
  ∧ onDelete Sample.owl [Sample.cat; Sample.dog] = [Sample.cat; Sample.dog].
Proof.
  assert (H : id Sample.owl ∉ ids [Sample.cat; Sample.dog]).
  { refine (bool_decide_unpack _ _). vm_compute. exact I. }
  split; [exact H |].
  exact (proj2 (proj2 (delete_removes_exactly_the_id Sample.owl [Sample.cat; Sample.dog])) H).
Defined.

(** A live delete after a live insert of the same row leaves what the delete
    alone would have left; in the bounded gallery, its first 15 entries when
    the insert was taken. *)
Theorem delete_undoes_insert r prev :
  onDelete r (Gallery.onInsert (Some r) prev) = onDelete r prev
  ∧ onDelete r (Gallery16.onInsert (Some r) prev)
    = (if insert_guard (Some r) then onDelete r prev else take 15 (onDelete r prev)).
Proof.
  unfold Gallery.onInsert, Gallery16.onInsert.
  destruct (insert_guard (Some r)); [done |].
  change (take 16 (r :: withoutDup prev r)) with (r :: take 15 (withoutDup prev r)).
  unfold onDelete. rewrite !filter_cons_False by (intros H; now apply H).
  split; [apply onDelete_twice |]. apply withoutDup_take.
Qed.

Lemma step16_length st ev :
  (length (Gallery16.rows st) ≤ 16)%nat →
  (length (Gallery16.rows (Gallery16.step st ev)) ≤ 16)%nat.
Proof.
  intros Hlen.
  destruct ev as [res | newRow | updated | deleted | row | row res | a];
    cbn [Gallery16.step].
  - destruct res as [data [e|] | e]; simpl; try done. rewrite length_take. lia.
  - now apply onInsert16_length.
  - simpl. unfold onUpdate. now rewrite length_fmap.
  - simpl. unfold onDelete.
    pose proof (length_filter (λ r, id r ≠ id deleted) (Gallery16.rows st)). lia.
  - destruct (Gallery16.handleDelete_begin row st) as [st'|] eqn:Hb; simpl; [| done].
    now rewrite (handleDelete_begin_rows _ _ _ Hb).
  - rewrite handleDelete_settle_rows.
    destruct res as [data [e|] | e]; try done.
    pose proof (length_filter (λ r, id r ≠ id row) (Gallery16.rows st)). lia.
  - now destruct a.
Qed.


(** Whatever happens to the bounded gallery, its collection never holds
    more than 16 records. *)
Theorem bounded_collection_fits_the_slots evs :
  (length (Gallery16.rows (Gallery16.run evs Gallery16.initial)) ≤ 16)%nat.
Proof.
  unfold Gallery16.run.
  assert (H : (length (Gallery16.rows Gallery16.initial) ≤ 16)%nat) by (simpl; lia).
  revert H. generalize Gallery16.initial.
  induction evs as [| ev evs IH]; intros st Hst; simpl; [done |].
  now apply IH, step16_length.
Qed.

End Replays.

(** ** The gallery: slots, boxes and the delete button *)

Section Sorted.

Local Open Scope list_scope.

Context {A : Type} (t : A → Z).

Lemma sort_insert_sorted (a : A) (l : list A) :
  StronglySorted (λ x y, (t y ≤ t x)%Z) l →
  StronglySorted (λ x y, (t y ≤ t x)%Z)
    (Cleanup.sort_insert (λ a b, (t b - t a)%Z) a l).
Proof.
  induction 1 as [| b l Hl IH Hb]; simpl.
  - repeat constructor.
  - destruct (Z.ltb_spec 0 (t b - t a)) as [Hlt | Hge].
    + constructor; [exact IH |].
      rewrite sort_insert_perm. constructor; [lia | exact Hb].
    + constructor; [now constructor |].
      constructor; [lia |].
      eapply Forall_impl; [exact Hb |]. simpl. intros x Hx. lia.
Qed.

Lemma Array_sort_sorted (l : list A) :
  StronglySorted (λ x y, (t y ≤ t x)%Z) (Cleanup.Array_sort (λ a b, (t b - t a)%Z) l).
Proof.
  induction l as [| a l IH]; simpl; [constructor | now apply sort_insert_sorted].
Qed.

Lemma sorted_lookup (l : list A) (i j : nat) (a b : A) :
  StronglySorted (λ x y, (t y ≤ t x)%Z) l →
  (i < j)%nat → l !! i = Some a → l !! j = Some b → (t b ≤ t a)%Z.
Proof.
  intros Hs. revert i j. induction Hs as [| x l Hl IH Hx]; intros i j Hij Hi Hj.
  - now rewrite lookup_nil in Hi.
  - destruct j as [| j]; [lia |]. simpl in Hj. destruct i as [| i].
    + injection Hi as <-. apply list_elem_of_lookup_2 in Hj.
      rewrite Forall_forall in Hx. now apply Hx.
    + simpl in Hi. apply (IH i j); [lia | done | done].
Qed.

(** Entries of equal rank keep their order. *)
Lemma sort_insert_stable_by (n : Z) (a : A) (l : list A) :
  filter (λ r, t r = n) (Cleanup.sort_insert (λ a b, (t b - t a)%Z) a l)
  = filter (λ r, t r = n) (a :: l).
Proof.
  induction l as [| b l IH]; simpl; [done |].
  destruct (Z.ltb_spec 0 (t b - t a)) as [Hlt | Hge]; [| done].
  rewrite (filter_cons _ b), IH, !filter_cons.
  repeat case_decide; try done; lia.
Qed.

Lemma Array_sort_stable_by (n : Z) (l : list A) :
  filter (λ r, t r = n) (Cleanup.Array_sort (λ a b, (t b - t a)%Z) l)
  = filter (λ r, t r = n) l.
Proof.
  induction l as [| a l IH]; simpl; [done |].
  now rewrite sort_insert_stable_by, !filter_cons, IH.
Qed.

End Sorted.

Section SlotFacts.

Import Slots.

Local Open Scope list_scope.

Context (getTime : jsval → Z).

Local Abbreviation stamp := (Slots.stamp getTime).
Local Abbreviation desc := (Slots.desc getTime).
Local Abbreviation slotToRow := (Slots.slotToRow getTime).
Local Abbreviation visibleIdx := (Slots.visibleIdx getTime).

Implicit Types (rows : list UnlockedRow) (slot : nat).

Lemma fill_lookup (sorted : list UnlockedRow) (slots : list nat)
    (m : gmap nat UnlockedRow) slot :
  foldl (λ m slot,
           match sorted !! (slot - 1)%nat with
           | Some item => <[slot := item]> m
           | None => m
           end) m slots !! slot
  = if decide (slot ∈ slots)
    then match sorted !! (slot - 1)%nat with
         | Some item => Some item
         | None => m !! slot
         end
    else m !! slot.
Proof.
  revert m. induction slots as [| a slots IH]; intros m; cbn [foldl].
  - destruct (decide (slot ∈ [])) as [Hin | _]; [| done].
    now apply elem_of_nil in Hin.
  - rewrite IH. destruct (decide (a = slot)) as [-> | Hne].
    + destruct (decide (slot ∈ slot :: slots)) as [_ | Hin];
        [| exfalso; apply Hin, list_elem_of_here].
      destruct (sorted !! (slot - 1)%nat) as [item|] eqn:Hitem.
      * rewrite lookup_insert_eq. now destruct (decide (slot ∈ slots)).
      * now destruct (decide (slot ∈ slots)).
    + assert (Hm : match sorted !! (a - 1)%nat with
                   | Some item => <[a := item]> m
                   | None => m
                   end !! slot = m !! slot).
      { destruct (sorted !! (a - 1)%nat); [now apply lookup_insert_ne | done]. }
      rewrite Hm.
      destruct (decide (slot ∈ slots)) as [Hin | Hin];
        destruct (decide (slot ∈ a :: slots)) as [Hin' | Hin']; try done.
      * exfalso. now apply Hin', list_elem_of_further.
      * apply elem_of_cons in Hin' as [-> | Hin']; done.
Qed.

Lemma slotToRow_lookup rows slot :
  slotToRow rows !! slot
  = if decide (1 ≤ slot ≤ 16)%nat then desc rows !! (slot - 1)%nat else None.
Proof.
  unfold Slots.slotToRow. rewrite fill_lookup, lookup_empty.
  destruct (decide (slot ∈ seq 1 16)) as [Hin | Hin];
    destruct (decide (1 ≤ slot ≤ 16)%nat) as [Hr | Hr]; try done.
  - now destruct (desc rows !! (slot - 1)%nat).
  - apply elem_of_seq in Hin. lia.
  - exfalso. apply Hin, elem_of_seq. lia.
Qed.

Lemma filter_seq_lt (n m : nat) :
  filter (λ i, i < n)%nat (seq 0 m) = seq 0 (min m n).
Proof.
  induction m as [| m IH]; [done |].
  rewrite seq_S, filter_app, IH, Nat.add_0_l.
  destruct (decide (m < n)%nat) as [Hlt | Hge].
  - rewrite filter_cons_True, filter_nil by done.
    replace (min (S m) n) with (S m) by lia.
    replace (min m n) with m by lia. now rewrite seq_S.
  - rewrite filter_cons_False, filter_nil, app_nil_r by done. f_equal. lia.
Qed.

Lemma filter_iff_in {A} (P Q : A → Prop) `{!∀ x, Decision (P x), !∀ x, Decision (Q x)}
    (l : list A) :
  (∀ x, x ∈ l → P x ↔ Q x) → filter P l = filter Q l.
Proof.
  induction l as [| a l IH]; intros Hiff; [done |].
  rewrite !filter_cons.
  assert (Ha : P a ↔ Q a) by apply Hiff, list_elem_of_here.
  rewrite IH by (intros x Hx; now apply Hiff, list_elem_of_further).
  destruct (decide (P a)), (decide (Q a)); tauto.
Qed.

(** Slot [s], from 1 to 16, shows the record that comes at place [s] when the
    collection is put in descending order of [created_at] (none counting as
    0); no other slot exists.  A lower slot never shows an older record than
    a higher one, and the frames that are rendered are those of slots 1 to
    [min 16 n] for a collection of [n] records, without a gap. *)
Theorem slots_show_the_newest_first rows :
  (∀ slot,
     slotToRow rows !! slot
     = if decide (1 ≤ slot ≤ 16)%nat then desc rows !! (slot - 1)%nat else None)
  ∧ desc rows ≡ₚ rows
  ∧ (∀ s1 s2 a b,
       (s1 < s2)%nat → slotToRow rows !! s1 = Some a → slotToRow rows !! s2 = Some b →
       (stamp b ≤ stamp a)%Z)
  ∧ visibleIdx rows = seq 0 (min 16 (length rows)).
Proof.
  split; [apply slotToRow_lookup |]. split; [apply Array_sort_perm |]. split.
  - intros s1 s2 a b Hlt. rewrite !slotToRow_lookup.
    repeat case_decide; try done. intros Ha Hb.
    eapply (sorted_lookup stamp (desc rows) (s1 - 1) (s2 - 1));
      [apply Array_sort_sorted | lia | done | done].
  - unfold Slots.visibleIdx. rewrite <- filter_seq_lt.
    apply filter_iff_in. intros i Hi%elem_of_seq. rewrite slotToRow_lookup.
    replace (i + 1 - 1)%nat with i by lia.
    assert (Hlen : length (desc rows) = length rows)
      by (apply Permutation_length, Array_sort_perm).
    rewrite <- Hlen. rewrite decide_True by lia. apply lookup_lt_is_Some.
Qed.


End SlotFacts.

Lemma slots_show_the_newest_first_witness :
  (1 < 2)%nat
  ∧ Slots.slotToRow Slots.sample_getTime [Slots.monday; Slots.tuesday] !! 1%nat
    = Some Slots.tuesday
  ∧ Slots.slotToRow Slots.sample_getTime [Slots.monday; Slots.tuesday] !! 2%nat
    = Some Slots.monday
  ∧ (Slots.stamp Slots.sample_getTime Slots.monday
     ≤ Slots.stamp Slots.sample_getTime Slots.tuesday)%Z.
Proof.
  assert (H12 : (1 < 2)%nat) by lia.
  assert (H1 : Slots.slotToRow Slots.sample_getTime [Slots.monday; Slots.tuesday] !! 1%nat
               = Some Slots.tuesday) by reflexivity.
  assert (H2 : Slots.slotToRow Slots.sample_getTime [Slots.monday; Slots.tuesday] !! 2%nat
               = Some Slots.monday) by reflexivity.
  split; [exact H12 |]. split; [exact H1 |]. split; [exact H2 |].
  exact (proj1 (proj2 (proj2 (slots_show_the_newest_first Slots.sample_getTime
                                [Slots.monday; Slots.tuesday])))
           1%nat 2%nat Slots.tuesday Slots.monday H12 H1 H2).
Defined.


Section Boxes.

Import Slots.

Local Open Scope list_scope.

Implicit Types (frames : list FrameLayout) (b : Setting.view).

Lemma Math_max_ge (first : Q) (rest : list Q) :
  (first <= Math_max first rest)%Q ∧ ∀ q, q ∈ rest → (q <= Math_max first rest)%Q.
Proof.
  unfold Math_max. revert first. induction rest as [| a rest IH]; intros first; simpl.
  - split; [apply Qle_refl |]. intros q Hq. now apply elem_of_nil in Hq.
  - destruct (Qle_bool first a) eqn:Hle.
    + apply Qle_bool_iff in Hle. destruct (IH a) as [Ha Hrest]. split.
      * now apply Qle_trans with a.
      * intros q [-> | Hq]%elem_of_cons; [done | now apply Hrest].
    + assert (Hlt : (a <= first)%Q).
      { destruct (Qlt_le_dec first a) as [Hlt | Hge]; [| done].
        apply Qlt_le_weak, Qle_bool_iff in Hlt. congruence. }
      destruct (IH first) as [Hf Hrest]. split; [done |].
      intros q [-> | Hq]%elem_of_cons; [| now apply Hrest].
      now apply Qle_trans with first.
Qed.

Lemma Math_max_in (first : Q) (rest : list Q) :
  Math_max first rest = first ∨ Math_max first rest ∈ rest.
Proof.
  unfold Math_max. revert first. induction rest as [| a rest IH]; intros first; simpl.
  - now left.
  - destruct (Qle_bool first a).
    + right. destruct (IH a) as [-> | Hin];
        [apply list_elem_of_here | now apply list_elem_of_further].
    + destruct (IH first) as [-> | Hin]; [now left |].
      right. now apply list_elem_of_further.
Qed.

(** The rounding of the engine's arithmetic. *)
Context (fl : Q → Q).

(** The canvas is at least 1200 by 800 and at least as wide and as high as
    the right and the bottom edge of every rendered box with 32 added, each
    sum as the engine computes it; and it is no larger than that: its width
    is 1200 or that sum for one of the boxes, and its height is 800 or that
    sum for one of the boxes.  Nothing is said of the left and top edges. *)
Theorem canvas_holds_every_box (boxes : list Setting.view) :
  (1200 <= canvasW fl boxes)%Q ∧ (800 <= canvasH fl boxes)%Q
  ∧ (∀ b, b ∈ boxes →
          (fl (fl (Setting.x b + Setting.w b) + 32) <= canvasW fl boxes)%Q
          ∧ (fl (fl (Setting.y b + Setting.h b) + 32) <= canvasH fl boxes)%Q)
  ∧ (canvasW fl boxes = 1200%Q
     ∨ ∃ b, b ∈ boxes ∧ canvasW fl boxes = fl (fl (Setting.x b + Setting.w b) + 32)%Q)
  ∧ (canvasH fl boxes = 800%Q
     ∨ ∃ b, b ∈ boxes ∧ canvasH fl boxes = fl (fl (Setting.y b + Setting.h b) + 32)%Q).
Proof.
  unfold canvasW, canvasH.
  split; [apply (proj1 (Math_max_ge _ _)) |].
  split; [apply (proj1 (Math_max_ge _ _)) |].
  split; [| split].
  - intros b Hb. destruct boxes as [| b0 boxes]; [now apply elem_of_nil in Hb |].
    split.
    + apply (proj2 (Math_max_ge _ _)).
      now apply (list_elem_of_fmap_2 (λ b, fl (fl (Setting.x b + Setting.w b) + 32))%Q).
    + apply (proj2 (Math_max_ge _ _)).
      now apply (list_elem_of_fmap_2 (λ b, fl (fl (Setting.y b + Setting.h b) + 32))%Q).
  - destruct boxes as [| b0 boxes]; [now left |].
    destruct (Math_max_in 1200
                ((λ b, fl (fl (Setting.x b + Setting.w b) + 32))%Q <$> b0 :: boxes))
      as [-> | Hin]; [now left |].
    right. apply list_elem_of_fmap in Hin as (b & Hb & Hin). now exists b.
  - destruct boxes as [| b0 boxes]; [now left |].
    destruct (Math_max_in 800
                ((λ b, fl (fl (Setting.y b + Setting.h b) + 32))%Q <$> b0 :: boxes))
      as [-> | Hin]; [now left |].
    right. apply list_elem_of_fmap in Hin as (b & Hb & Hin). now exists b.
Qed.

(** Two slots without a stored frame get cells of the grid that share no
    point. *)
Theorem default_boxes_are_apart frames (i j : nat) :
  frames !! i = None → frames !! j = None → i ≠ j →
  apart (getBox frames i) (getBox frames j).
Proof.
  intros Hi Hj Hne. unfold getBox, apart. rewrite Hi, Hj.
  cbn [Setting.x Setting.y Setting.w Setting.h].
  unfold Qle, Qplus, inject_Z. cbn [Qnum Qden].
  pose proof (Nat.div_mod_eq i 4) as Ei. pose proof (Nat.div_mod_eq j 4) as Ej.
  pose proof (Nat.mod_upper_bound i 4 ltac:(lia)) as Bi.
  pose proof (Nat.mod_upper_bound j 4 ltac:(lia)) as Bj.
  destruct (Nat.lt_total (i mod 4) (j mod 4)) as [H | [H | H]];
    [left; lia | | right; left; lia].
  destruct (Nat.lt_total (i / 4) (j / 4)) as [H' | [H' | H']];
    [right; right; left; lia | lia | right; right; right; lia].
Qed.

Lemma default_boxes_are_apart_witness :
  ([] : list FrameLayout) !! 2%nat = None
  ∧ ([] : list FrameLayout) !! 7%nat = None
  ∧ apart (getBox [] 2) (getBox [] 7).
Proof.
  split; [reflexivity |]. split; [reflexivity |].
  apply (default_boxes_are_apart [] 2 7); [reflexivity | reflexivity | lia].
Defined.

End Boxes.

(** Two default cells, whose canvas is 1200 wide; a frame stored far to the
    left leaves the canvas at 1200 as well. *)
Lemma canvas_holds_every_box_witness :
  Slots.getBox [] 5 ∈ Slots.getBox [] <$> [0; 5]%nat
  ∧ (Double.nearest
       (Double.nearest (Setting.x (Slots.getBox [] 5) + Setting.w (Slots.getBox [] 5))
        + 32)
     <= Slots.canvasW Double.nearest (Slots.getBox [] <$> [0; 5]%nat))%Q
  ∧ Slots.canvasW Double.nearest
      [ {| Setting.x := - 400; Setting.y := 0; Setting.w := 100; Setting.h := 100 |} ]
    = 1200%Q.
Proof.
  assert (H : Slots.getBox [] 5 ∈ Slots.getBox [] <$> [0; 5]%nat).
  { apply list_elem_of_further, list_elem_of_here. }
  split; [exact H |]. split; [| reflexivity].
  exact (proj1 (proj1 (proj2 (proj2 (canvas_holds_every_box Double.nearest
                                       (Slots.getBox [] <$> [0; 5]%nat))))
                  (Slots.getBox [] 5) H)).
Defined.

Section InFlight.

Implicit Types (row : UnlockedRow) (st : Gallery16.state).

Lemma step16_deleting i st ev :
  Slots.not_delete_of i ev →
  Gallery16.deleting (Gallery16.step st ev) !! i = Gallery16.deleting st !! i.
Proof.
  intros Hev.
  destruct ev as [res | newRow | updated | deleted | row | row res | a];
    cbn [Gallery16.step]; try done.
  - now destruct res as [data [e|] | e].
  - unfold Gallery16.handleDelete_begin.
    destruct (truthy_str (id row)); [| done]. simpl. now apply lookup_insert_ne.
  - rewrite handleDelete_settle_deleting. now apply lookup_delete_ne.
  - now destruct a.
Qed.

Lemma run16_deleting i evs st :
  Forall (Slots.not_delete_of i) evs →
  Gallery16.deleting (Gallery16.run evs st) !! i = Gallery16.deleting st !! i.
Proof.
  intros Hevs. revert st. unfold Gallery16.run.
  induction Hevs as [| ev evs Hev _ IH]; intros st; simpl; [done |].
  now rewrite IH, step16_deleting.
Qed.

(** Once the delete button of a row with an id is pressed, the button stays
    disabled through whatever other events arrive, until the answer to the
    remote delete has been handled; then it is enabled again. *)
Theorem delete_button_disabled_while_in_flight row st evs res :
  truthy_str (id row) = true →
  Forall (Slots.not_delete_of (id row)) evs →
  Slots.disabled (Gallery16.run evs (Gallery16.step st (Gallery16.Click row))) row = true
  ∧ Slots.disabled
      (Gallery16.step (Gallery16.run evs (Gallery16.step st (Gallery16.Click row)))
         (Gallery16.Settled row res)) row
    = false.
Proof.
  intros Hid Hevs. unfold Slots.disabled. split.
  - rewrite (run16_deleting _ _ _ Hevs). cbn [Gallery16.step].
    unfold Gallery16.handleDelete_begin. rewrite Hid. simpl.
    now rewrite lookup_insert_eq.
  - cbn [Gallery16.step]. rewrite handleDelete_settle_deleting.
    now rewrite lookup_delete_eq.
Qed.

Lemma delete_button_disabled_while_in_flight_witness :
  truthy_str (id Sample.dog) = true
  ∧ Forall (Slots.not_delete_of (id Sample.dog))
      [Gallery16.Insert (Some Sample.owl); Gallery16.Click Sample.cat]
  ∧ Slots.disabled
      (Gallery16.run [Gallery16.Insert (Some Sample.owl); Gallery16.Click Sample.cat]
         (Gallery16.step Gallery16.initial (Gallery16.Click Sample.dog)))
      Sample.dog
    = true.
Proof.
  assert (H : Forall (Slots.not_delete_of (id Sample.dog))
                [Gallery16.Insert (Some Sample.owl); Gallery16.Click Sample.cat]).
  { repeat (apply Forall_cons; split); try apply Forall_nil; simpl; done. }
  split; [reflexivity |]. split; [exact H |].
  exact (proj1 (delete_button_disabled_while_in_flight Sample.dog Gallery16.initial
                  [Gallery16.Insert (Some Sample.owl); Gallery16.Click Sample.cat]
                  (Resolved None None) eq_refl H)).
Defined.

End InFlight.

(** ** The layout editor *)

Section EditorFacts.

Import Editor.

Local Open Scope list_scope.

Implicit Types (st : state) (d : Setting.session) (e : Setting.MouseEvent)
  (prev next : gmap string Setting.view) (i : string).

(** The rounding of the engine's arithmetic. *)
Context (fl : Q → Q).

Lemma Math_round_Z (z : Z) : Setting.Math_round (inject_Z z) = z.
Proof.
  unfold Setting.Math_round.
  assert (Hlo : (inject_Z z <= inject_Z z + (1 # 2))%Q).
  { rewrite <- (Qplus_0_r (inject_Z z)) at 1. apply Qplus_le_r. discriminate. }
  assert (Hhi : (inject_Z z + (1 # 2) < inject_Z (z + 1))%Q).
  { rewrite inject_Z_plus. apply Qplus_lt_r. reflexivity. }
  apply Z.le_antisymm.
  - apply Z.lt_succ_r. rewrite Zlt_Qlt.
    eapply Qle_lt_trans; [apply Qfloor_le |]. exact Hhi.
  - rewrite <- (Qfloor_Z z) at 1. now apply Qfloor_resp_le.
Qed.


(** An updater of the drag that builds a new mapping builds a different one. *)
Lemma moved_changes d e prev next : Setting.moved fl d e prev = Some next → next ≠ prev.
Proof.
  unfold Setting.moved. cbv zeta.
  destruct (Setting.same_rounded fl _ d e) eqn:Hsame; [done |].
  intros [= <-] Heq.
  assert (Hl : (<[Setting.id d :=
                   {| Setting.x := Setting.nextX fl d e; Setting.y := Setting.nextY fl d e;
                      Setting.w := Setting.w (Setting.current prev (Setting.id d));
                      Setting.h := Setting.h (Setting.current prev (Setting.id d)) |}]> prev)
                !! Setting.id d = prev !! Setting.id d) by now rewrite Heq.
  rewrite lookup_insert_eq in Hl.
  unfold Setting.same_rounded, Setting.current in Hsame. rewrite <- Hl in Hsame.
  simpl in Hsame. now rewrite !Z.eqb_refl in Hsame.
Qed.

Lemma resized_changes i width height prev next :
  resized i width height prev = Some next → next ≠ prev.
Proof.
  unfold resized. cbv zeta.
  destruct (_ && _) eqn:Hsame; [done |].
  intros [= <-] Heq.
  match type of Heq with <[_ := ?v]> _ = _ =>
    assert (Hl : prev !! i = Some v) by (rewrite <- Heq at 1; apply lookup_insert_eq)
  end.
  rewrite Hl in Hsame. simpl in Hsame.
  now rewrite !Math_round_Z, !Z.eqb_refl in Hsame.
Qed.

Lemma resized_absent i width height prev :
  prev !! i = None → resized i width height prev = None.
Proof.
  intros Hi. unfold resized. rewrite Hi. simpl. now rewrite !Z.eqb_refl.
Qed.

Lemma flush_twice Object_entries st :
  flush Object_entries (flush Object_entries st) = flush Object_entries st.
Proof.
  unfold flush. destruct (timer st) as [snapshot|] eqn:Ht; simpl; [reflexivity |].
  now rewrite Ht.
Qed.

Lemma setViews_timer f st :
  match timer st with Some snapshot => snapshot = views st | None => True end →
  match timer (setViews f st) with
  | Some snapshot => snapshot = views (setViews f st)
  | None => True
  end.
Proof. unfold setViews. now destruct (f (views st)). Qed.

Lemma step_timer Object_entries st ev :
  match timer st with Some snapshot => snapshot = views st | None => True end →
  match timer (step fl Object_entries st ev) with
  | Some snapshot => snapshot = views (step fl Object_entries st ev)
  | None => True
  end.
Proof.
  intros Hst. destruct ev as [res | i el e | e | | i width height | | res]; simpl.
  - now destruct res as [data [err|] | err].
  - unfold onMouseDown. simpl. destruct (negb _); [done |].
    destruct el as [el|]; [| done]. now destruct (_ && _).
  - unfold onMove. destruct (dragging st); [| done]. now apply setViews_timer.
  - done.
  - now apply setViews_timer.
  - unfold flush. destruct (timer st) eqn:Ht; simpl; [done | now rewrite Ht].
  - now destruct res as [data [err|] | err].
Qed.

(** Whatever happened since the page was mounted, a pending save timer
    holds the mapping as it is now; so when the timer fires, what goes to
    [upsert] is made from the current mapping, and a second expiry without a
    change in between sends nothing more. *)
Theorem pending_save_holds_the_current_mapping Object_entries evs :
  match timer (run fl Object_entries evs initial) with
  | Some snapshot => snapshot = views (run fl Object_entries evs initial)
  | None => True
  end
  ∧ (timer (run fl Object_entries evs initial) ≠ None →
     sent (flush Object_entries (run fl Object_entries evs initial))
     = match payload Object_entries (views (run fl Object_entries evs initial)) with
       | Some p => sent (run fl Object_entries evs initial) ++ [p]
       | None => sent (run fl Object_entries evs initial)
       end)
  ∧ flush Object_entries (flush Object_entries (run fl Object_entries evs initial))
    = flush Object_entries (run fl Object_entries evs initial).
Proof.
  assert (Hinv : match timer (run fl Object_entries evs initial) with
                 | Some snapshot => snapshot = views (run fl Object_entries evs initial)
                 | None => True
                 end).
  { unfold run.
    assert (H0 : match timer initial with
                 | Some snapshot => snapshot = views initial
                 | None => True
                 end) by reflexivity.
    revert H0. generalize initial.
    induction evs as [| ev evs IH]; intros st Hst; simpl; [done |].
    now apply IH, step_timer. }
  split; [exact Hinv |]. split; [| apply flush_twice].
  intros Hpending. unfold flush.
  destruct (timer (run fl Object_entries evs initial)) as [snapshot|]; [| done].
  simpl. now rewrite Hinv.
Qed.


(** A gesture that leaves the mapping as it was neither arms nor clears the
    save timer and sends nothing: a drag that ends on the same rounded spot,
    a resize to the same rounded size, a press or a release cause no save. *)
Theorem unchanged_mapping_causes_no_save Object_entries st ev :
  gesture ev →
  views (step fl Object_entries st ev) = views st →
  timer (step fl Object_entries st ev) = timer st
  ∧ sent (step fl Object_entries st ev) = sent st.
Proof.
  intros Hev. destruct ev as [res | i el e | e | | i width height | | res]; simpl;
    try done.
  - intros _. unfold onMouseDown. simpl. destruct (negb _); [done |].
    destruct el as [el|]; [| done]. now destruct (_ && _).
  - unfold onMove. destruct (dragging st) as [d|]; [| done]. unfold setViews.
    destruct (Setting.moved fl d e (views st)) as [next|] eqn:Hm; [| done].
    simpl. intros ->. now apply moved_changes in Hm.
  - unfold onResize, setViews.
    destruct (resized i width height (views st)) as [next|] eqn:Hm; [| done].
    simpl. intros ->. now apply resized_changes in Hm.
  - intros _. now destruct res as [data [err|] | err].
Qed.



(** A press on frame [i] raises it above all others and touches neither the
    mapping nor the save timer.  With the primary button, on a mounted
    canvas, and not within 18 px of both the right and the bottom edge of the
    frame, it opens a session that records where in the frame the pointer is
    and where the canvas stands; any other press leaves the session cell as it
    was.  The distances are differences in the engine's arithmetic.  A release
    closes the session, and a move without a session does nothing. *)
Theorem press_opens_a_session_outside_the_grip i el p st :
  topId (onMouseDown fl i el p st) = Some i
  ∧ (∀ j, zIndex (onMouseDown fl i el p st) j = if bool_decide (j = i) then 1000%Z else 1%Z)
  ∧ views (onMouseDown fl i el p st) = views st
  ∧ timer (onMouseDown fl i el p st) = timer st
  ∧ (∀ c, button p = 0%Z → el = Some c →
          ¬ ((fl (right (cardRect p) - Setting.clientX (pointer p)) <= 18)%Q
             ∧ (fl (bottom (cardRect p) - Setting.clientY (pointer p)) <= 18)%Q) →
          dragging (onMouseDown fl i el p st)
          = Some {| Setting.id := i;
                    Setting.offsetX := fl (Setting.clientX (pointer p) - left (cardRect p))%Q;
                    Setting.offsetY := fl (Setting.clientY (pointer p) - top (cardRect p))%Q;
                    Setting.canvasLeft := left (rect c);
                    Setting.canvasTop := top (rect c);
                    Setting.scrollLeft := scrollLeft c;
                    Setting.scrollTop := scrollTop c |})
  ∧ (button p ≠ 0%Z ∨ el = None
     ∨ ((fl (right (cardRect p) - Setting.clientX (pointer p)) <= 18)%Q
        ∧ (fl (bottom (cardRect p) - Setting.clientY (pointer p)) <= 18)%Q) →
     dragging (onMouseDown fl i el p st) = dragging st)
  ∧ dragging (onUp st) = None
  ∧ (dragging st = None → ∀ e', onMove fl e' st = st).
Proof.
  assert (Hgrip : ∀ a b : Q,
             Qle_bool a 18 && Qle_bool b 18 = true ↔ (a <= 18)%Q ∧ (b <= 18)%Q).
  { intros a b. now rewrite andb_true_iff, !Qle_bool_iff. }
  assert (Htop : topId (onMouseDown fl i el p st) = Some i).
  { unfold onMouseDown. cbv zeta. destruct (negb _); [done |].
    destruct el as [c|]; [| done]. now destruct (_ && _). }
  split; [exact Htop |]. split.
  { intros j. unfold zIndex. rewrite Htop. repeat case_bool_decide; congruence. }
  unfold onMouseDown. cbv zeta.
  split; [| split; [| split; [| split; [| split]]]].
  - destruct (negb _); [done |]. destruct el as [c|]; [| done]. now destruct (_ && _).
  - destruct (negb _); [done |]. destruct el as [c|]; [| done]. now destruct (_ && _).
  - intros c Hb -> Hout. rewrite Hb. simpl.
    destruct (_ && _) eqn:Hg; [| done]. now apply Hgrip in Hg.
  - intros [Hb | [-> | Hin]].
    + apply Z.eqb_neq in Hb. now rewrite Hb.
    + now destruct (negb _).
    + destruct (negb _); [done |]. destruct el as [c|]; [| done].
      apply Hgrip in Hin. now rewrite Hin.
  - done.
  - intros Hd e'. unfold onMove. now rewrite Hd.
Qed.





(** A resize observation never adds a frame to the mapping.  For a frame
    that is there it keeps the place and either leaves the state as it is,
    when both rounded sizes are those already stored, or stores the observed
    width and height rounded to integers and arms the save timer.  The same
    observation once more changes nothing. *)
Theorem resize_rounds_and_keeps_the_place i width height st :
  (views st !! i = None → onResize i width height st = st)
  ∧ (∀ cur, views st !! i = Some cur →
       (onResize i width height st = st
        ∧ Setting.Math_round (Setting.w cur) = Setting.Math_round width
        ∧ Setting.Math_round (Setting.h cur) = Setting.Math_round height)
       ∨ (views (onResize i width height st)
          = <[i := {| Setting.x := Setting.x cur; Setting.y := Setting.y cur;
                      Setting.w := inject_Z (Setting.Math_round width);
                      Setting.h := inject_Z (Setting.Math_round height) |}]> (views st)
          ∧ timer (onResize i width height st) = Some (views (onResize i width height st))
          ∧ ¬ (Setting.Math_round (Setting.w cur) = Setting.Math_round width
               ∧ Setting.Math_round (Setting.h cur) = Setting.Math_round height)))
  ∧ onResize i width height (onResize i width height st) = onResize i width height st
  ∧ dragging (onResize i width height st) = dragging st
  ∧ topId (onResize i width height st) = topId st.
Proof.
  unfold onResize, setViews. split; [| split; [| split]].
  - intros Hi. now rewrite resized_absent.
  - intros cur Hcur. unfold resized. rewrite Hcur. cbv zeta. simpl default.
    destruct (_ && _) eqn:Hsame.
    + left. apply andb_true_iff in Hsame as [Hw Hh].
      apply Z.eqb_eq in Hw, Hh. now repeat split.
    + right. simpl. split; [done |]. split; [done |].
      intros [Hw Hh]. rewrite Hw, Hh, !Z.eqb_refl in Hsame. discriminate.
  - destruct (resized i width height (views st)) as [next|] eqn:Hr; simpl.
    + assert (Hagain : resized i width height next = None); [| now rewrite Hagain].
      unfold resized in Hr |- *. cbv zeta in Hr |- *.
      destruct (_ && _) in Hr; [done |]. injection Hr as <-.
      rewrite lookup_insert_eq. simpl. now rewrite !Math_round_Z, !Z.eqb_refl.
    + now rewrite Hr.
  - now destruct (resized i width height (views st)).
Qed.


Lemma loaded_lookup data i :
  loaded data !! i = view_of <$> last (filter (λ it, id it = i) (taken data)).
Proof.
  unfold loaded, taken. induction (default [] data) as [| a l IH] using rev_ind; [done |].
  rewrite foldl_snoc, omap_app, !filter_app. destruct a as [it|]; simpl.
  - destruct (truthy_str (id it)) eqn:Hid.
    + rewrite (filter_cons_True _ it) by done. rewrite filter_nil.
      destruct (decide (id it = i)) as [<- | Hne].
      * rewrite lookup_insert_eq, filter_cons_True, filter_nil by done.
        now rewrite last_snoc.
      * rewrite lookup_insert_ne, filter_cons_False, filter_nil, !app_nil_r by done.
        exact IH.
    + rewrite (filter_cons_False _ it) by (rewrite Hid; done).
      rewrite filter_nil, !app_nil_r. exact IH.
  - rewrite !app_nil_r. exact IH.
Qed.



Section Payload.

Context (Object_entries : gmap string Setting.view → list (string * Setting.view)).

(** The engine enumerates every entry of an object once. *)
Context (Object_entries_perm : ∀ m, Object_entries m ≡ₚ map_to_list m).




(** What a save sends: nothing exactly when there is no frame in the mapping,
    and otherwise one record for each frame and no other, holding the rounded
    box of that frame. *)
Theorem save_sends_every_frame_once m :
  (payload Object_entries m = None ↔ m = ∅)
  ∧ (∀ p, payload Object_entries m = Some p →
       NoDup (rid <$> p)
       ∧ (∀ r, r ∈ p ↔ ∃ v, m !! rid r = Some v ∧ r = round_entry (rid r, v))).
Proof.
  unfold payload. split.
  - case_bool_decide as Hlen.
    + split; [intros _ | done]. apply map_to_list_empty_iff, Permutation_nil_r.
      rewrite <- Object_entries_perm. now rewrite (nil_length_inv _ Hlen).
    + split; [done |]. intros ->. exfalso. apply Hlen.
      now rewrite Object_entries_perm, map_to_list_empty.
  - intros p Hp. case_bool_decide; [done |]. injection Hp as <-. split.
    + rewrite <- list_fmap_compose, Object_entries_perm.
      apply NoDup_fst_map_to_list.
    + intros r. rewrite list_elem_of_fmap. split.
      * intros ([i v] & -> & Hin). exists v. split; [| done].
        rewrite Object_entries_perm in Hin. now apply elem_of_map_to_list.
      * intros (v & Hv & Hr). exists (rid r, v). split; [done |].
        rewrite Object_entries_perm. now apply elem_of_map_to_list.
Qed.


End Payload.



End EditorFacts.

Section EditorRuns.

Import Editor.

Local Open Scope list_scope.

Lemma pending_save_holds_the_current_mapping_witness :
  timer (run Double.nearest entries_of [Loaded (Resolved (Some (Some <$> sample_rows)) None);
                         MouseDown "frame-1" (Some sample_canvas) sample_press;
                         MouseMove {| Setting.clientX := 150; Setting.clientY := 90 |}]
           initial) ≠ None
  ∧ length (sent (flush entries_of
                    (run Double.nearest entries_of
                       [Loaded (Resolved (Some (Some <$> sample_rows)) None);
                        MouseDown "frame-1" (Some sample_canvas) sample_press;
                        MouseMove {| Setting.clientX := 150; Setting.clientY := 90 |}]
                       initial))) = 1%nat.
Proof.
  assert (Hpending :
            timer (run Double.nearest entries_of
                     [Loaded (Resolved (Some (Some <$> sample_rows)) None);
                      MouseDown "frame-1" (Some sample_canvas) sample_press;
                      MouseMove {| Setting.clientX := 150; Setting.clientY := 90 |}]
                     initial) ≠ None).
  { vm_compute. discriminate. }
  split; [exact Hpending |].
  rewrite (proj1 (proj2 (pending_save_holds_the_current_mapping Double.nearest entries_of _)) Hpending).
  vm_compute. reflexivity.
Defined.

Lemma unchanged_mapping_causes_no_save_witness :
  gesture (Resize "frame-1" (2601 # 10) (1799 # 10))
  ∧ timer (step Double.nearest entries_of sample_state (Resize "frame-1" (2601 # 10) (1799 # 10)))
    = None.
Proof.
  split; [exact I |].
  apply (unchanged_mapping_causes_no_save Double.nearest entries_of sample_state
           (Resize "frame-1" (2601 # 10) (1799 # 10)) I).
  vm_compute. reflexivity.
Defined.

Lemma press_opens_a_session_outside_the_grip_witness :
  button sample_press = 0%Z
  ∧ dragging (onMouseDown Double.nearest "frame-1" (Some sample_canvas) sample_press
                sample_state)
    = Some {| Setting.id := "frame-1";
              Setting.offsetX := 10; Setting.offsetY := 10;
              Setting.canvasLeft := 100; Setting.canvasTop := 50;
              Setting.scrollLeft := 0; Setting.scrollTop := 0 |}.
Proof.
  split; [reflexivity |].
  apply (proj1 (proj2 (proj2 (proj2 (proj2
           (press_opens_a_session_outside_the_grip Double.nearest
              "frame-1" (Some sample_canvas) sample_press sample_state)))))
           sample_canvas eq_refl eq_refl).
  intros [Hright _]. vm_compute in Hright. now apply Hright.
Defined.

Lemma resize_rounds_and_keeps_the_place_witness :
  views sample_state !! "frame-9" = None
  ∧ onResize "frame-9" (2596 # 10) 180 sample_state = sample_state
  ∧ views sample_state !! "frame-1" = Some sample_view
  ∧ views (onResize "frame-1" (2596 # 10) 180 sample_state) !! "frame-1"
    = Some sample_view.
Proof.
  split; [reflexivity |]. split.
  - exact (proj1 (resize_rounds_and_keeps_the_place "frame-9" (2596 # 10) 180 sample_state)
             eq_refl).
  - split; [reflexivity |].
    destruct (proj1 (proj2 (resize_rounds_and_keeps_the_place "frame-1" (2596 # 10) 180
                              sample_state)) sample_view eq_refl)
      as [(Hsame & _) | (_ & _ & Hne)].
    + now rewrite Hsame.
    + exfalso. apply Hne. split; reflexivity.
Defined.


Lemma save_sends_every_frame_once_witness :
  payload entries_of (views sample_state)
  = Some [ {| rid := "frame-1"; rx := 10; ry := 10; rw := 260; rh := 180 |} ]
  ∧ NoDup (rid <$> [ {| rid := "frame-1"; rx := 10; ry := 10; rw := 260; rh := 180 |} ]).
Proof.
  assert (Hp : payload entries_of (views sample_state)
               = Some [ {| rid := "frame-1"; rx := 10; ry := 10; rw := 260; rh := 180 |} ])
    by (vm_compute; reflexivity).
  split; [exact Hp |].
  exact (proj1 (proj2 (save_sends_every_frame_once entries_of (λ m, reflexivity _)
                         (views sample_state)) _ Hp)).
Defined.


End EditorRuns.

(** ** The cleanup: what the marking leaves in the table *)

Section Survivors.

Import Cleanup.

Local Open Scope list_scope.

Context (Date_parse : string → Z).
Context (Object_values : list (string * list LockedRow) → list (list LockedRow)).

(** The engine enumerates every entry of an object once. *)
Context (Object_values_perm : ∀ o, NoDup o.*1 → Object_values o ≡ₚ o.*2).

Local Abbreviation oldest := (Cleanup.oldest Date_parse).
Local Abbreviation marked := (Cleanup.marked Date_parse).
Local Abbreviation marks := (Cleanup.marks Date_parse Object_values).
Local Abbreviation idsToDelete := (Cleanup.idsToDelete Date_parse Object_values).

Implicit Types (r : LockedRow) (rows g : list LockedRow) (i k : string).

Lemma push_join k row o : mjoin (push k row o).*2 ≡ₚ row :: mjoin o.*2.
Proof.
  induction o as [| [k' g] o IH]; simpl; [done |].
  case_bool_decide; simpl.
  - rewrite <- app_assoc. simpl.
    now rewrite <- Permutation_middle.
  - rewrite IH. now rewrite Permutation_middle.
Qed.

Lemma filed_join rows : mjoin (filed rows).*2 ≡ₚ rows.
Proof.
  induction rows as [| r rows IH] using rev_ind; [done |].
  rewrite filed_snoc, push_join, IH. apply Permutation_cons_append.
Qed.

Lemma marked_submseteq g : marked g ⊆+ Cleanup.id <$> g.
Proof.
  unfold Cleanup.marked. case_bool_decide; [apply submseteq_nil_l |].
  rewrite <- (Array_sort_perm (desc Date_parse) g) at 3.
  apply fmap_submseteq, sublist_submseteq.
  etrans; [apply sublist_filter | apply sublist_take].
Qed.

Lemma marked_join (gs : list (list LockedRow)) :
  mjoin (marked <$> gs) ⊆+ Cleanup.id <$> mjoin gs.
Proof.
  induction gs as [| g gs IH]; [done |]. simpl. rewrite fmap_app.
  apply submseteq_app; [apply marked_submseteq | exact IH].
Qed.

Lemma marks_submseteq rows : marks rows ⊆+ Cleanup.id <$> rows.
Proof.
  rewrite (marks_perm Date_parse Object_values Object_values_perm rows).
  etrans; [apply marked_join |]. now rewrite filed_join.
Qed.

Lemma marked_length g :
  Forall (λ r, Cleanup.id r ≠ "") g → length (marked g) = (length g - 1)%nat.
Proof.
  intros Hids. unfold Cleanup.marked. case_bool_decide as Hle; [simpl; lia |].
  rewrite length_fmap, filter_all.
  - rewrite length_take, (Permutation_length (Array_sort_perm _ g)). lia.
  - apply Forall_forall. intros r Hr%subseteq_take.
    rewrite (Array_sort_perm (desc Date_parse) g) in Hr.
    rewrite Forall_forall in Hids. specialize (Hids r Hr).
    unfold truthy_str. now rewrite bool_decide_eq_false_2.
Qed.

Lemma marked_count (gs : list (list LockedRow)) :
  Forall (λ g, g ≠ [] ∧ Forall (λ r, Cleanup.id r ≠ "") g) gs →
  (length (mjoin (marked <$> gs)) + length gs = length (mjoin gs))%nat.
Proof.
  induction 1 as [| g gs [Hne Hids] _ IH]; [done |]. simpl in *.
  rewrite !length_app, marked_length by done.
  destruct g; [done |]. unfold fmap in IH. simpl in *. lia.
Qed.

Lemma all_equal_short {A} (l : list A) :
  NoDup l → (∀ x y, x ∈ l → y ∈ l → x = y) → (length l ≤ 1)%nat.
Proof.
  intros Hnd Heq. destruct l as [| a [| b l]]; simpl; [lia | lia |].
  exfalso. apply NoDup_cons in Hnd as [Ha _]. apply Ha.
  rewrite (Heq a b); [apply list_elem_of_here | apply list_elem_of_here |].
  apply list_elem_of_further, list_elem_of_here.
Qed.

Lemma filed_keys rows : (filed rows).*1 ≡ₚ remove_dups (key <$> rows).
Proof.
  pose proof (filed_grouped rows) as (Hnd & Hgroups & Hkeys).
  apply NoDup_Permutation; [done | apply NoDup_remove_dups |].
  intros k. rewrite elem_of_remove_dups, list_elem_of_fmap. split.
  - intros ([k' g] & -> & Hin). destruct (Hgroups _ _ Hin) as [-> Hne]. simpl.
    destruct (group rows k') as [| r g'] eqn:Hg; [done |].
    assert (Hr : r ∈ group rows k') by (rewrite Hg; apply list_elem_of_here).
    apply group_elem in Hr as [<- Hr]. now apply list_elem_of_fmap_2.
  - intros (r & -> & Hr)%list_elem_of_fmap.
    apply Hkeys, list_elem_of_fmap in Hr as (kg & -> & Hin). now exists kg.
Qed.

Lemma marks_kept rows :
  NoDup (Cleanup.id <$> rows) →
  (∀ r, r ∈ rows →
        ∃ o, o ∈ rows ∧ key o = key r ∧ Cleanup.id o ∉ marks rows)
  ∧ (Forall (λ r, Cleanup.id r ≠ "") rows →
     (∀ r, r ∈ filter (λ r, Cleanup.id r ∉ marks rows) rows ↔
           r ∈ rows ∧ oldest (group rows (key r)) = Some r)
     ∧ NoDup (key <$> filter (λ r, Cleanup.id r ∉ marks rows) rows)
     ∧ marks (filter (λ r, Cleanup.id r ∉ marks rows) rows) = []).
Proof.
  intros Hnd.
  pose proof (deleted_iff Date_parse Object_values Object_values_perm rows) as Hdel.
  assert (Hkept : ∀ r, r ∈ rows → oldest (group rows (key r)) = Some r →
                       Cleanup.id r ∉ marks rows).
  { intros r Hr Ho Hin. apply Hdel in Hin as (_ & _ & Hne); done. }
  split.
  - intros r Hr.
    assert (Hg : r ∈ group rows (key r)) by now apply group_elem.
    destruct (oldest_is_Some Date_parse (group rows (key r))) as [o Ho].
    { intros Hnil. rewrite Hnil in Hg. now apply elem_of_nil in Hg. }
    pose proof Ho as (Hin & _)%oldest_spec. apply group_elem in Hin as [Hk Hin].
    exists o. split; [done |]. split; [done |]. apply Hkept; [done |].
    now rewrite Hk.
  - intros Hids. rewrite Forall_forall in Hids.
    set (kept := filter (λ r, Cleanup.id r ∉ marks rows) rows).
    assert (Hspec : ∀ r, r ∈ kept ↔ r ∈ rows ∧ oldest (group rows (key r)) = Some r).
    { intros r. unfold kept. rewrite list_elem_of_filter. split.
      - intros [Hnot Hr]. split; [done |].
        assert (Hg : r ∈ group rows (key r)) by now apply group_elem.
        destruct (decide (oldest (group rows (key r)) = Some r)) as [| Hne]; [done |].
        destruct (decide (1 < length (group rows (key r)))%nat) as [Hlen | Hlen].
        + exfalso. apply Hnot, Hdel; [done | done |]. split; [now apply Hids | done].
        + destruct (group rows (key r)) as [| a [| b g]] eqn:Hgr;
            [now apply elem_of_nil in Hg | | simpl in Hlen; lia].
          apply list_elem_of_singleton in Hg as ->. exfalso. now apply Hne.
      - intros [Hr Ho]. split; [now apply Hkept | done]. }
    assert (Hinj : ∀ x y, x ∈ kept → y ∈ kept → key x = key y → x = y).
    { intros x y [_ Hx]%Hspec [_ Hy]%Hspec Hk. rewrite Hk in Hx. congruence. }
    assert (Hndk : NoDup kept) by now apply NoDup_filter, (NoDup_fmap_1 Cleanup.id).
    split; [exact Hspec |]. split; [now apply NoDup_fmap_2_strong |].
    apply elem_of_nil_inv. intros i Hi.
    apply (marks_spec Date_parse Object_values Object_values_perm) in Hi
      as (r & Hr & Hi).
    unfold Cleanup.marked in Hi. case_bool_decide as Hlen;
      [now apply elem_of_nil in Hi |].
    apply Hlen, all_equal_short.
    + now apply NoDup_filter.
    + intros x y [Hx Hxin]%group_elem [Hy Hyin]%group_elem.
      apply Hinj; congruence.
Qed.

(** For a table none of whose keys is one that every object inherits, the
    grouping loses no row and repeats none: the groups handed to the marking
    are, taken together, the rows of the table; there is one group for each
    key, and it holds all the rows of its key in table order.  With an
    inherited key in the table the grouping throws. *)
Theorem grouping_partitions_the_table rows :
  (Forall (λ r, key r ∉ Object_prototype) rows →
   ∃ o, byNfc (Some rows) = Some o
        ∧ mjoin (Object_values o) ≡ₚ rows
        ∧ length (Object_values o) = length (remove_dups (key <$> rows))
        ∧ (∀ g, g ∈ Object_values o ↔ ∃ r, r ∈ rows ∧ g = group rows (key r)))
  ∧ (Exists (λ r, key r ∈ Object_prototype) rows → byNfc (Some rows) = None).
Proof.
  split; [| apply byNfc_throws].
  intros Hplain. exists (filed rows). split; [now apply byNfc_plain |].
  pose proof (filed_grouped rows) as (Hnd & Hgroups & Hkeys).
  assert (Hperm := Object_values_perm _ Hnd).
  split; [| split].
  - rewrite Hperm. apply filed_join.
  - rewrite Hperm, length_fmap, <- (length_fmap fst).
    apply Permutation_length, filed_keys.
  - intros g. rewrite Hperm. apply filed_groups.
Qed.

(** For a table with ids of its own and no inherited key, no id is marked
    twice, every marked id is taken from the table, and when every row has an
    id the number of marked ids is the number of rows less the number of
    keys. *)
Theorem cleanup_marks_each_id_once rows :
  NoDup (Cleanup.id <$> rows) →
  Forall (λ r, key r ∉ Object_prototype) rows →
  ∃ ids,
    idsToDelete (Some rows) = Some ids
    ∧ NoDup ids
    ∧ ids ⊆+ Cleanup.id <$> rows
    ∧ (Forall (λ r, Cleanup.id r ≠ "") rows →
       (length ids + length (remove_dups (key <$> rows)) = length rows)%nat).
Proof.
  intros Hnd Hplain. exists (marks rows).
  split; [now apply (idsToDelete_plain Date_parse Object_values) |].
  pose proof (marks_submseteq rows) as Hsub.
  split; [| split; [exact Hsub |]].
  - apply submseteq_Permutation in Hsub as [rest Hrest].
    rewrite Hrest in Hnd. now apply NoDup_app in Hnd as [Hnd _].
  - intros Hids.
    pose proof (filed_grouped rows) as (Hkeys & Hgroups & Hcover).
    rewrite (Permutation_length
               (marks_perm Date_parse Object_values Object_values_perm rows)).
    rewrite <- (Permutation_length (filed_join rows)).
    rewrite <- marked_count.
    + f_equal. rewrite length_fmap, <- (length_fmap fst).
      symmetry. apply Permutation_length, filed_keys.
    + apply Forall_forall. intros g (kg & -> & Hin)%list_elem_of_fmap.
      destruct kg as [k g]. destruct (Hgroups _ _ Hin) as [-> Hne].
      split; [done |]. apply Forall_forall. intros r [_ Hr]%group_elem.
      rewrite Forall_forall in Hids. now apply Hids.
Qed.

(** For a table with ids of its own and no inherited key, the marking never
    empties a key: of every key of the table, the row its group keeps is not
    marked.  When every row has an id, the rows that are not marked are
    exactly the kept rows of the groups, one for each key, and a cleanup of
    those rows marks nothing. *)
Theorem cleanup_leaves_one_row_per_key rows :
  NoDup (Cleanup.id <$> rows) →
  Forall (λ r, key r ∉ Object_prototype) rows →
  ∃ ids,
    idsToDelete (Some rows) = Some ids
    ∧ (∀ r, r ∈ rows → ∃ o, o ∈ rows ∧ key o = key r ∧ Cleanup.id o ∉ ids)
    ∧ (Forall (λ r, Cleanup.id r ≠ "") rows →
       (∀ r, r ∈ filter (λ r, Cleanup.id r ∉ ids) rows ↔
             r ∈ rows ∧ oldest (group rows (key r)) = Some r)
       ∧ NoDup (key <$> filter (λ r, Cleanup.id r ∉ ids) rows)
       ∧ idsToDelete (Some (filter (λ r, Cleanup.id r ∉ ids) rows)) = Some []).
Proof.
  intros Hnd Hplain. exists (marks rows).
  split; [now apply (idsToDelete_plain Date_parse Object_values) |].
  destruct (marks_kept rows Hnd) as [Hone Hall].
  split; [exact Hone |]. intros Hids.
  destruct (Hall Hids) as (Hspec & Hkeys & Hnone).
  split; [exact Hspec |]. split; [exact Hkeys |].
  assert (Hkept : Forall (λ r, key r ∉ Object_prototype)
                    (filter (λ r, Cleanup.id r ∉ marks rows) rows)).
  { apply Forall_forall. intros r [_ Hr]%list_elem_of_filter.
    rewrite Forall_forall in Hplain. now apply Hplain. }
  rewrite (proj1 (idsToDelete_plain Date_parse Object_values _ Hkept)).
  now rewrite Hnone.
Qed.

End Survivors.

(** ** The cleanup handler as a whole: what is sent, and when it stops *)

Section WholeCleanup.

Import Cleanup CleanupRun.

Local Open Scope list_scope.

Context (Date_parse : string → Z).
Context (Object_values : list (string * list LockedRow) → list (list LockedRow)).
Context (not_a_function : thrown).

Local Abbreviation idsToDelete := (Cleanup.idsToDelete Date_parse Object_values).
Local Abbreviation requests := (Cleanup.requests Date_parse Object_values).
Local Abbreviation marks := (Cleanup.marks Date_parse Object_values).
Local Abbreviation handleCleanup :=
  (CleanupRun.handleCleanup Date_parse Object_values not_a_function).
Local Abbreviation plan := (CleanupRun.plan Date_parse Object_values).

Implicit Types (db : answers) (log : list request) (chunks : list (list string)).

Lemma answers_of_app db n log log' :
  answers_of db n (log ++ log')
  = answers_of db n log ++ answers_of db (n + length (locked_deletions log)) log'.
Proof.
  revert n. induction log as [| q log IH]; intros n; simpl.
  - now rewrite Nat.add_0_r.
  - destruct q; simpl; rewrite IH; try done.
    now rewrite Nat.add_succ_r.
Qed.

Lemma delete_chunks_spec db i chunks log r :
  delete_chunks (del db) i chunks = (log, r) →
  log `prefix_of` (delete_lockeddata <$> chunks)
  ∧ match r with
    | None =>
        log = delete_lockeddata <$> chunks
        ∧ answers_of db i log = replicate (length log) None
    | Some e =>
        ∃ log' q, log = log' ++ [q]
                  ∧ answers_of db i log = replicate (length log') None ++ [Some e]
    end.
Proof.
  revert i log r. induction chunks as [| chunk rest IH]; intros i log r; simpl.
  - intros [= <- <-]. split; [done |]. now split.
  - destruct (failure (del db i chunk)) as [e|] eqn:Hfail.
    + intros [= <- <-]. split; [now exists (delete_lockeddata <$> rest) |].
      exists [], (delete_lockeddata chunk). simpl. now rewrite Hfail.
    + destruct (delete_chunks (del db) (S i) rest) as [log' r'] eqn:Hrest.
      intros [= <- <-]. apply IH in Hrest as [Hpre Hrest]. split.
      * now apply prefix_cons.
      * destruct r' as [e|].
        -- destruct Hrest as (log'' & q & -> & Hans).
           exists (delete_lockeddata chunk :: log''), q. split; [done |].
           simpl in *. now rewrite Hfail, Hans.
        -- destruct Hrest as [-> Hans]. split; [done |].
           simpl. now rewrite Hfail, Hans.
Qed.

Lemma chunks_of_none (ids : list string) :
  ¬ (0 < length ids)%nat → chunks_of (length ids) 500 ids = [].
Proof. intros Hlen. now destruct ids as [| i ids]; [| simpl in Hlen; lia]. Qed.

(** The grouping throws exactly when a row's key is an inherited one. *)
Lemma idsToDelete_cases lockedRows :
  (∃ ids, idsToDelete lockedRows = Some ids
          ∧ requests lockedRows = Some (chunks_of (length ids) 500 ids)
          ∧ ∀ rows, lockedRows = Some rows →
                    Forall (λ r, key r ∉ Object_prototype) rows ∧ ids = marks rows)
  ∨ (idsToDelete lockedRows = None ∧ requests lockedRows = None
     ∧ ∃ rows, lockedRows = Some rows ∧ Exists (λ r, key r ∈ Object_prototype) rows).
Proof.
  destruct lockedRows as [rows|].
  - destruct (decide (Exists (λ r, key r ∈ Object_prototype) rows)) as [Hsome | Hnone].
    + right. destruct (idsToDelete_throws Date_parse Object_values rows Hsome).
      split; [done |]. split; [done |]. now exists rows.
    + left. apply (not_Exists_Forall _) in Hnone.
      destruct (idsToDelete_plain Date_parse Object_values rows Hnone) as [Hids Hreq].
      exists (marks rows). split; [done |]. split; [done |].
      now intros ? [= <-].
  - left. eexists. split; [reflexivity |]. split; [reflexivity |]. done.
Qed.

(** The stage of [lockeddata], after calls [log1] that were all answered
    without an error and deleted nothing from [lockeddata]. *)
Lemma locked_stage db log1 (ids : list string) :
  locked_deletions log1 = [] →
  answers_of db 0 log1 = replicate (length log1) None →
  ∀ log3 r,
    (if bool_decide (0 < length ids)%nat
     then delete_chunks (del db) 0 (chunks_of (length ids) 500 ids)
     else ([], None)) = (log3, r) →
    failure (lockedRows db) = None →
    (log1 ++ [select_lockeddata]) ++ log3
      `prefix_of` log1 ++ [select_lockeddata]
                  ++ (delete_lockeddata <$> chunks_of (length ids) 500 ids)
    ∧ match r with
      | None =>
          (log1 ++ [select_lockeddata]) ++ log3
          = log1 ++ [select_lockeddata]
            ++ (delete_lockeddata <$> chunks_of (length ids) 500 ids)
          ∧ answers_of db 0 ((log1 ++ [select_lockeddata]) ++ log3)
            = replicate (length ((log1 ++ [select_lockeddata]) ++ log3)) None
      | Some e =>
          ∃ log q, (log1 ++ [select_lockeddata]) ++ log3 = log ++ [q]
                   ∧ answers_of db 0 (log ++ [q])
                     = replicate (length log) None ++ [Some e]
      end.
Proof.
  intros Hnone Hans log3 r Hrun Hsel.
  assert (Hspec : log3 `prefix_of` (delete_lockeddata <$> chunks_of (length ids) 500 ids)
                  ∧ match r with
                    | None =>
                        log3 = delete_lockeddata <$> chunks_of (length ids) 500 ids
                        ∧ answers_of db 0 log3 = replicate (length log3) None
                    | Some e =>
                        ∃ log' q, log3 = log' ++ [q]
                                  ∧ answers_of db 0 log3
                                    = replicate (length log') None ++ [Some e]
                    end).
  { case_bool_decide as Hlen.
    - now apply delete_chunks_spec.
    - injection Hrun as <- <-. rewrite chunks_of_none by done. now repeat split. }
  destruct Hspec as [Hpre Hr].
  assert (Hans2 : answers_of db 0 (log1 ++ [select_lockeddata])
                  = replicate (length (log1 ++ [select_lockeddata])) None).
  { rewrite answers_of_app, Hans, length_app, replicate_add. simpl. now rewrite Hsel. }
  assert (Hnone2 : length (locked_deletions (log1 ++ [select_lockeddata])) = 0%nat).
  { unfold locked_deletions in *. now rewrite omap_app, Hnone. }
  split.
  - rewrite <- app_assoc. now apply prefix_app, prefix_app.
  - destruct r as [e|].
    + destruct Hr as (log' & q & -> & Hans3).
      exists ((log1 ++ [select_lockeddata]) ++ log'), q.
      split; [now rewrite !app_assoc |].
      rewrite <- (app_assoc _ log'), answers_of_app, Hans2, Hnone2. cbn [Nat.add].
      rewrite Hans3.
      now rewrite (length_app _ log'), replicate_add, app_assoc.
    + destruct Hr as [-> Hans3]. split; [now rewrite <- app_assoc |].
      rewrite answers_of_app, Hans2, Hnone2. cbn [Nat.add]. rewrite Hans3.
      now rewrite (length_app (_ ++ _)), replicate_add.
Qed.

(** The three ways a run can end: every call answered and the grouping done;
    a call answered with an error; every call answered and the grouping
    thrown. *)
Lemma handleCleanup_cases db :
  (∃ ids,
     idsToDelete (data (lockedRows db)) = Some ids
     ∧ handleCleanup db
       = {| sent := plan db;
            statusMsg := ["정리 중..."%string;
                          report (length (curIdList db)) (length ids)];
            console := [] |}
     ∧ answers_of db 0 (plan db) = replicate (length (plan db)) None)
  ∨ (∃ e log q,
       handleCleanup db = catch (log ++ [q]) e
       ∧ log ++ [q] `prefix_of` plan db
       ∧ answers_of db 0 (log ++ [q]) = replicate (length log) None ++ [Some e])
  ∨ (idsToDelete (data (lockedRows db)) = None
     ∧ handleCleanup db = catch (plan db) not_a_function
     ∧ answers_of db 0 (plan db) = replicate (length (plan db)) None
     ∧ locked_deletions (plan db) = []
     ∧ last (plan db) = Some select_lockeddata).
Proof.
  unfold CleanupRun.handleCleanup, CleanupRun.plan.
  destruct (failure (currentIds db)) as [e|] eqn:Hsel1.
  { right; left. exists e, [], select_currentdata. split; [done |].
    split; [now eexists |]. simpl. now rewrite Hsel1. }
  set (log1 := if bool_decide (0 < length (curIdList db))%nat
               then [select_currentdata; delete_currentdata (curIdList db)]
               else [select_currentdata]).
  set (thrown1 := if bool_decide (0 < length (curIdList db))%nat
                  then failure (curDel db (curIdList db)) else None).
  assert (Hlog1 : [select_currentdata]
                  ++ (if bool_decide (0 < length (curIdList db))%nat
                      then [delete_currentdata (curIdList db)] else [])
                  = log1) by (unfold log1; now case_bool_decide).
  replace (if bool_decide (0 < length (curIdList db))%nat
           then ([select_currentdata; delete_currentdata (curIdList db)],
                 failure (curDel db (curIdList db)))
           else ([select_currentdata], None))
    with (log1, thrown1) by (unfold log1, thrown1; now case_bool_decide).
  rewrite (app_assoc [select_currentdata]), Hlog1.
  destruct thrown1 as [e|] eqn:Hdel1.
  { unfold thrown1 in Hdel1. case_bool_decide as Hlen; [| done].
    right; left. exists e, [select_currentdata], (delete_currentdata (curIdList db)).
    split; [done |]. split.
    - now eexists (select_lockeddata :: _).
    - simpl. now rewrite Hsel1, Hdel1. }
  assert (Hans1 : answers_of db 0 log1 = replicate (length log1) None).
  { unfold log1, thrown1 in *. case_bool_decide; simpl; now rewrite Hsel1, ?Hdel1. }
  assert (Hnone1 : locked_deletions log1 = []) by (unfold log1; now case_bool_decide).
  destruct (failure (lockedRows db)) as [e|] eqn:Hsel2.
  { right; left. exists e, log1, select_lockeddata. split; [done |].
    split; [now apply prefix_app, prefix_app_r |].
    rewrite answers_of_app, Hans1, Hnone1. simpl. now rewrite Hsel2. }
  destruct (idsToDelete_cases (data (lockedRows db)))
    as [(ids & -> & -> & _) | (-> & -> & _)].
  - change (default [] (Some (chunks_of (length ids) 500 ids)))
      with (chunks_of (length ids) 500 ids).
    destruct (if bool_decide (0 < length ids)%nat
              then delete_chunks (del db) 0 (chunks_of (length ids) 500 ids)
              else ([], None)) as [log3 r] eqn:Hrun.
    destruct (locked_stage db log1 ids Hnone1 Hans1 log3 r Hrun Hsel2) as [Hpre Hr].
    destruct r as [e|].
    + right; left. destruct Hr as (log & q & Hsent & Hans).
      exists e, log, q. rewrite Hsent in *. now repeat split.
    + left. destruct Hr as [Hsent Hans]. rewrite Hsent in *. now exists ids.
  - right; right. change (delete_lockeddata <$> default [] None) with (@nil request).
    rewrite app_nil_r. split; [done |]. split; [done |]. split; [| split].
    + rewrite answers_of_app, Hans1, Hnone1, length_app, replicate_add. simpl.
      now rewrite Hsel2.
    + unfold locked_deletions in *. now rewrite omap_app, Hnone1.
    + apply last_snoc.
Qed.

Lemma locked_deletions_fmap chunks :
  locked_deletions (delete_lockeddata <$> chunks) = chunks.
Proof. induction chunks as [| c chunks IH]; [done |]. simpl. f_equal. exact IH. Qed.

Lemma current_deletions_fmap chunks :
  current_deletions (delete_lockeddata <$> chunks) = [].
Proof. induction chunks as [| c chunks IH]; [done | exact IH]. Qed.

Lemma deletions_of_plan db :
  current_deletions (plan db)
  = (if bool_decide (0 < length (curIdList db))%nat then [curIdList db] else [])
  ∧ locked_deletions (plan db) = default [] (requests (data (lockedRows db))).
Proof.
  unfold CleanupRun.plan. split.
  - unfold current_deletions. rewrite !omap_app.
    fold (current_deletions (delete_lockeddata
                             <$> default [] (requests (data (lockedRows db))))).
    rewrite current_deletions_fmap. now case_bool_decide.
  - unfold locked_deletions. rewrite !omap_app.
    fold (locked_deletions (delete_lockeddata
                            <$> default [] (requests (data (lockedRows db))))).
    rewrite locked_deletions_fmap. now case_bool_decide.
Qed.

(** A run of the cleanup makes its calls in the planned order and stops at
    the first one that fails.  It ends in one of three ways.  Every call made
    was answered without an error and nothing went to the console.  Or the
    last call made is the one that failed, every call before it succeeded,
    and the error it failed with is the one written to the console and shown
    as the failure.  Or every call made was answered without an error, the
    last of them the selection from [lockeddata], but a row of that table has
    a key that every object inherits: the grouping throws, nothing is deleted
    from [lockeddata], and the engine's error is written to the console and
    shown as the failure. *)
Theorem cleanup_stops_at_the_first_failure db :
  sent (handleCleanup db) `prefix_of` plan db
  ∧ ((console (handleCleanup db) = []
      ∧ answers_of db 0 (sent (handleCleanup db))
        = replicate (length (sent (handleCleanup db))) None)
     ∨ (∃ e log q,
          sent (handleCleanup db) = log ++ [q]
          ∧ answers_of db 0 (log ++ [q]) = replicate (length log) None ++ [Some e]
          ∧ console (handleCleanup db) = [text e]
          ∧ final (handleCleanup db) = Some ("[정리 실패] " ++ message_or_self e)%string)
     ∨ (∃ rows,
          data (lockedRows db) = Some rows
          ∧ Exists (λ r, key r ∈ Object_prototype) rows
          ∧ answers_of db 0 (sent (handleCleanup db))
            = replicate (length (sent (handleCleanup db))) None
          ∧ last (sent (handleCleanup db)) = Some select_lockeddata
          ∧ locked_deletions (sent (handleCleanup db)) = []
          ∧ console (handleCleanup db) = [text not_a_function]
          ∧ final (handleCleanup db)
            = Some ("[정리 실패] " ++ message_or_self not_a_function)%string)).
Proof.
  destruct (handleCleanup_cases db)
    as [(ids & _ & -> & Hans) | [(e & log & q & -> & Hpre & Hans)
                                | (Hids & -> & Hans & Hnone & Hlast)]].
  - split; [done |]. now left.
  - split; [exact Hpre |]. right; left. now exists e, log, q.
  - split; [done |]. right; right.
    destruct (idsToDelete_cases (data (lockedRows db)))
      as [(ids & Hsome & _) | (_ & _ & rows & Hrows & Hsome)]; [congruence |].
    now exists rows.
Qed.

(** A run that writes nothing to the console has grouped the rows and made
    every planned call, and the two numbers it reports are the number of ids
    it sent for deletion from [currentdata] and from [lockeddata]; the latter
    are the marked ids, in order. *)
Theorem cleanup_reports_what_it_sent db :
  console (handleCleanup db) = [] →
  ∃ ids,
    idsToDelete (data (lockedRows db)) = Some ids
    ∧ sent (handleCleanup db) = plan db
    ∧ mjoin (current_deletions (sent (handleCleanup db))) = curIdList db
    ∧ mjoin (locked_deletions (sent (handleCleanup db))) = ids
    ∧ final (handleCleanup db)
      = Some (report (length (mjoin (current_deletions (sent (handleCleanup db)))))
                (length (mjoin (locked_deletions (sent (handleCleanup db)))))).
Proof.
  destruct (handleCleanup_cases db)
    as [(ids & Hids & -> & _) | [(e & log & q & -> & _) | (_ & -> & _)]];
    [| done | done].
  intros _. exists ids. split; [done |]. cbn [sent].
  destruct (deletions_of_plan db) as [-> ->].
  unfold Cleanup.requests. rewrite Hids.
  change (default [] (_ <$> Some ids)) with (chunks_of (length ids) 500 ids).
  rewrite chunks_of_join by lia.
  assert (Hcur : mjoin (if bool_decide (0 < length (curIdList db))%nat
                        then [curIdList db] else []) = curIdList db).
  { case_bool_decide as Hlen; simpl; [apply app_nil_r |].
    destruct (curIdList db); [done | simpl in Hlen; lia]. }
  rewrite Hcur. now repeat split.
Qed.

(** The engine enumerates every entry of an object once. *)
Context (Object_values_perm : ∀ o, NoDup o.*1 → Object_values o ≡ₚ o.*2).

Lemma chunks_of_nonempty fuel n (l : list string) :
  (0 < n)%nat → Forall (λ c, c ≠ []) (chunks_of fuel n l).
Proof.
  intros Hn. revert l. induction fuel as [| fuel IH]; intros l; [constructor |].
  destruct l as [| x l]; [constructor |]. cbn [chunks_of].
  constructor; [| apply IH]. now destruct n; [lia |].
Qed.

Lemma deletions_of_sent db :
  locked_deletions (sent (handleCleanup db))
    `prefix_of` default [] (requests (data (lockedRows db)))
  ∧ current_deletions (sent (handleCleanup db))
    `prefix_of` (if bool_decide (0 < length (curIdList db))%nat
                 then [curIdList db] else []).
Proof.
  assert (Hpre : sent (handleCleanup db) `prefix_of` plan db).
  { destruct (handleCleanup_cases db)
      as [(ids & _ & -> & _) | [(e & log & q & -> & Hpre & _) | (_ & -> & _)]];
      [done | exact Hpre | done]. }
  destruct Hpre as [rest Hplan]. destruct (deletions_of_plan db) as [Hcur Hlocked].
  rewrite <- Hlocked, <- Hcur, Hplan. unfold locked_deletions, current_deletions.
  rewrite !omap_app. split; now eexists.
Qed.

(** Whatever the database answers, a deletion sent to [lockeddata] carries
    between 1 and 500 ids, each the id of a row that shares its key with
    another row and is not the one its group keeps, and no id is sent twice;
    a deletion sent to [currentdata] carries all the ids read from it that
    count as true, and there is at least one.  When a row of [lockeddata] has
    a key that every object inherits, no deletion is sent to [lockeddata]. *)
Theorem cleanup_sends_only_newer_duplicates db rows :
  data (lockedRows db) = Some rows →
  NoDup (Cleanup.id <$> rows) →
  NoDup (mjoin (locked_deletions (sent (handleCleanup db))))
  ∧ (∀ chunk, chunk ∈ locked_deletions (sent (handleCleanup db)) →
       chunk ≠ [] ∧ (length chunk ≤ 500)%nat
       ∧ ∀ i, i ∈ chunk →
              ∃ r, r ∈ rows ∧ Cleanup.id r = i ∧ i ≠ ""%string
                   ∧ (1 < length (group rows (key r)))%nat
                   ∧ Cleanup.oldest Date_parse (group rows (key r)) ≠ Some r)
  ∧ (∀ ids, ids ∈ current_deletions (sent (handleCleanup db)) →
       ids = curIdList db ∧ ids ≠ [] ∧ Forall (λ v, truthy v = true) ids)
  ∧ (Exists (λ r, key r ∈ Object_prototype) rows →
     locked_deletions (sent (handleCleanup db)) = []).
Proof.
  intros Hdata Hnd. destruct (deletions_of_sent db) as [Hlocked [rest' Hcur]].
  rewrite Hdata in Hlocked.
  assert (Hchunks : ∃ rest,
             chunks_of (length (marks rows)) 500 (marks rows)
             = locked_deletions (sent (handleCleanup db)) ++ rest).
  { destruct (idsToDelete_cases (Some rows))
      as [(ids & _ & Hreq & Hrows) | (_ & Hreq & _)]; rewrite Hreq in Hlocked.
    - destruct (Hrows rows eq_refl) as [_ ->]. exact Hlocked.
    - apply prefix_nil_inv in Hlocked as ->. now eexists. }
  destruct Hchunks as [rest Hchunks].
  assert (Hjoin : mjoin (chunks_of (length (marks rows)) 500 (marks rows)) = marks rows).
  { apply chunks_of_join; lia. }
  split; [| split; [| split]].
  - pose proof (marks_submseteq Date_parse Object_values Object_values_perm rows)
      as [more Hmore]%submseteq_Permutation.
    rewrite Hmore, <- Hjoin, Hchunks, join_app, <- app_assoc in Hnd.
    now apply NoDup_app in Hnd as [Hnd _].
  - intros chunk Hchunk.
    assert (Hin : chunk ∈ chunks_of (length (marks rows)) 500 (marks rows)).
    { rewrite Hchunks. apply elem_of_app. now left. }
    pose proof (chunks_of_nonempty (length (marks rows)) 500 (marks rows)) as Hne.
    pose proof (chunks_of_size (length (marks rows)) 500 (marks rows)) as Hsize.
    rewrite Forall_forall in Hne, Hsize.
    split; [apply Hne; [lia | exact Hin] |]. split; [now apply Hsize |].
    intros i Hi.
    assert (Hmarked : i ∈ marks rows).
    { rewrite <- Hjoin. apply list_elem_of_join. now exists chunk. }
    destruct (deleted_is_row Date_parse Object_values Object_values_perm rows i Hmarked)
      as (r & Hr & <-).
    apply (deleted_iff Date_parse Object_values Object_values_perm rows r Hnd Hr)
      in Hmarked as (Hid & Hlen & Hold).
    now exists r.
  - intros ids Hids.
    assert (Hin : ids ∈ (if bool_decide (0 < length (curIdList db))%nat
                         then [curIdList db] else [])).
    { rewrite Hcur. apply elem_of_app. now left. }
    case_bool_decide as Hlen; [| now apply elem_of_nil in Hin].
    apply list_elem_of_singleton in Hin as ->. split; [done |]. split.
    + intros Hnil. rewrite Hnil in Hlen. simpl in Hlen. lia.
    + apply Forall_forall. intros v Hv. unfold curIdList in Hv.
      now apply list_elem_of_filter in Hv as [Hv _].
  - intros Hsome.
    destruct (idsToDelete_throws Date_parse Object_values rows Hsome) as [_ Hreq].
    rewrite Hreq in Hlocked. now apply prefix_nil_inv in Hlocked.
Qed.

End WholeCleanup.

(** The table of the specification's example, cleaned with the engine's
    enumeration for keys that are not array indices; and a table with two
    rows filed under [constructor]. *)
Lemma grouping_partitions_the_table_witness :
  (∀ o, NoDup o.*1 → Cleanup.insertion_order o ≡ₚ o.*2)
  ∧ Forall (λ r, Cleanup.key r ∉ Cleanup.Object_prototype)
      [Sample.locked1; Sample.locked2; Sample.locked3]
  ∧ (∃ o, Cleanup.byNfc (Some [Sample.locked1; Sample.locked2; Sample.locked3]) = Some o
          ∧ mjoin (Cleanup.insertion_order o)
            ≡ₚ [Sample.locked1; Sample.locked2; Sample.locked3])
  ∧ Exists (λ r, Cleanup.key r ∈ Cleanup.Object_prototype)
      [Sample.inherited1; Sample.inherited2]
  ∧ Cleanup.byNfc (Some [Sample.inherited1; Sample.inherited2]) = None.
Proof.
  assert (H : ∀ o, NoDup o.*1 → Cleanup.insertion_order o ≡ₚ o.*2) by reflexivity.
  assert (Hplain : Forall (λ r, Cleanup.key r ∉ Cleanup.Object_prototype)
                     [Sample.locked1; Sample.locked2; Sample.locked3]).
  { refine (bool_decide_unpack _ _). vm_compute. exact I. }
  assert (Hsome : Exists (λ r, Cleanup.key r ∈ Cleanup.Object_prototype)
                    [Sample.inherited1; Sample.inherited2]).
  { refine (bool_decide_unpack _ _). vm_compute. exact I. }
  split; [exact H |]. split; [exact Hplain |]. split; [| split; [exact Hsome |]].
  - destruct (proj1 (grouping_partitions_the_table Cleanup.insertion_order H
                       [Sample.locked1; Sample.locked2; Sample.locked3]) Hplain)
      as (o & Ho & Hjoin & _).
    now exists o.
  - exact (proj2 (grouping_partitions_the_table Cleanup.insertion_order H
                    [Sample.inherited1; Sample.inherited2]) Hsome).
Defined.

Lemma cleanup_marks_each_id_once_witness :
  (∀ o, NoDup o.*1 → Cleanup.insertion_order o ≡ₚ o.*2)
  ∧ NoDup (Cleanup.id <$> [Sample.locked1; Sample.locked2; Sample.locked3])
  ∧ Forall (λ r, Cleanup.key r ∉ Cleanup.Object_prototype)
      [Sample.locked1; Sample.locked2; Sample.locked3]
  ∧ Forall (λ r, Cleanup.id r ≠ "") [Sample.locked1; Sample.locked2; Sample.locked3]
  ∧ ∃ ids,
      Cleanup.idsToDelete Cleanup.sample_parse Cleanup.insertion_order
        (Some [Sample.locked1; Sample.locked2; Sample.locked3]) = Some ids
      ∧ (length ids
         + length (remove_dups
                     (Cleanup.key <$> [Sample.locked1; Sample.locked2; Sample.locked3]))
         = length [Sample.locked1; Sample.locked2; Sample.locked3])%nat.
Proof.
  assert (H : ∀ o, NoDup o.*1 → Cleanup.insertion_order o ≡ₚ o.*2) by reflexivity.
  assert (Hnd : NoDup (Cleanup.id <$> [Sample.locked1; Sample.locked2; Sample.locked3])).
  { refine (bool_decide_unpack _ _). vm_compute. exact I. }
  assert (Hplain : Forall (λ r, Cleanup.key r ∉ Cleanup.Object_prototype)
                     [Sample.locked1; Sample.locked2; Sample.locked3]).
  { refine (bool_decide_unpack _ _). vm_compute. exact I. }
  assert (Hids : Forall (λ r, Cleanup.id r ≠ "")
                   [Sample.locked1; Sample.locked2; Sample.locked3]).
  { repeat constructor; discriminate. }
  split; [exact H |]. split; [exact Hnd |]. split; [exact Hplain |].
  split; [exact Hids |].
  destruct (cleanup_marks_each_id_once Cleanup.sample_parse Cleanup.insertion_order H
              _ Hnd Hplain) as (ids & Hsome & _ & _ & Hcount).
  exists ids. split; [exact Hsome | exact (Hcount Hids)].
Defined.

Lemma cleanup_leaves_one_row_per_key_witness :
  (∀ o, NoDup o.*1 → Cleanup.insertion_order o ≡ₚ o.*2)
  ∧ NoDup (Cleanup.id <$> [Sample.locked1; Sample.locked2; Sample.locked3])
  ∧ Forall (λ r, Cleanup.key r ∉ Cleanup.Object_prototype)
      [Sample.locked1; Sample.locked2; Sample.locked3]
  ∧ Forall (λ r, Cleanup.id r ≠ "") [Sample.locked1; Sample.locked2; Sample.locked3]
  ∧ ∃ ids,
      Cleanup.idsToDelete Cleanup.sample_parse Cleanup.insertion_order
        (Some [Sample.locked1; Sample.locked2; Sample.locked3]) = Some ids
      ∧ Cleanup.idsToDelete Cleanup.sample_parse Cleanup.insertion_order
          (Some (filter (λ r, Cleanup.id r ∉ ids)
                   [Sample.locked1; Sample.locked2; Sample.locked3]))
        = Some [].
Proof.
  assert (H : ∀ o, NoDup o.*1 → Cleanup.insertion_order o ≡ₚ o.*2) by reflexivity.
  assert (Hnd : NoDup (Cleanup.id <$> [Sample.locked1; Sample.locked2; Sample.locked3])).
  { refine (bool_decide_unpack _ _). vm_compute. exact I. }
  assert (Hplain : Forall (λ r, Cleanup.key r ∉ Cleanup.Object_prototype)
                     [Sample.locked1; Sample.locked2; Sample.locked3]).
  { refine (bool_decide_unpack _ _). vm_compute. exact I. }
  assert (Hids : Forall (λ r, Cleanup.id r ≠ "")
                   [Sample.locked1; Sample.locked2; Sample.locked3]).
  { repeat constructor; discriminate. }
  split; [exact H |]. split; [exact Hnd |]. split; [exact Hplain |].
  split; [exact Hids |].
  destruct (cleanup_leaves_one_row_per_key Cleanup.sample_parse Cleanup.insertion_order
              H _ Hnd Hplain) as (ids & Hsome & _ & Hall).
  exists ids. split; [exact Hsome | exact (proj2 (proj2 (Hall Hids)))].
Defined.

(** A run on a healthy database, one whose first deletion from [lockeddata]
    fails, and one on a table with two rows filed under [constructor]. *)
Lemma cleanup_reports_what_it_sent_witness :
  CleanupRun.console
    (CleanupRun.handleCleanup Cleanup.sample_parse Cleanup.insertion_order
       Sample.push_missing
       (CleanupRun.healthy CleanupRun.sample_current
          [Sample.locked1; Sample.locked2; Sample.locked3])) = []
  ∧ CleanupRun.sent
      (CleanupRun.handleCleanup Cleanup.sample_parse Cleanup.insertion_order
         Sample.push_missing
         (CleanupRun.healthy CleanupRun.sample_current
            [Sample.locked1; Sample.locked2; Sample.locked3]))
    = [CleanupRun.select_currentdata;
       CleanupRun.delete_currentdata [JNum 4; JStr "c-9"];
       CleanupRun.select_lockeddata;
       CleanupRun.delete_lockeddata ["2"]].
Proof.
  assert (Hc : CleanupRun.console
                 (CleanupRun.handleCleanup Cleanup.sample_parse Cleanup.insertion_order
                    Sample.push_missing
                    (CleanupRun.healthy CleanupRun.sample_current
                       [Sample.locked1; Sample.locked2; Sample.locked3])) = [])
    by (vm_compute; reflexivity).
  split; [exact Hc |].
  destruct (cleanup_reports_what_it_sent Cleanup.sample_parse Cleanup.insertion_order
              Sample.push_missing _ Hc) as (ids & _ & -> & _).
  vm_compute. reflexivity.
Defined.

Lemma cleanup_sends_only_newer_duplicates_witness :
  (∀ o, NoDup o.*1 → Cleanup.insertion_order o ≡ₚ o.*2)
  ∧ NoDup (Cleanup.id <$> [Sample.locked1; Sample.locked2; Sample.locked3])
  ∧ NoDup (mjoin (CleanupRun.locked_deletions
                    (CleanupRun.sent
                       (CleanupRun.handleCleanup Cleanup.sample_parse
                          Cleanup.insertion_order Sample.push_missing
                          (CleanupRun.failing_from 0 Sample.fetch_failed
                             CleanupRun.sample_current
                             [Sample.locked1; Sample.locked2; Sample.locked3])))))
  ∧ NoDup (Cleanup.id <$> [Sample.inherited1; Sample.inherited2])
  ∧ Exists (λ r, Cleanup.key r ∈ Cleanup.Object_prototype)
      [Sample.inherited1; Sample.inherited2]
  ∧ CleanupRun.locked_deletions
      (CleanupRun.sent
         (CleanupRun.handleCleanup Cleanup.sample_parse Cleanup.insertion_order
            Sample.push_missing
            (CleanupRun.healthy CleanupRun.sample_current
               [Sample.inherited1; Sample.inherited2]))) = [].
Proof.
  assert (H : ∀ o, NoDup o.*1 → Cleanup.insertion_order o ≡ₚ o.*2) by reflexivity.
  assert (Hnd : NoDup (Cleanup.id <$> [Sample.locked1; Sample.locked2; Sample.locked3])).
  { refine (bool_decide_unpack _ _). vm_compute. exact I. }
  assert (Hnd' : NoDup (Cleanup.id <$> [Sample.inherited1; Sample.inherited2])).
  { refine (bool_decide_unpack _ _). vm_compute. exact I. }
  assert (Hsome : Exists (λ r, Cleanup.key r ∈ Cleanup.Object_prototype)
                    [Sample.inherited1; Sample.inherited2]).
  { refine (bool_decide_unpack _ _). vm_compute. exact I. }
  split; [exact H |]. split; [exact Hnd |]. split; [| split; [exact Hnd' |]].
  - exact (proj1 (cleanup_sends_only_newer_duplicates Cleanup.sample_parse
                    Cleanup.insertion_order Sample.push_missing H
                    (CleanupRun.failing_from 0 Sample.fetch_failed
                       CleanupRun.sample_current
                       [Sample.locked1; Sample.locked2; Sample.locked3])
                    [Sample.locked1; Sample.locked2; Sample.locked3] eq_refl Hnd)).
  - split; [exact Hsome |].
    exact (proj2 (proj2 (proj2
             (cleanup_sends_only_newer_duplicates Cleanup.sample_parse
                Cleanup.insertion_order Sample.push_missing H
                (CleanupRun.healthy CleanupRun.sample_current
                   [Sample.inherited1; Sample.inherited2])
                [Sample.inherited1; Sample.inherited2] eq_refl Hnd'))) Hsome).
Defined.

(** A run on a table with two rows filed under [constructor]: both
    selections and the deletion from [currentdata] are made, the grouping
    throws, and nothing is deleted from [lockeddata]. *)
Lemma cleanup_run_with_inherited_key :
  CleanupRun.handleCleanup Cleanup.sample_parse Cleanup.insertion_order
    Sample.push_missing
    (CleanupRun.healthy CleanupRun.sample_current [Sample.inherited1; Sample.inherited2])
  = {| CleanupRun.sent :=
         [CleanupRun.select_currentdata;
          CleanupRun.delete_currentdata [JNum 4; JStr "c-9"];
          CleanupRun.select_lockeddata];
       CleanupRun.statusMsg :=
         ["정리 중..."; "[정리 실패] byNfc[key].push is not a function"];
       CleanupRun.console := ["TypeError: byNfc[key].push is not a function"] |}.
Proof. vm_compute. reflexivity. Qed.

(** ** The router: which page a location shows *)

Section Routes.

Import Router.

Implicit Types (s p r b h : string) (loc : location).

Lemma startsWith_spec s p : startsWith s p = true ↔ ∃ r, s = p ++ r.
Proof.
  unfold startsWith. revert s. induction p as [| c p IH]; intros s; simpl.
  - split; [intros _; now exists s | now destruct s].
  - destruct s as [| d s]; simpl.
    + split; [done | intros [r Hr]; discriminate].
    + destruct (ascii_dec c d) as [-> | Hne].
      * rewrite IH. split; intros [r Hr]; exists r; [now rewrite Hr | now injection Hr].
      * split; [done | intros [r Hr]; injection Hr as ? ?; congruence].
Qed.

Lemma app_cons_string (c : ascii) p r : String c p ++ r = String c (p ++ r).
Proof. reflexivity. Qed.

Lemma drop_app p r : drop (String.length p) (p ++ r) = r.
Proof.
  induction p as [| c p IH]; [now destruct r |]. now rewrite app_cons_string.
Qed.

Lemma length_app_string p r :
  String.length (p ++ r) = (String.length p + String.length r)%nat.
Proof.
  induction p as [| c p IH]; [done |]. rewrite app_cons_string. simpl. now rewrite IH.
Qed.

Lemma app_assoc_string p q r : (p ++ q) ++ r = p ++ (q ++ r).
Proof.
  induction p as [| c p IH]; [done |]. now rewrite !app_cons_string, IH.
Qed.

(** Cutting a base that ends in a slash off a path keeps that slash. *)
Lemma slice_base b r :
  slice ((b ++ "/") ++ r) (Z.of_nat (String.length (b ++ "/")) - 1) = "/" ++ r.
Proof.
  unfold slice. rewrite !length_app_string. simpl String.length.
  destruct (Z.ltb_spec (Z.of_nat (String.length b + 1) - 1) 0) as [Hlt | _]; [lia |].
  rewrite Z.min_l by lia.
  replace (Z.to_nat (Z.of_nat (String.length b + 1) - 1)) with (String.length b) by lia.
  rewrite app_assoc_string. apply drop_app.
Qed.

Lemma truthy_str_spec s : truthy_str s = true ↔ s ≠ "".
Proof.
  unfold truthy_str. case_bool_decide; simpl; split; congruence.
Qed.

Lemma startsWith_slash r : startsWith ("/" ++ r) "/" = true.
Proof. apply startsWith_spec. now exists r. Qed.

Lemma setting_has_one_slash b r : "setting" ≠ (b ++ "/") ++ r.
Proof.
  intros H.
  repeat (destruct b as [| ? b];
          [discriminate H | rewrite !app_cons_string in H; injection H as _ H]).
  destruct b; discriminate H.
Qed.

(** The route that the path alone gives, for a base that ends in a slash. *)
Lemma path_route b loc :
  getRoute (Some (b ++ "/")) {| hash := ""; pathname := pathname loc |}
  = if bool_decide (b ≠ "") && startsWith (pathname loc) (b ++ "/")
    then "/" ++ drop (String.length (b ++ "/")) (pathname loc)
    else if truthy_str (pathname loc) then pathname loc else "/".
Proof.
  unfold getRoute. cbn [hash pathname].
  change (truthy_str "") with false. cbn [andb].
  change (default "/" (Some (b ++ "/"))) with (b ++ "/").
  assert (Hbase : bool_decide (b ++ "/" = "/") = negb (bool_decide (b ≠ ""))).
  { destruct b as [| c b]; [done |]. rewrite app_cons_string.
    rewrite bool_decide_eq_false_2, bool_decide_eq_true_2; [done | done |].
    intros H. injection H as _ H. now destruct b. }
  rewrite Hbase, negb_involutive.
  destruct (bool_decide (b ≠ "") && startsWith (pathname loc) (b ++ "/")) eqn:Hcut;
    [| done].
  apply andb_true_iff in Hcut as [_ [r Hr]%startsWith_spec].
  rewrite Hr, slice_base, drop_app. reflexivity.
Qed.

(** A route always begins with a slash, given that the path of the location
    does (or is empty) and that the base of the build, if any, ends in one. *)
Theorem route_begins_with_a_slash BASE_URL loc :
  (pathname loc = "" ∨ startsWith (pathname loc) "/" = true) →
  (∀ base, BASE_URL = Some base → ∃ b, base = b ++ "/") →
  startsWith (getRoute BASE_URL loc) "/" = true.
Proof.
  intros Hpath Hbase. unfold getRoute.
  destruct (truthy_str (hash loc) && startsWith (replace_leading_hash (hash loc)) "/")
    eqn:Hslash; [now apply andb_true_iff in Hslash as [_ Hslash] |].
  destruct (truthy_str (hash loc) && (0 <? String.length _)%nat);
    [apply startsWith_slash |].
  assert (Hend : ∃ b, default "/" BASE_URL = b ++ "/").
  { destruct BASE_URL as [base|]; [now apply Hbase | now exists ""]. }
  destruct Hend as [b ->].
  destruct (negb (bool_decide (b ++ "/" = "/")) && startsWith (pathname loc) (b ++ "/"))
    eqn:Hcut.
  - apply andb_true_iff in Hcut as [_ [r Hr]%startsWith_spec].
    rewrite Hr, slice_base. apply startsWith_slash.
  - destruct (truthy_str (pathname loc)) eqn:Hp; [| done].
    apply truthy_str_spec in Hp. now destruct Hpath.
Qed.

Lemma hashed_route BASE_URL loc h :
  h ≠ "" → hash loc = "#" ++ h →
  getRoute BASE_URL loc = if startsWith h "/" then h else "/" ++ h.
Proof.
  intros Hh Hhash. unfold getRoute. rewrite Hhash.
  change (replace_leading_hash ("#" ++ h)) with h.
  change (truthy_str ("#" ++ h)) with true. cbn [andb].
  destruct (startsWith h "/"); [done |].
  now destruct h.
Qed.

Lemma unhashed_route BASE_URL loc :
  hash loc = "" ∨ hash loc = "#" →
  getRoute BASE_URL loc = getRoute BASE_URL {| hash := ""; pathname := pathname loc |}.
Proof. intros [Hhash | Hhash]; unfold getRoute; now rewrite Hhash. Qed.

(** Which locations show the settings page, for a base that ends in a slash
    and a hash that is empty or begins with [#]: those whose hash is
    [#/setting] or [#setting], and, with no hash or the bare [#], those whose
    path is [/setting], with or without the base before it. *)
Theorem setting_page_locations BASE_URL b loc :
  default "/" BASE_URL = b ++ "/" →
  (hash loc = "" ∨ startsWith (hash loc) "#" = true) →
  shown BASE_URL loc = SettingPage ↔
  hash loc = "#/setting" ∨ hash loc = "#setting"
  ∨ ((hash loc = "" ∨ hash loc = "#")
     ∧ (pathname loc = "/setting" ∨ pathname loc = b ++ "/setting")).
Proof.
  intros Hbase Hhash.
  assert (Hshown : ∀ l, shown BASE_URL l = SettingPage ↔ getRoute BASE_URL l = "/setting").
  { intros l. unfold shown, RootRouter. now case_bool_decide. }
  assert (Hroute : ∀ l, getRoute BASE_URL l = getRoute (Some (b ++ "/")) l).
  { intros l. unfold getRoute. now rewrite Hbase. }
  assert (Hpath : getRoute BASE_URL {| hash := ""; pathname := pathname loc |} = "/setting"
                  ↔ pathname loc = "/setting" ∨ pathname loc = b ++ "/setting").
  { rewrite Hroute, path_route.
    destruct (bool_decide (b ≠ "") && startsWith (pathname loc) (b ++ "/")) eqn:Hcut.
    - apply andb_true_iff in Hcut as [Hb%bool_decide_eq_true [r Hr]%startsWith_spec].
      rewrite Hr, drop_app. split.
      + intros Heq. apply (inj (String.append "/") r "setting") in Heq as ->.
        right. apply app_assoc_string.
      + intros [Habs | Heq].
        * destruct b as [| c b]; [done |].
          rewrite !app_cons_string in Habs. injection Habs as _ Habs.
          exfalso. now apply (setting_has_one_slash b r).
        * rewrite app_assoc_string in Heq. now apply (inj (String.append b)) in Heq.
    - destruct (truthy_str (pathname loc)) eqn:Hp.
      + split; [now left |]. intros [Heq | Heq]; [done |].
        rewrite Heq in Hcut. apply andb_false_iff in Hcut as [Hb | Hstart].
        * apply bool_decide_eq_false in Hb. destruct b; [done | now destruct Hb].
        * exfalso. apply not_true_iff_false in Hstart. apply Hstart, startsWith_spec.
          exists "setting". symmetry. apply app_assoc_string.
      + apply negb_false_iff, bool_decide_eq_true in Hp. rewrite Hp. split; [done |].
        intros [Habs | Habs]; [done |]. now destruct b. }
  rewrite Hshown.
  destruct Hhash as [Hempty | [h Hh]%startsWith_spec].
  - rewrite (unhashed_route BASE_URL loc) by now left.
    rewrite Hpath, Hempty. split; [intros H; right; right; split; [now left | done] |].
    intros [H | [H | [_ H]]]; done.
  - destruct (decide (h = "")) as [-> | Hne].
    + rewrite (unhashed_route BASE_URL loc) by now right.
      rewrite Hpath, Hh. split; [intros H; right; right; split; [now right | done] |].
      intros [H | [H | [_ H]]]; done.
    + rewrite (hashed_route BASE_URL loc h Hne Hh), Hh.
      destruct (startsWith h "/") eqn:Hslash.
      * split.
        -- intros ->. now left.
        -- intros [H | [H | [[H | H] _]]].
           ++ now apply (inj (String.append "#") h "/setting") in H.
           ++ apply (inj (String.append "#") h "setting") in H. subst h.
              discriminate Hslash.
           ++ discriminate H.
           ++ now apply (inj (String.append "#") h "") in H.
      * split.
        -- intros Heq. apply (inj (String.append "/") h "setting") in Heq as ->.
           right. now left.
        -- intros [H | [H | [[H | H] _]]].
           ++ apply (inj (String.append "#") h "/setting") in H. subst h.
              discriminate Hslash.
           ++ now apply (inj (String.append "#") h "setting") in H as ->.
           ++ discriminate H.
           ++ now apply (inj (String.append "#") h "") in H.
Qed.

End Routes.

(** The site served under [/peiyao_project/], opened at its settings page by
    hash and by path. *)
Lemma route_begins_with_a_slash_witness :
  Router.startsWith "/peiyao_project/" "/" = true
  ∧ Router.startsWith
      (Router.getRoute (Some "/peiyao_project/")
         {| Router.hash := "#setting"; Router.pathname := "/peiyao_project/" |})
      "/" = true.
Proof.
  split; [reflexivity |].
  apply (route_begins_with_a_slash (Some "/peiyao_project/")
           {| Router.hash := "#setting"; Router.pathname := "/peiyao_project/" |}).
  - right. reflexivity.
  - intros base [= <-]. now exists "/peiyao_project".
Defined.

Lemma setting_page_locations_witness :
  default "/" (Some "/peiyao_project/") = "/peiyao_project" ++ "/"
  ∧ Router.shown (Some "/peiyao_project/")
      {| Router.hash := ""; Router.pathname := "/peiyao_project/setting" |}
    = Router.SettingPage.
Proof.
  split; [reflexivity |].
  apply (setting_page_locations (Some "/peiyao_project/") "/peiyao_project"
           {| Router.hash := ""; Router.pathname := "/peiyao_project/setting" |}
           eq_refl (or_introl eq_refl)).
  right. right. split; [now left | now right].
Defined.

(** ** The editor of twenty fixed frames: what is loaded, drawn and saved *)

Section Twenty.

Import Editor Editor20.

Local Open Scope list_scope.

Implicit Types (views map next : gmap string Setting.view) (idx : nat) (i : string).

Lemma FRAME_IDS_NoDup : NoDup FRAME_IDS.
Proof. refine (bool_decide_unpack _ _). vm_compute. exact I. Qed.

Lemma fill20_lookup idx (ids : list string) map next :
  NoDup ids →
  (∀ k i, ids !! k = Some i →
          fill idx ids map next !! i
          = Some (default (defaultLayout (Z.of_nat (idx + k))) (map !! i)))
  ∧ (∀ i, i ∉ ids → fill idx ids map next !! i = next !! i).
Proof.
  revert idx next. induction ids as [| i0 ids IH]; intros idx next Hnd.
  - split; [intros k i Hk; discriminate Hk | done].
  - apply NoDup_cons in Hnd as [Hfresh Hnd]. cbn [fill].
    destruct (IH (S idx)
                (<[i0 := default (defaultLayout (Z.of_nat idx)) (map !! i0)]> next) Hnd)
      as [Hin Hout].
    split.
    + intros [| k] i Hk.
      * injection Hk as <-. rewrite Hout by done.
        now rewrite lookup_insert_eq, Nat.add_0_r.
      * rewrite (Hin k i Hk). now rewrite Nat.add_succ_r.
    + intros i [Hne Hnot]%not_elem_of_cons.
      rewrite Hout by done. now apply lookup_insert_ne.
Qed.

(** The number in the id of a frame is its place in the list, counted
    from 1. *)
Lemma frame_number idx i :
  FRAME_IDS !! idx = Some i → Number (split i !! 1%nat) = Some (Z.of_nat idx + 1)%Z.
Proof.
  intros H.
  do 20 (destruct idx as [| idx];
         [vm_compute in H; injection H as <-; vm_compute; reflexivity |]).
  vm_compute in H. discriminate H.
Qed.

(** A load that is answered, with or without an error, stores a box for each
    of the twenty frames and for nothing else: the box of the last row of the
    table with the id of the frame, when the query brought no error and there
    is such a row, and the cell of the frame in the grid otherwise.  A query
    that is rejected stores nothing. *)
Theorem load_fills_the_twenty_frames res views :
  (∀ e, res = Rejected e → load res views = views)
  ∧ (∀ data error, res = Resolved data error →
       (∀ i, is_Some (load res views !! i) ↔ i ∈ FRAME_IDS)
       ∧ (∀ idx i, FRAME_IDS !! idx = Some i →
            load res views !! i
            = Some match error, last (filter (λ it, id it = i) (taken data)) with
                   | None, Some it => view_of it
                   | _, _ => defaultLayout (Z.of_nat idx)
                   end)).
Proof.
  split; [now intros e -> |]. intros data error ->.
  assert (Hload : ∃ map, load (Resolved data error) views = fill 0 FRAME_IDS map ∅
                         ∧ ∀ i, map !! i
                                = match error with
                                  | None => view_of <$> last (filter (λ it, id it = i)
                                                               (taken data))
                                  | Some _ => None
                                  end).
  { destruct error as [e|].
    - exists ∅. split; [done |]. intros i. apply lookup_empty.
    - exists (Editor.loaded data). split; [done |]. apply loaded_lookup. }
  destruct Hload as (map & -> & Hmap).
  destruct (fill20_lookup 0 FRAME_IDS map ∅ FRAME_IDS_NoDup) as [Hin Hout].
  split.
  - intros i. split.
    + intros Hsome. destruct (decide (i ∈ FRAME_IDS)) as [| Hnot]; [done |].
      rewrite (Hout i Hnot), lookup_empty in Hsome. now destruct Hsome.
    + intros (k & Hk)%list_elem_of_lookup. rewrite (Hin k i Hk). now eexists.
  - intros idx i Hidx. rewrite (Hin idx i Hidx), Hmap. simpl.
    destruct error; [done |]. now destruct (last _).
Qed.

(** A save always writes one record for each of the twenty frames, in their
    order, whatever the mapping holds: the rounded box the frame is drawn
    with.  The grid cell used for a frame missing from the mapping is the one
    of its place in the list, read back from the number in its id. *)
Theorem save_writes_the_twenty_frames views :
  ∃ p, payload views = Some p
       ∧ rid <$> p = FRAME_IDS
       ∧ ∀ idx i, FRAME_IDS !! idx = Some i →
                  p !! idx = Some (round_entry (i, drawn views idx i)).
Proof.
  exists (imap (λ idx i, round_entry (i, drawn views idx i)) FRAME_IDS).
  assert (Hentry : ∀ idx i, FRAME_IDS !! idx = Some i →
                            payload_entry views i
                            = Some (round_entry (i, drawn views idx i))).
  { intros idx i Hidx. unfold payload_entry, drawn.
    destruct (views !! i) as [v|]; [done |].
    rewrite (frame_number idx i Hidx). simpl.
    now replace (Z.of_nat idx + 1 - 1)%Z with (Z.of_nat idx) by lia. }
  split; [| split].
  - unfold payload. apply mapM_Some, Forall2_same_length_lookup_2.
    + now rewrite length_imap.
    + intros idx i r Hidx Hr. rewrite list_lookup_imap, Hidx in Hr.
      injection Hr as <-. now apply Hentry.
  - apply list_eq. intros idx.
    rewrite list_lookup_fmap, list_lookup_imap.
    now destruct (FRAME_IDS !! idx).
  - intros idx i Hidx. now rewrite list_lookup_imap, Hidx.
Qed.

(** Frames that have no box in the mapping are drawn in their grid cells, and
    no two of those overlap. *)
Theorem frames_without_a_box_are_apart views idx idx' i i' :
  views !! i = None → views !! i' = None → idx ≠ idx' →
  Slots.apart (drawn views idx i) (drawn views idx' i').
Proof.
  intros Hi Hi' Hne. unfold drawn. rewrite Hi, Hi'. cbn [default from_option].
  unfold defaultLayout, Slots.apart. cbv zeta.
  cbn [Setting.x Setting.y Setting.w Setting.h].
  unfold Qle, Qplus, inject_Z. cbn [Qnum Qden].
  rewrite !Z.rem_mod_nonneg by lia.
  pose proof (Z.div_mod (Z.of_nat idx) 4 ltac:(lia)) as Em.
  pose proof (Z.div_mod (Z.of_nat idx') 4 ltac:(lia)) as En.
  pose proof (Z.mod_pos_bound (Z.of_nat idx) 4 ltac:(lia)) as Bm.
  pose proof (Z.mod_pos_bound (Z.of_nat idx') 4 ltac:(lia)) as Bn.
  destruct (Z.lt_total (Z.of_nat idx mod 4) (Z.of_nat idx' mod 4)) as [H | [H | H]];
    [left; lia | | right; left; lia].
  destruct (Z.lt_total (Z.of_nat idx / 4) (Z.of_nat idx' / 4)) as [H' | [H' | H']];
    [right; right; left; lia | lia | right; right; right; lia].
Qed.

End Twenty.

Lemma load_fills_the_twenty_frames_witness :
  Editor20.FRAME_IDS !! 2%nat = Some "frame-3"
  ∧ Editor20.load (Resolved (Some Editor20.sample_table) None) ∅ !! "frame-3"
    = Some {| Setting.x := 40; Setting.y := 30; Setting.w := 300; Setting.h := 200 |}.
Proof.
  assert (H : Editor20.FRAME_IDS !! 2%nat = Some "frame-3") by (vm_compute; reflexivity).
  split; [exact H |].
  rewrite (proj2 (proj2 (load_fills_the_twenty_frames
                           (Resolved (Some Editor20.sample_table) None) ∅)
                    (Some Editor20.sample_table) None eq_refl) 2%nat "frame-3" H).
  reflexivity.
Defined.

Lemma frames_without_a_box_are_apart_witness :
  (∅ : gmap string Setting.view) !! "frame-1" = None
  ∧ (∅ : gmap string Setting.view) !! "frame-6" = None
  ∧ Slots.apart (Editor20.drawn ∅ 0 "frame-1") (Editor20.drawn ∅ 5 "frame-6").
Proof.
  split; [reflexivity |]. split; [reflexivity |].
  apply (frames_without_a_box_are_apart ∅ 0 5 "frame-1" "frame-6");
    [reflexivity | reflexivity | lia].
Defined.

(** ** The frames of the gallery: their order, and the frame of a slot *)

Section FrameOrder.

Import Slots Frames.

Local Open Scope list_scope.

Implicit Types (a b f : FrameLayout) (data frames : list FrameLayout).

Lemma sort_insert_ext {A} (cmp cmp' : A → A → Z) (x : A) (l : list A) :
  Forall (λ y, (0 <? cmp x y)%Z = (0 <? cmp' x y)%Z) l →
  Cleanup.sort_insert cmp x l = Cleanup.sort_insert cmp' x l.
Proof.
  induction 1 as [| y l Hy _ IH]; [done |]. simpl. now rewrite Hy, IH.
Qed.

Lemma Array_sort_ext {A} (cmp cmp' : A → A → Z) (l : list A) :
  (∀ x y, x ∈ l → y ∈ l → (0 <? cmp x y)%Z = (0 <? cmp' x y)%Z) →
  Cleanup.Array_sort cmp l = Cleanup.Array_sort cmp' l.
Proof.
  induction l as [| x l IH]; intros Hext; [done |]. simpl.
  rewrite IH.
  - apply sort_insert_ext, Forall_forall. intros y Hy.
    rewrite Array_sort_perm in Hy.
    apply Hext; [apply list_elem_of_here | now apply list_elem_of_further].
  - intros y z Hy Hz. apply Hext; now apply list_elem_of_further.
Qed.

Lemma huge_pos : (2 ^ 53 < huge)%Z.
Proof. unfold huge. apply Z.pow_lt_mono_r; lia. Qed.

Lemma round_div_ge (n d : Z) : (n / d ≤ Double.round_div n d)%Z.
Proof. unfold Double.round_div. simpl. destruct (_ || _); lia. Qed.

Lemma keep53_pos (n : Z) : (0 < n → 0 < Double.keep53 n)%Z.
Proof.
  intros Hn. unfold Double.keep53. simpl.
  destruct (Z.leb_spec (Z.log2 n - 52) 0) as [| Hk]; [done |].
  assert (Hpow : (0 < 2 ^ (Z.log2 n - 52))%Z) by (apply Z.pow_pos_nonneg; lia).
  apply Z.mul_pos_pos; [| done].
  eapply Z.lt_le_trans; [| apply round_div_ge].
  apply Z.div_str_pos. split; [done |].
  etrans; [| apply (Z.log2_spec n Hn)]. apply Z.pow_le_mono_r; lia.
Qed.

Lemma keep53_small (n : Z) : (0 ≤ n ≤ 2 ^ 53 → Double.keep53 n = n)%Z.
Proof.
  intros [Hn Hle]. destruct (decide (n = 2 ^ 53)%Z) as [-> | Hne]; [reflexivity |].
  unfold Double.keep53. simpl.
  destruct (Z.leb_spec (Z.log2 n - 52) 0) as [| Hk]; [done |].
  destruct (decide (n = 0)%Z) as [-> | Hpos]; [done |].
  assert (Z.log2 n < 53)%Z by (apply Z.log2_lt_pow2; lia). lia.
Qed.

(** A whole number up to [2^53] is its own Number. *)
Lemma Number_of_Z_small (z : Z) : (Z.abs z ≤ 2 ^ 53)%Z → Number_of_Z z = Finite z.
Proof.
  intros Hz. unfold Number_of_Z. simpl. rewrite keep53_small by lia.
  pose proof huge_pos. destruct (Z.leb_spec huge (Z.abs z)) as [| _]; [lia |].
  now rewrite Z.mul_comm, Z.abs_sgn.
Qed.

(** Rounding keeps the sign and stays below [2^1024] or gives the infinity of
    that sign. *)
Lemma Number_of_Z_spec (z : Z) :
  match Number_of_Z z with
  | NaN => False
  | Finite r => (Z.abs r < huge)%Z ∧ Z.sgn r = Z.sgn z
  | Infinity negative => negative = (z <? 0)%Z ∧ z ≠ 0%Z
  end.
Proof.
  unfold Number_of_Z. simpl. pose proof huge_pos as Hhuge.
  destruct (Z.leb_spec huge (Double.keep53 (Z.abs z))) as [Hinf | Hfin].
  - split; [done |]. intros ->. simpl in Hinf. unfold Double.keep53 in Hinf.
    simpl in Hinf. lia.
  - destruct (Z.abs_spec z) as [[Hz Habs] | [Hz Habs]]; rewrite Habs in *.
    + destruct (decide (z = 0)%Z) as [-> | Hne]; [simpl; lia |].
      pose proof (keep53_pos z). rewrite (Z.sgn_pos z) by lia. lia.
    + pose proof (keep53_pos (- z)). rewrite (Z.sgn_neg z) by lia. lia.
Qed.

Lemma number_of_within (i : string) : within (number_of i).
Proof.
  assert (Hread : ∀ digits, within (from_option Number_of_Z NaN digits)).
  { intros [z|]; [| done]. simpl. pose proof (Number_of_Z_spec z) as H.
    destruct (Number_of_Z z); [done | apply H | done]. }
  unfold number_of, parseInt.
  destruct (trim_start _) as [| c s]; [apply Hread |].
  destruct c as [[] [] [] [] [] [] [] []]; apply Hread.
Qed.

(** The comparator has the sign of the difference of the two places. *)
Lemma minus_sign (na nb : number) :
  within na → within nb → na ≠ NaN → nb ≠ NaN →
  (0 <? value (minus na nb))%Z = (0 <? value na - value nb)%Z.
Proof.
  pose proof huge_pos as Hhuge.
  destruct na as [| x | s], nb as [| y | s']; try done; simpl; intros Hx Hy _ _.
  - pose proof (Number_of_Z_spec (x - y)) as H.
    destruct (Number_of_Z (x - y)) as [| r | s]; [done | |]; simpl.
    + destruct H as [_ H]. destruct (Z.ltb_spec 0 r), (Z.ltb_spec 0 (x - y)); lia.
    + destruct H as [-> H]. destruct (Z.ltb_spec (x - y) 0), (Z.ltb_spec 0 (x - y));
        lia.
  - destruct s'; simpl; destruct (Z.ltb_spec 0 huge); simpl;
      destruct (Z.ltb_spec 0 (- huge)), (Z.ltb_spec 0 (x - huge)),
        (Z.ltb_spec 0 (x - - huge)); lia.
  - destruct s; simpl; destruct (Z.ltb_spec 0 huge), (Z.ltb_spec 0 (- huge)),
      (Z.ltb_spec 0 (huge - y)), (Z.ltb_spec 0 (- huge - y)); lia.
  - destruct s, s'; simpl; destruct (Z.ltb_spec 0 huge), (Z.ltb_spec 0 (- huge)),
      (Z.ltb_spec 0 (huge - - huge)), (Z.ltb_spec 0 (- huge - huge)); lia.
Qed.

(** The number a frame is ordered by. *)
Local Abbreviation num := (λ f : FrameLayout, value (number_of (id f))).

Lemma by_number_sign data :
  Forall (λ f, number_of (id f) ≠ NaN) data →
  ∀ a b, a ∈ data → b ∈ data →
         (0 <? by_number a b)%Z = (0 <? - num b - - num a)%Z.
Proof.
  intros Hnum a b Ha Hb. rewrite Forall_forall in Hnum. unfold by_number.
  rewrite minus_sign by (try apply number_of_within; now apply Hnum).
  f_equal. lia.
Qed.

Lemma loadFrames_sorted data :
  Forall (λ f, number_of (id f) ≠ NaN) data →
  StronglySorted (λ a b, (num a ≤ num b)%Z) (Cleanup.Array_sort by_number data).
Proof.
  intros Hnum.
  rewrite (Array_sort_ext by_number (λ a b, (- num b - - num a)%Z))
    by now apply by_number_sign.
  pose proof (Array_sort_sorted (λ f, (- num f)%Z) data) as Hs.
  eapply (Sorted.StronglySorted_ind
            (λ l, StronglySorted (λ a b, (num a ≤ num b)%Z) l));
    [constructor | | exact Hs].
  intros a l _ IH Ha. constructor; [exact IH |].
  eapply Forall_impl; [exact Ha |]. simpl. intros b Hb. lia.
Qed.

(** The number in the id of a frame of the editor is its place in the list,
    counted from 1. *)
Lemma frame_parse idx (i : string) :
  Editor20.FRAME_IDS !! idx = Some i → number_of i = Finite (Z.of_nat idx + 1)%Z.
Proof.
  intros H.
  do 20 (destruct idx as [| idx];
         [vm_compute in H; injection H as <-; vm_compute; reflexivity |]).
  vm_compute in H. discriminate H.
Qed.

(** Given that no id of the table has NaN for its number, the frames kept are
    the first 16 of the table in ascending order of that number, which is the
    double nearest to the digits after the first hyphen: they are in order,
    rows of equal number stay in the order of the table, and no row left out
    has a smaller number than a row kept.  A load that fails leaves no frame.
    Digits up to [2^53] are their own number; longer ones are rounded, so
    that two ids that differ may have the same number. *)
Theorem frames_are_ordered_by_number data :
  Forall (λ f, number_of (id f) ≠ NaN) data →
  length (loadFrames (Resolved (Some data) None)) = min 16 (length data)
  ∧ (∃ rest, loadFrames (Resolved (Some data) None) ++ rest ≡ₚ data
             ∧ ∀ a b, a ∈ loadFrames (Resolved (Some data) None) → b ∈ rest →
                      (num a ≤ num b)%Z)
  ∧ (∀ k j a b, (k < j)%nat →
       loadFrames (Resolved (Some data) None) !! k = Some a →
       loadFrames (Resolved (Some data) None) !! j = Some b →
       (num a ≤ num b)%Z)
  ∧ (∀ n, filter (λ f, num f = n) (Cleanup.Array_sort by_number data)
          = filter (λ f, num f = n) data)
  ∧ (∀ e d, loadFrames (Resolved d (Some e)) = [] ∧ loadFrames (Rejected e) = [])
  ∧ (∀ z, (Z.abs z ≤ 2 ^ 53)%Z → Number_of_Z z = Finite z)
  ∧ number_of "frame-12345678901234567891" = Finite 12345678901234567168
  ∧ number_of "frame-12345678901234567890" = Finite 12345678901234567168.
Proof.
  intros Hnum. pose proof (loadFrames_sorted data Hnum) as Hs.
  pose proof (Array_sort_perm by_number data) as Hperm.
  change (loadFrames (Resolved (Some data) None))
    with (take 16 (Cleanup.Array_sort by_number data)).
  split; [| split; [| split; [| split; [| split; [| split]]]]].
  - rewrite length_take, (Permutation_length Hperm). lia.
  - exists (drop 16 (Cleanup.Array_sort by_number data)).
    rewrite take_drop. split; [exact Hperm |].
    intros a b Ha Hb.
    rewrite <- (take_drop 16 (Cleanup.Array_sort by_number data)) in Hs.
    now apply (StronglySorted_app_1_elem_of _ _ _ _ _ Hs).
  - intros k j a b Hkj Hk Hj.
    apply lookup_take_Some in Hk as [Hk _]. apply lookup_take_Some in Hj as [Hj _].
    clear Hperm. revert k j Hkj Hk Hj.
    induction Hs as [| x l Hl IH Hx]; intros k j Hkj Hk Hj.
    + now rewrite lookup_nil in Hk.
    + destruct j as [| j]; [lia |]. simpl in Hj. destruct k as [| k].
      * injection Hk as <-. apply list_elem_of_lookup_2 in Hj.
        rewrite Forall_forall in Hx. now apply Hx.
      * simpl in Hk. apply (IH k j); [lia | done | done].
  - intros n.
    rewrite (Array_sort_ext by_number (λ a b, (- num b - - num a)%Z))
      by now apply by_number_sign.
    rewrite (list_filter_iff (λ f, num f = n) (λ f, (- num f)%Z = (- n)%Z))
      by (intros f; lia).
    rewrite (Array_sort_stable_by (λ f, (- num f)%Z) (- n)%Z data).
    apply list_filter_iff. intros f. lia.
  - done.
  - apply Number_of_Z_small.
  - split; vm_compute; reflexivity.
Qed.

Lemma frame_ids_sorted :
  StronglySorted (λ i j : string, (value (number_of i) ≤ value (number_of j))%Z)
    Editor20.FRAME_IDS.
Proof. refine (bool_decide_unpack _ _). vm_compute. exact I. Qed.

Lemma frame_ids_number_inj (i j : string) :
  i ∈ Editor20.FRAME_IDS → j ∈ Editor20.FRAME_IDS →
  value (number_of i) = value (number_of j) → i = j.
Proof.
  intros [k Hk]%list_elem_of_lookup [k' Hk']%list_elem_of_lookup.
  rewrite (frame_parse k i Hk), (frame_parse k' j Hk'). simpl. intros Heq.
  assert (k = k') as -> by lia. congruence.
Qed.

(** When the table holds the twenty frames of the editor, in whatever order,
    the gallery keeps the frames 1 to 16 in that order; so slot [s] of the
    gallery is drawn in the box that the editor saved for frame [s]. *)
Theorem slot_takes_the_box_of_its_frame data :
  id <$> data ≡ₚ Editor20.FRAME_IDS →
  id <$> loadFrames (Resolved (Some data) None) = take 16 Editor20.FRAME_IDS
  ∧ ∀ idx f, (idx < 16)%nat → f ∈ data → Editor20.FRAME_IDS !! idx = Some (id f) →
             getBox (loadFrames (Resolved (Some data) None)) idx
             = {| Setting.x := x f; Setting.y := y f;
                  Setting.w := w f; Setting.h := h f |}.
Proof.
  intros Hids.
  assert (Hin : ∀ f, f ∈ data → id f ∈ Editor20.FRAME_IDS).
  { intros f Hf. rewrite <- Hids. now apply list_elem_of_fmap_2. }
  assert (Hnum : Forall (λ f, number_of (id f) ≠ NaN) data).
  { apply Forall_forall. intros f [k Hk]%Hin%list_elem_of_lookup.
    now rewrite (frame_parse k _ Hk). }
  pose proof (loadFrames_sorted data Hnum) as Hs.
  pose proof (Array_sort_perm by_number data) as Hperm.
  assert (Hsorted : id <$> Cleanup.Array_sort by_number data = Editor20.FRAME_IDS).
  { apply (StronglySorted_unique_strong
             (λ i j : string, (value (number_of i) ≤ value (number_of j))%Z)).
    - intros i j Hi Hj Hij Hji. apply frame_ids_number_inj; [| done | lia].
      now rewrite Hperm, Hids in Hi.
    - now apply (StronglySorted_fmap _ (λ a b, (num a ≤ num b)%Z)).
    - apply frame_ids_sorted.
    - now rewrite Hperm. }
  change (loadFrames (Resolved (Some data) None))
    with (take 16 (Cleanup.Array_sort by_number data)).
  split; [now rewrite fmap_take, Hsorted |].
  intros idx f Hidx Hf Hframe. unfold getBox.
  rewrite lookup_take_lt by done.
  assert (Hlookup : (id <$> Cleanup.Array_sort by_number data) !! idx = Some (id f))
    by now rewrite Hsorted.
  rewrite list_lookup_fmap in Hlookup.
  destruct (Cleanup.Array_sort by_number data !! idx) as [f'|] eqn:Hf'; [| done].
  injection Hlookup as Hid.
  assert (f' = f) as ->; [| done].
  assert (Hf'in : f' ∈ data).
  { rewrite <- Hperm. now apply list_elem_of_lookup_2 in Hf'. }
  assert (Hnd : NoDup (id <$> data)).
  { rewrite Hids. refine (bool_decide_unpack _ _). vm_compute. exact I. }
  apply list_elem_of_lookup in Hf as [m Hm]. apply list_elem_of_lookup in Hf'in as [m' Hm'].
  assert (m' = m); [| congruence].
  eapply NoDup_lookup; [exact Hnd | |]; rewrite list_lookup_fmap.
  - now rewrite Hm'.
  - rewrite Hm. simpl. now rewrite Hid.
Qed.

End FrameOrder.

(** The table of the editor, and one with two ids whose digits round to the
    same double: those two stay in the order of the table, after frame 2. *)
Lemma frames_are_ordered_by_number_witness :
  Forall (λ f, Frames.number_of (Slots.id f) ≠ Frames.NaN) Frames.sample_frames
  ∧ length (Frames.loadFrames (Resolved (Some Frames.sample_frames) None)) = 16%nat
  ∧ Forall (λ f, Frames.number_of (Slots.id f) ≠ Frames.NaN) Frames.long_frames
  ∧ filter (λ f, Frames.value (Frames.number_of (Slots.id f)) = 12345678901234567168%Z)
      (Cleanup.Array_sort Frames.by_number Frames.long_frames)
    = filter (λ f, Frames.value (Frames.number_of (Slots.id f)) = 12345678901234567168%Z)
        Frames.long_frames
  ∧ Slots.id <$> Frames.loadFrames (Resolved (Some Frames.long_frames) None)
    = ["frame-2"; "frame-12345678901234567891"; "frame-12345678901234567890"].
Proof.
  assert (H : Forall (λ f, Frames.number_of (Slots.id f) ≠ Frames.NaN)
                Frames.sample_frames).
  { repeat constructor; vm_compute; discriminate. }
  assert (H' : Forall (λ f, Frames.number_of (Slots.id f) ≠ Frames.NaN)
                 Frames.long_frames).
  { repeat constructor; vm_compute; discriminate. }
  split; [exact H |]. split; [| split; [exact H' |]].
  - exact (proj1 (frames_are_ordered_by_number Frames.sample_frames H)).
  - split.
    + exact (proj1 (proj2 (proj2 (proj2
               (frames_are_ordered_by_number Frames.long_frames H'))))
               12345678901234567168%Z).
    + vm_compute. reflexivity.
Defined.

Lemma slot_takes_the_box_of_its_frame_witness :
  Slots.id <$> Frames.sample_frames ≡ₚ Editor20.FRAME_IDS
  ∧ Slots.id <$> Frames.loadFrames (Resolved (Some Frames.sample_frames) None)
    = take 16 Editor20.FRAME_IDS.
Proof.
  assert (H : Slots.id <$> Frames.sample_frames ≡ₚ Editor20.FRAME_IDS).
  { refine (bool_decide_unpack _ _). vm_compute. exact I. }
  split; [exact H |].
  exact (proj1 (slot_takes_the_box_of_its_frame Frames.sample_frames H)).
Defined.
